(** * Printer Supply & Tray Monitor: the parsing heuristics, the alert
      engine and the tray-state store of [src/main.py]

    A shallow embedding of the pure core of the monitor, followed by the
    properties its specification states about it.

    Conventions of the embedding.
    - A Python [str] is a Rocq [string].  Character classes ([\d], [\s],
      [\b], [str.upper], [str.lower], [str.isdigit]) follow Python on the
      ASCII range; a character above code 127 is in no class and has no
      case.
    - A Python [int] is a [Z] (a [N] where the code can only produce a
      natural number, a [nat] for a length or a count).  [int] of a text
      is CPython's, which refuses a text of more than 4300 digits.
    - A function that can raise returns a sum: the exception on the
      left, the result on the right.
    - A [dict] whose iteration order the code relies on is an association
      list in insertion order ([odict]); a [dict] that is only looked up
      by key is a [gmap]; a [set] is a [gset].
    - Values are as the type annotations of the source give them: an
      open-tray entry and an event are dictionaries from strings to
      strings, and the entries of a snapshot are distinct objects, as
      [build_current_empties] makes them.
    - A method of [StateStore] is a function from the store before the
      call to the store after it (and the returned value); the store is
      [self.data] together with the file at [self.state_path].  The
      methods are modelled where writing the file succeeds;
      [_refresh_worker], which catches what [save] raises, is given what
      becomes of the write. *)

From Stdlib Require Import String Ascii List ZArith NArith Lia Bool.
From Stdlib Require Import DecimalString Permutation.
From stdpp Require Import gmap strings list.

Set Warnings "-register-all,-abstract-large-number".

Open Scope string_scope.

(** What reading a page can raise: the [[1]] of a split without a second
    part, and [int] on a text of too many digits. *)
Inductive parse_error := IndexError | ValueError.

(** ** Text primitives *)

Module Text.

Definition code (c : ascii) : N := N_of_ascii c.

Definition between (lo hi : N) (c : ascii) : bool :=
  (lo <=? code c)%N && (code c <=? hi)%N.

Definition is_digit (c : ascii) : bool := between 48 57 c.
Definition is_upper (c : ascii) : bool := between 65 90 c.
Definition is_lower (c : ascii) : bool := between 97 122 c.
Definition is_alpha (c : ascii) : bool := is_upper c || is_lower c.

(** [\w]: letters, digits and the underscore. *)
Definition is_word (c : ascii) : bool :=
  is_alpha c || is_digit c || (code c =? 95)%N.

(** [\s]: tab, line feed, vertical tab, form feed, carriage return, the
    four separators 28..31 and the space. *)
Definition is_space (c : ascii) : bool :=
  between 9 13 c || between 28 31 c || (code c =? 32)%N.

Definition upper_char (c : ascii) : ascii :=
  if is_lower c then ascii_of_N (code c - 32) else c.

Definition lower_char (c : ascii) : ascii :=
  if is_upper c then ascii_of_N (code c + 32) else c.

Fixpoint map_chars (f : ascii -> ascii) (s : string) : string :=
  match s with
  | EmptyString => EmptyString
  | String c r => String (f c) (map_chars f r)
  end.

Fixpoint filter_chars (p : ascii -> bool) (s : string) : string :=
  match s with
  | EmptyString => EmptyString
  | String c r => if p c then String c (filter_chars p r) else filter_chars p r
  end.

Fixpoint all_chars (p : ascii -> bool) (s : string) : bool :=
  match s with
  | EmptyString => true
  | String c r => p c && all_chars p r
  end.

Definition upper (s : string) : string := map_chars upper_char s.
Definition lower (s : string) : string := map_chars lower_char s.

(** [str.isdigit]: at least one character, all of them digits. *)
Definition isdigit (s : string) : bool :=
  match s with
  | EmptyString => false
  | _ => all_chars is_digit s
  end.

Fixpoint int_digits (acc : N) (s : string) : N :=
  match s with
  | EmptyString => acc
  | String c r => int_digits (10 * acc + (code c - 48)) r
  end.

(** The number a string of digits denotes. *)
Definition int_of (s : string) : N := int_digits 0 s.

(** [sys.int_info.default_max_str_digits] *)
Definition max_str_digits : nat := 4300.

(** [int(s)] on a string of digits: CPython raises [ValueError] when
    there are more than [max_str_digits] of them, leading zeros
    counted. *)
Definition int (s : string) : parse_error + N :=
  if (String.length s <=? max_str_digits)%nat then inr (int_of s) else inl ValueError.

(** [str(n)] and the [{n}] of an f-string, for an [int]. *)
Definition str_of_N (n : N) : string := NilZero.string_of_uint (N.to_uint n).
Definition str_of_Z (z : Z) : string := NilZero.string_of_int (Z.to_int z).

(** [s.startswith(p)] together with the remainder [s[len(p):]]. *)
Fixpoint strip_prefix (p s : string) : option string :=
  match p, s with
  | EmptyString, _ => Some s
  | String a p', String b s' => if Ascii.eqb a b then strip_prefix p' s' else None
  | String _ _, EmptyString => None
  end.

Fixpoint drop_while (p : ascii -> bool) (s : string) : string :=
  match s with
  | EmptyString => EmptyString
  | String c r => if p c then drop_while p r else s
  end.

Fixpoint take_while (p : ascii -> bool) (s : string) : string :=
  match s with
  | EmptyString => EmptyString
  | String c r => if p c then String c (take_while p r) else EmptyString
  end.

(** A word boundary ([\b]) between a word character and what follows. *)
Definition boundary_after_word (rest : string) : bool :=
  match rest with
  | EmptyString => true
  | String c _ => negb (is_word c)
  end.

(** A word boundary between what precedes ([None] at the start of the
    text) and a word character. *)
Definition boundary_before_word (prev : option ascii) : bool :=
  match prev with
  | None => true
  | Some c => negb (is_word c)
  end.

End Text.

(** ** Tray labels: [normalize_tray] *)

Definition keeps_in_token (c : ascii) : bool :=
  Text.is_alpha c || Text.is_digit c || Ascii.eqb c "-"%char.

(** [re.sub(r"[^A-Za-z0-9-]", "", value).upper()] *)
Definition tray_token (value : string) : string :=
  Text.upper (Text.filter_chars keeps_in_token value).

(** [f"Tray {int(token)}"] *)
Definition numbered_tray (token : string) : parse_error + string :=
  match Text.int token with
  | inr number => inr ("Tray " ++ Text.str_of_N number)
  | inl e => inl e
  end.

Definition normalize_tray (value : string) : parse_error + string :=
  let token := tray_token value in
  if String.eqb token "" then inr "Unknown Tray"
  else if Text.isdigit token then numbered_tray token
  else
    match Text.strip_prefix "TRAY" token with
    | Some rest =>
        let token := if String.eqb rest "" then "UNKNOWN" else rest in
        if Text.isdigit token then numbered_tray token
        else inr ("Tray " ++ token)
    | None => inr ("Tray " ++ token)
    end.

(** ** The tail metric extractor: [parse_tail_metrics] *)

(** One attempt of [\b(\d{1,3})\b] at the head of [s], [prev] being the
    character before it.  The quantifier is greedy and backtracks: three
    digits are tried first, then two, then one. *)
Definition digits_then_boundary (k : nat) (s : string) : option string :=
  let m := String.substring 0 k s in
  let rest := String.substring k (String.length s - k) s in
  if (String.length m =? k)%nat && Text.all_chars Text.is_digit m
     && Text.boundary_after_word rest
  then Some m else None.

Definition match_number (prev : option ascii) (s : string) : option string :=
  if Text.boundary_before_word prev then
    match digits_then_boundary 3 s with
    | Some m => Some m
    | None =>
        match digits_then_boundary 2 s with
        | Some m => Some m
        | None => digits_then_boundary 1 s
        end
    end
  else None.

(** [re.findall]: the text is scanned from the left; a match is recorded
    and the scan resumes after it ([skip] counts the characters of the
    last match still to pass), otherwise it moves one character on. *)
Fixpoint findall_numbers_from (skip : nat) (prev : option ascii) (s : string)
  : list string :=
  match s with
  | EmptyString => []
  | String c rest =>
      match skip with
      | S k => findall_numbers_from k (Some c) rest
      | O =>
          match match_number prev s with
          | Some m => m :: findall_numbers_from (String.length m - 1) (Some c) rest
          | None => findall_numbers_from 0 (Some c) rest
          end
      end
  end.

Definition findall_numbers (s : string) : list string :=
  findall_numbers_from 0 None s.

(** [\d{2}] followed by the literal [sep], at the head of [s]. *)
Definition two_digits (s : string) : option (string * string) :=
  match s with
  | String a (String b rest) =>
      if Text.is_digit a && Text.is_digit b
      then Some (String a (String b EmptyString), rest) else None
  | _ => None
  end.

Definition two_digits_sep (sep : ascii) (s : string) : option (string * string) :=
  match two_digits s with
  | Some (d, String c rest) =>
      if Ascii.eqb c sep then Some (d ++ String c EmptyString, rest) else None
  | _ => None
  end.

(** One attempt of [\b(\d{2}/\d{2}/\d{2}\s+\d{2}:\d{2}:\d{2})\b] at the
    head of [s]: the matched text, as it stands in [s]. *)
Definition match_timestamp (prev : option ascii) (s : string) : option string :=
  if Text.boundary_before_word prev then
    '(d1, s1) ← two_digits_sep "/" s;
    '(d2, s2) ← two_digits_sep "/" s1;
    '(d3, s3) ← two_digits s2;
    let ws := Text.take_while Text.is_space s3 in
    let s4 := Text.drop_while Text.is_space s3 in
    if String.eqb ws "" then None else
    '(t1, s5) ← two_digits_sep ":" s4;
    '(t2, s6) ← two_digits_sep ":" s5;
    '(t3, s7) ← two_digits s6;
    if Text.boundary_after_word s7
    then Some (d1 ++ d2 ++ d3 ++ ws ++ t1 ++ t2 ++ t3) else None
  else None.

(** [re.search]: the leftmost position where the attempt succeeds. *)
Fixpoint search_timestamp_from (prev : option ascii) (s : string) : option string :=
  match match_timestamp prev s with
  | Some m => Some m
  | None =>
      match s with
      | EmptyString => None
      | String c rest => search_timestamp_from (Some c) rest
      end
  end.

Definition search_timestamp (s : string) : option string :=
  search_timestamp_from None s.

Definition level_keys : list string :=
  [ "toner_k"; "toner_c"; "toner_m"; "toner_y";
    "drum_k"; "drum_c"; "drum_m"; "drum_y"; "belt"; "fuser" ].

(** [numbers[-10:]] *)
Definition last_ten (numbers : list Z) : list Z :=
  drop (length numbers - 10) numbers.

Definition in_range (value : Z) : bool := (0 <=? value)%Z && (value <=? 100)%Z.

(** [dict(zip(keys, candidate))] *)
Definition levels_of (candidate : list Z) : gmap string Z :=
  list_to_map (zip level_keys candidate).

(** [[int(value) for value in ...]]: a value has at most three digits,
    which [int] never refuses. *)
Definition tail_numbers (row_tail : string) : list Z :=
  map (fun value => Z.of_N (Text.int_of value)) (findall_numbers row_tail).

Definition parse_tail_metrics (row_tail : string) : gmap string Z * string :=
  let last_update := default "" (search_timestamp row_tail) in
  let numbers := tail_numbers row_tail in
  let levels :=
    if (10 <=? length numbers)%nat then
      let candidate := last_ten numbers in
      if forallb in_range candidate then levels_of candidate else ∅
    else ∅ in
  (levels, last_update).

(** ** Records and alerts *)

(** From here on [++] appends lists and [+:+] appends strings. *)
Open Scope list_scope.

Record PrinterRecord := {
  printer_id : string;
  description : string;
  status_message : string;
  printer_text : string;
  device_last_update : string;
  row_tail : string;
  levels : gmap string Z;
  empty_trays : list string
}.

(** The fields [printer_id] and [description] of the dataclass [LowAlert]
    carry the prefix [alert_] here: a field name is global. *)
Record LowAlert := {
  alert_printer_id : string;
  alert_description : string;
  item : string;
  level : string;
  source : string
}.

(** ** The levels of a row tail over any alphabet

    [parse_tail_metrics] reads the levels with [\b], [\d{1,3}] and
    [int] alone.  Here a text is a list of characters of any type, and
    the classes [\w] and [\d] and the value of a digit are given from
    outside, as Python's tables give them for the characters of a
    [str]. *)
Module AnyText.

(** The classes [\w] and [\d] of an alphabet, and the value of a digit. *)
Class Alphabet (char : Type) := {
  is_word : char -> bool;
  is_digit : char -> bool;
  digit_value : char -> N
}.

Section Levels.
Context `{Alphabet char}.

Definition word_side (c : option char) : bool :=
  match c with
  | Some c => is_word c
  | None => false
  end.

(** [\b] between the character [prev] ([None] at the start of the text)
    and the text [s]: a word character on exactly one side. *)
Definition boundary (prev : option char) (s : list char) : bool :=
  xorb (word_side prev) (word_side (head s)).

(** [\d{k}] and then [\b], at the head of [s]. *)
Definition digits_then_boundary (k : nat) (s : list char) : option (list char) :=
  let m := take k s in
  if (length m =? k)%nat && forallb is_digit m && boundary (last m) (drop k s)
  then Some m else None.

(** One attempt of [\b(\d{1,3})\b]: three digits are tried first, then
    two, then one. *)
Definition match_number (prev : option char) (s : list char) : option (list char) :=
  if boundary prev s then
    match digits_then_boundary 3 s with
    | Some m => Some m
    | None =>
        match digits_then_boundary 2 s with
        | Some m => Some m
        | None => digits_then_boundary 1 s
        end
    end
  else None.

(** [re.findall], as [findall_numbers_from] above. *)
Fixpoint findall_numbers_from (skip : nat) (prev : option char) (s : list char)
  : list (list char) :=
  match s with
  | [] => []
  | c :: rest =>
      match skip with
      | S k => findall_numbers_from k (Some c) rest
      | O =>
          match match_number prev s with
          | Some m => m :: findall_numbers_from (length m - 1) (Some c) rest
          | None => findall_numbers_from 0 (Some c) rest
          end
      end
  end.

Definition findall_numbers (s : list char) : list (list char) :=
  findall_numbers_from 0 None s.

(** [int(value)] on a text of digits. *)
Definition int_of (value : list char) : N :=
  fold_left (fun acc c => (10 * acc + digit_value c)%N) value 0%N.

Definition tail_numbers (row_tail : list char) : list Z :=
  map (fun value => Z.of_N (int_of value)) (findall_numbers row_tail).

(** The first component of [parse_tail_metrics]. *)
Definition tail_levels (row_tail : list char) : gmap string Z :=
  let numbers := tail_numbers row_tail in
  if (10 <=? length numbers)%nat then
    let candidate := last_ten numbers in
    if forallb in_range candidate then levels_of candidate else ∅
  else ∅.

(** The words of a text, in the words of the specification: its
    maximal runs of word characters, from left to right ([current] is
    the run under way). *)
Fixpoint words_from (current : list char) (s : list char) : list (list char) :=
  match s with
  | [] =>
      match current with
      | [] => []
      | _ => [current]
      end
  | c :: rest =>
      if is_word c then words_from (current ++ [c]) rest
      else
        match current with
        | [] => words_from [] rest
        | _ => current :: words_from [] rest
        end
  end.

Definition words (s : list char) : list (list char) := words_from [] s.

(** A word of one to three digits. *)
Definition number_word (w : list char) : bool :=
  (1 <=? length w)%nat && (length w <=? 3)%nat && forallb is_digit w.

(** The word a text starts with, and the text after it. *)
Fixpoint first_word (s : list char) : list char :=
  match s with
  | [] => []
  | c :: rest => if is_word c then c :: first_word rest else []
  end.

Fixpoint skip_word (s : list char) : list char :=
  match s with
  | [] => []
  | c :: rest => if is_word c then skip_word rest else s
  end.

End Levels.
End AnyText.

(** The alphabet of the other sections: the characters of a [string],
    with the classes of [Text]. *)
Definition chars (s : string) : list ascii := list_ascii_of_string s.

#[export] Instance ascii_alphabet : AnyText.Alphabet ascii :=
  {| AnyText.is_word := Text.is_word;
     AnyText.is_digit := Text.is_digit;
     AnyText.digit_value := fun c => (Text.code c - 48)%N |}.

Definition COLOR_MAP : gmap string string :=
  list_to_map [("k", "Black"); ("c", "Cyan"); ("m", "Magenta"); ("y", "Yellow")].

(** ** The alert engine: [build_low_alerts] *)

(** One attempt of [\blow\s+WORD\b] at the head of [s].  The greedy [\s+]
    takes every white-space character: [WORD] starts with a letter. *)
Definition match_low (word : string) (prev : option ascii) (s : string) : bool :=
  Text.boundary_before_word prev &&
  match Text.strip_prefix "low" s with
  | Some r =>
      let after_ws := Text.drop_while Text.is_space r in
      negb (String.eqb (Text.take_while Text.is_space r) "") &&
      match Text.strip_prefix word after_ws with
      | Some t => Text.boundary_after_word t
      | None => false
      end
  | None => false
  end.

(** [re.search(pattern, blob)] as a truth value. *)
Fixpoint search_low_from (word : string) (prev : option ascii) (s : string) : bool :=
  match_low word prev s ||
  match s with
  | EmptyString => false
  | String c rest => search_low_from word (Some c) rest
  end.

Definition search_low (word blob : string) : bool := search_low_from word None blob.

(** The rules of [keyword_rules]: the word of the pattern [\blow\s+WORD\b],
    the alert's item and its reason. *)
Definition keyword_rules : list (string * string * string) :=
  [ ("toner", "Toner", "status message reports low toner");
    ("ink", "Ink", "status message reports low ink");
    ("fuser", "Fuser", "status message reports low fuser") ].

Definition status_blob (record : PrinterRecord) : string :=
  Text.lower (status_message record +:+ " " +:+ printer_text record).

Definition dedupe_key : Type := string * string * string.

(** The state of the two accumulators [alerts] and [seen]. *)
Definition alert_state : Type := list LowAlert * gset dedupe_key.

(** [if dedupe not in seen: alerts.append(alert); seen.add(dedupe)] *)
Definition add_alert (dedupe : dedupe_key) (alert : LowAlert) (st : alert_state)
  : alert_state :=
  if decide (dedupe ∈ st.2) then st else (st.1 ++ [alert], {[dedupe]} ∪ st.2).

Definition mono_like (record : PrinterRecord) : bool :=
  let cmy_levels :=
    [levels record !! "toner_c"; levels record !! "toner_m"; levels record !! "toner_y"] in
  forallb (fun l => match l with Some v => (v =? 0)%Z | None => true end) cmy_levels
  && forallb (fun l => match l with Some _ => true | None => false end) cmy_levels.

Definition threshold_source (threshold : Z) : string :=
  "threshold <= " +:+ Text.str_of_Z threshold +:+ "%".

Definition toner_step (record : PrinterRecord) (toner_threshold : Z)
    (st : alert_state) (channel : string) : alert_state :=
  if mono_like record && bool_decide (channel ∈ ["c"; "m"; "y"]) then st
  else
    match levels record !! ("toner_" +:+ channel) with
    | Some lvl =>
        if (lvl <=? toner_threshold)%Z then
          let item := default "" (COLOR_MAP !! channel) +:+ " Toner" in
          add_alert (printer_id record, item, "level")
            {| alert_printer_id := printer_id record;
               alert_description := description record;
               item := item;
               level := Text.str_of_Z lvl +:+ "%";
               source := threshold_source toner_threshold |} st
        else st
    | None => st
    end.

Definition fuser_step (record : PrinterRecord) (fuser_threshold : Z)
    (st : alert_state) : alert_state :=
  match levels record !! "fuser" with
  | Some fuser =>
      if (fuser <=? fuser_threshold)%Z then
        add_alert (printer_id record, "Fuser", "level")
          {| alert_printer_id := printer_id record;
             alert_description := description record;
             item := "Fuser";
             level := Text.str_of_Z fuser +:+ "%";
             source := threshold_source fuser_threshold |} st
      else st
  | None => st
  end.

Definition keyword_step (record : PrinterRecord) (st : alert_state)
    (rule : string * string * string) : alert_state :=
  let '(word, item, reason) := rule in
  if search_low word (status_blob record) then
    add_alert (printer_id record, item, reason)
      {| alert_printer_id := printer_id record;
         alert_description := description record;
         item := item;
         level := "reported";
         source := reason |} st
  else st.

(** The body of [for record in records]. *)
Definition record_step (toner_threshold fuser_threshold : Z)
    (st : alert_state) (record : PrinterRecord) : alert_state :=
  let st := fold_left (toner_step record toner_threshold) ["k"; "c"; "m"; "y"] st in
  let st := fuser_step record fuser_threshold st in
  fold_left (keyword_step record) keyword_rules st.

(** The sort key [(alert.printer_id, alert.item)], compared as Python
    compares tuples of strings. *)
Definition alert_key_le (a b : LowAlert) : bool :=
  match String.compare (alert_printer_id a) (alert_printer_id b) with
  | Lt => true
  | Eq => String.leb (item a) (item b)
  | Gt => false
  end.

(** [sorted] is stable: of two alerts with equal keys the one appended
    first stays first. *)
Fixpoint insert_alert (a : LowAlert) (l : list LowAlert) : list LowAlert :=
  match l with
  | [] => [a]
  | b :: r => if alert_key_le a b then a :: l else b :: insert_alert a r
  end.

Definition sorted_alerts (l : list LowAlert) : list LowAlert :=
  fold_right insert_alert [] l.

Definition collect_alerts (records : list PrinterRecord)
    (toner_threshold fuser_threshold : Z) : alert_state :=
  fold_left (record_step toner_threshold fuser_threshold) records ([], ∅).

Definition build_low_alerts (records : list PrinterRecord)
    (toner_threshold fuser_threshold : Z) : list LowAlert :=
  sorted_alerts (collect_alerts records toner_threshold fuser_threshold).1.

(** ** Dictionaries in insertion order *)

(** A [dict] as the list of its [items()]; its keys are distinct
    ([dict_wf]). *)
Abbreviation odict V := (list (string * V)).

Definition dict_keys {V} (d : odict V) : list string := d.*1.

Definition dict_wf {V} (d : odict V) : Prop := NoDup (dict_keys d).

(** [d.get(key)] *)
Fixpoint dict_get {V} (key : string) (d : odict V) : option V :=
  match d with
  | [] => None
  | (k, v) :: r => if decide (k = key) then Some v else dict_get key r
  end.

(** [d[key] = v]: a key already present keeps its place. *)
Fixpoint dict_set {V} (key : string) (v : V) (d : odict V) : odict V :=
  match d with
  | [] => [(key, v)]
  | (k, w) :: r =>
      if decide (k = key) then (k, v) :: r else (k, w) :: dict_set key v r
  end.

(** What [d.pop(key, None)] leaves in [d]. *)
Fixpoint dict_remove {V} (key : string) (d : odict V) : odict V :=
  match d with
  | [] => []
  | (k, w) :: r => if decide (k = key) then r else (k, w) :: dict_remove key r
  end.

(** ** The persisted document and the state store *)

(** An open-tray entry and a history event are dictionaries from field
    names to strings. *)
Abbreviation entry := (gmap string string).
Abbreviation event := (gmap string string).

(** ** The snapshot builder: [build_current_empties] *)

Definition build_current_empties (records : list PrinterRecord) : odict entry :=
  fold_left
    (fun empties record =>
       fold_left
         (fun empties tray =>
            let key := printer_id record +:+ "::" +:+ tray in
            dict_set key
              (list_to_map
                 [ ("key", key);
                   ("printer_id", printer_id record);
                   ("description", description record);
                   ("tray", tray);
                   ("status_message", status_message record);
                   ("printer_text", printer_text record);
                   ("device_last_update", device_last_update record) ])
              empties)
         (empty_trays record) empties)
    records [].

(** A JSON value, for the fields of a loaded document the store never
    reads. *)
Inductive json :=
| JNull
| JBool (b : bool)
| JNumber (z : Z)
| JString (s : string)
| JArray (l : list json)
| JObject (l : list (string * json)).

(** [self.data]: a JSON object.  A document read from disk may lack any
    of the three keys the store uses ([None]) and may hold others
    ([other_fields]). *)
Record Document := {
  open_empty_trays : option (odict entry);
  events : option (list event);
  last_scan_at : option string;
  other_fields : gmap string json
}.

Definition empty_document : Document :=
  {| open_empty_trays := Some [];
     events := Some [];
     last_scan_at := Some "";
     other_fields := ∅ |}.

Definition MAX_EVENTS : nat := 20000.

(** The exceptions of the load path. *)
Inductive exn := JSONDecodeError | OSError | UnicodeDecodeError.

(** The file at [state_path]: missing, present but failing to open or
    read, or present with the bytes it holds. *)
Inductive file :=
| Absent
| Unreadable
| Content (bytes : list Byte.byte).

(** The [json] module on documents: [json_dumps d] is the text
    [json.dumps(d, indent=2)], and [json_loads] is [None] where
    [json.loads] raises [JSONDecodeError]. *)
Class JsonCodec := {
  json_dumps : Document -> string;
  json_loads : string -> option Document
}.

Record StateStore := {
  state_path : file;
  data : Document
}.

(** Strict UTF-8: the byte sequences [bytes.decode("utf-8")] accepts. *)
Definition continuation (b : N) : bool := (128 <=? b)%N && (b <=? 191)%N.

Definition lead3 (b0 b1 : N) : bool :=
  ((b0 =? 224)%N && (160 <=? b1)%N && (b1 <=? 191)%N)
  || ((225 <=? b0)%N && (b0 <=? 236)%N && continuation b1)
  || ((b0 =? 237)%N && (128 <=? b1)%N && (b1 <=? 159)%N)
  || ((238 <=? b0)%N && (b0 <=? 239)%N && continuation b1).

Definition lead4 (b0 b1 : N) : bool :=
  ((b0 =? 240)%N && (144 <=? b1)%N && (b1 <=? 191)%N)
  || ((241 <=? b0)%N && (b0 <=? 243)%N && continuation b1)
  || ((b0 =? 244)%N && (128 <=? b1)%N && (b1 <=? 143)%N).

Fixpoint utf8_valid (bs : list N) : bool :=
  match bs with
  | [] => true
  | b0 :: r0 =>
      if (b0 <? 128)%N then utf8_valid r0
      else
        match r0 with
        | [] => false
        | b1 :: r1 =>
            if (194 <=? b0)%N && (b0 <=? 223)%N then continuation b1 && utf8_valid r1
            else
              match r1 with
              | [] => false
              | b2 :: r2 =>
                  if lead3 b0 b1 then continuation b2 && utf8_valid r2
                  else
                    match r2 with
                    | [] => false
                    | b3 :: r3 =>
                        lead4 b0 b1 && continuation b2 && continuation b3
                        && utf8_valid r3
                    end
              end
        end
  end.

(** [state_path.read_text(encoding="utf-8")]; the text read is kept as the
    string of its UTF-8 bytes. *)
Definition read_text (f : file) : exn + string :=
  match f with
  | Absent | Unreadable => inl OSError
  | Content bytes =>
      if utf8_valid (map Byte.to_N bytes) then inr (string_of_list_byte bytes)
      else inl UnicodeDecodeError
  end.

(** [tmp_path.write_text(text, encoding="utf-8")] then
    [tmp_path.replace(state_path)], when both succeed. *)
Definition write_text (text : string) : file := Content (list_byte_of_string text).

Definition with_data (d : Document) (self : StateStore) : StateStore :=
  {| state_path := state_path self; data := d |}.

Section Store.
Context `{JsonCodec}.

(** The [try] block of [load]. *)
Definition read_document (f : file) : exn + Document :=
  match read_text f with
  | inl e => inl e
  | inr text =>
      match json_loads text with
      | Some d => inr d
      | None => inl JSONDecodeError
      end
  end.

(** [load]: nothing to do for a missing file; otherwise the document
    read, or the empty document when reading raised one of the two
    exceptions the [except] clause names.  Any other exception leaves
    [load]. *)
Definition load (self : StateStore) : exn + StateStore :=
  match state_path self with
  | Absent => inr self
  | f =>
      match read_document f with
      | inr d => inr (with_data d self)
      | inl JSONDecodeError | inl OSError => inr (with_data empty_document self)
      | inl e => inl e
      end
  end.

(** [StateStore(state_path)] *)
Definition __init__ (f : file) : exn + StateStore :=
  load {| state_path := f; data := empty_document |}.

(** [save]: the text goes to a temporary file that then replaces the
    state file. *)
Definition save (self : StateStore) : StateStore :=
  {| state_path := write_text (json_dumps (data self)); data := data self |}.

Definition get_open_empties (self : StateStore) : odict entry :=
  default [] (open_empty_trays (data self)).

Definition get_events (self : StateStore) : list event :=
  default [] (events (data self)).

Definition get_last_scan (self : StateStore) : string :=
  default "" (last_scan_at (data self)).

Definition set_events (l : list event) (self : StateStore) : StateStore :=
  with_data {| open_empty_trays := open_empty_trays (data self);
               events := Some l;
               last_scan_at := last_scan_at (data self);
               other_fields := other_fields (data self) |} self.

Definition set_open_empty_trays (d : odict entry) (self : StateStore) : StateStore :=
  with_data {| open_empty_trays := Some d;
               events := events (data self);
               last_scan_at := last_scan_at (data self);
               other_fields := other_fields (data self) |} self.

Definition set_last_scan_at (t : string) (self : StateStore) : StateStore :=
  with_data {| open_empty_trays := open_empty_trays (data self);
               events := events (data self);
               last_scan_at := Some t;
               other_fields := other_fields (data self) |} self.

Definition make_event (timestamp event_type : string) (item : entry) (note : string)
  : event :=
  list_to_map
    [ ("timestamp", timestamp);
      ("event_type", event_type);
      ("printer_id", default "" (item !! "printer_id"));
      ("description", default "" (item !! "description"));
      ("tray", default "" (item !! "tray"));
      ("empty_since", default "" (item !! "since"));
      ("last_seen", default "" (item !! "last_seen"));
      ("status_message", default "" (item !! "status_message"));
      ("printer_text", default "" (item !! "printer_text"));
      ("note", note) ].

Definition _append_event (timestamp event_type : string) (item : entry) (note : string)
    (self : StateStore) : StateStore :=
  set_events (get_events self ++ [make_event timestamp event_type item note]) self.

(** [events[-MAX_EVENTS:]] *)
Definition newest (cap : nat) (l : list event) : list event :=
  drop (length l - cap) l.

Definition _trim_events (self : StateStore) : StateStore :=
  let events := get_events self in
  if (MAX_EVENTS <? length events)%nat
  then set_events (newest MAX_EVENTS events) self
  else set_events events self.

Record changes := {
  new_empties : nat;
  new_filled : nat
}.

(** The body of [for key, item in current_empties.items()]; the state is
    [self], [open_after] and [added]. *)
Definition reconcile_current (previous : odict entry) (scan_time : string)
    (st : StateStore * odict entry * nat) (kv : string * entry)
  : StateStore * odict entry * nat :=
  let '(self, open_after, added) := st in
  let '(key, item) := kv in
  match dict_get key previous with
  | None =>
      let item := <["last_seen" := scan_time]> (<["since" := scan_time]> item) in
      (_append_event scan_time "empty" item "detected by monitor" self,
       dict_set key item open_after,
       S added)
  | Some prior =>
      let item :=
        <["last_seen" := scan_time]>
          (<["since" := default scan_time (prior !! "since")]> item) in
      (self, dict_set key item open_after, added)
  end.

(** The body of [for key, prior in previous.items()]; the state is [self]
    and [filled]. *)
Definition reconcile_previous (current_empties : odict entry) (scan_time : string)
    (st : StateStore * nat) (kv : string * entry) : StateStore * nat :=
  let '(self, filled) := st in
  let '(key, prior) := kv in
  match dict_get key current_empties with
  | None =>
      let resolved_item := <["last_seen" := scan_time]> prior in
      (_append_event scan_time "filled" resolved_item "no longer reported empty" self,
       S filled)
  | Some _ => (self, filled)
  end.

Definition reconcile (current_empties : odict entry) (scan_time : string)
    (self : StateStore) : changes * StateStore :=
  let previous := get_open_empties self in
  let '(self, open_after, added) :=
    fold_left (reconcile_current previous scan_time) current_empties (self, [], 0) in
  let '(self, filled) :=
    fold_left (reconcile_previous current_empties scan_time) previous (self, 0) in
  let self := set_open_empty_trays open_after self in
  let self := set_last_scan_at scan_time self in
  let self := _trim_events self in
  let self := save self in
  ({| new_empties := added; new_filled := filled |}, self).

Definition manual_mark_filled (tray_key timestamp : string) (self : StateStore)
  : bool * StateStore :=
  let current := get_open_empties self in
  match dict_get tray_key current with
  | None => (false, self)
  | Some item =>
      let current := dict_remove tray_key current in
      let item := <["last_seen" := timestamp]> item in
      let self := _append_event timestamp "filled" item "manually marked filled" self in
      let self := set_open_empty_trays current self in
      let self := set_last_scan_at timestamp self in
      let self := _trim_events self in
      let self := save self in
      (true, self)
  end.

End Store.

(** ** Vocabulary of the properties *)

(** The entry [reconcile] stores for [key]: [since] is the scan time for
    a key that was closed, the prior [since] for one that was open. *)
Definition stamped (previous : odict entry) (scan_time key : string) (item : entry)
  : entry :=
  match dict_get key previous with
  | None => <["last_seen" := scan_time]> (<["since" := scan_time]> item)
  | Some prior =>
      <["last_seen" := scan_time]>
        (<["since" := default scan_time (prior !! "since")]> item)
  end.

(** The event of the transition closed -> open of [key], if it makes it. *)
Definition detected_event (previous : odict entry) (scan_time key : string)
    (item : entry) : option event :=
  match dict_get key previous with
  | None =>
      Some (make_event scan_time "empty" (stamped previous scan_time key item)
              "detected by monitor")
  | Some _ => None
  end.

(** The event of the transition open -> closed of [key], if it makes it. *)
Definition filled_event (current_empties : odict entry) (scan_time key : string)
    (prior : entry) : option event :=
  match dict_get key current_empties with
  | None =>
      Some (make_event scan_time "filled" (<["last_seen" := scan_time]> prior)
              "no longer reported empty")
  | Some _ => None
  end.

(** The events of the entries of [d], in its order, each with its key. *)
Definition emitted (f : string -> entry -> option event) (d : odict entry)
  : list (string * event) :=
  flat_map (fun kv => match f kv.1 kv.2 with
                      | Some ev => [(kv.1, ev)]
                      | None => []
                      end) d.

(** The events one reconciliation appends, in the order it appends them,
    each with the key whose transition it records. *)
Definition reconcile_log (previous current_empties : odict entry) (scan_time : string)
  : list (string * event) :=
  emitted (detected_event previous scan_time) current_empties
  ++ emitted (filled_event current_empties scan_time) previous.

(** A run of reconciliations, one per scan [(snapshot, time)], and the
    logs of its calls. *)
Definition reconcile_all `{JsonCodec} (scans : list (odict entry * string))
    (self : StateStore) : StateStore :=
  fold_left (fun s scan => (reconcile scan.1 scan.2 s).2) scans self.

Fixpoint run_logs `{JsonCodec} (scans : list (odict entry * string))
    (self : StateStore) : list (list (string * event)) :=
  match scans with
  | [] => []
  | scan :: rest =>
      reconcile_log (get_open_empties self) scan.1 scan.2
      :: run_logs rest (reconcile scan.1 scan.2 self).2
  end.

(** The part of a log that records transitions of [key]. *)
Definition events_of (key : string) (log : list (string * event)) : list event :=
  (filter (fun kv => kv.1 = key) log).*2.

Definition known_type (ev : event) : Prop :=
  ev !! "event_type" = Some "empty" \/ ev !! "event_type" = Some "filled".

(** A token [\b\d{1,3}\b] is one to three digits. *)
Definition number_token (t : string) : Prop :=
  1 <= String.length t <= 3 /\ Text.all_chars Text.is_digit t = true.

(** The alert of a threshold rule and the alert of a keyword rule, as
    [build_low_alerts] constructs them. *)
Definition level_alert (record : PrinterRecord) (item : string) (lvl threshold : Z)
  : LowAlert :=
  {| alert_printer_id := printer_id record;
     alert_description := description record;
     item := item;
     level := Text.str_of_Z lvl +:+ "%";
     source := threshold_source threshold |}.

Definition keyword_alert (record : PrinterRecord) (item reason : string) : LowAlert :=
  {| alert_printer_id := printer_id record;
     alert_description := description record;
     item := item;
     level := "reported";
     source := reason |}.

(** What one record offers to the accumulators, rule by rule and in the
    order of the rules: each alert with its deduplication key. *)
Definition toner_candidate (record : PrinterRecord) (toner_threshold : Z)
    (channel : string) : list (dedupe_key * LowAlert) :=
  if mono_like record && bool_decide (channel ∈ ["c"; "m"; "y"]) then []
  else
    match levels record !! ("toner_" +:+ channel) with
    | Some lvl =>
        if (lvl <=? toner_threshold)%Z then
          let item := default "" (COLOR_MAP !! channel) +:+ " Toner" in
          [((printer_id record, item, "level"),
            level_alert record item lvl toner_threshold)]
        else []
    | None => []
    end.

Definition fuser_candidate (record : PrinterRecord) (fuser_threshold : Z)
  : list (dedupe_key * LowAlert) :=
  match levels record !! "fuser" with
  | Some fuser =>
      if (fuser <=? fuser_threshold)%Z then
        [((printer_id record, "Fuser", "level"),
          level_alert record "Fuser" fuser fuser_threshold)]
      else []
  | None => []
  end.

Definition keyword_candidate (record : PrinterRecord) (rule : string * string * string)
  : list (dedupe_key * LowAlert) :=
  if search_low rule.1.1 (status_blob record) then
    [((printer_id record, rule.1.2, rule.2), keyword_alert record rule.1.2 rule.2)]
  else [].

Definition candidates (toner_threshold fuser_threshold : Z) (record : PrinterRecord)
  : list (dedupe_key * LowAlert) :=
  flat_map (toner_candidate record toner_threshold) ["k"; "c"; "m"; "y"]
  ++ fuser_candidate record fuser_threshold
  ++ flat_map (keyword_candidate record) keyword_rules.

(** Offering a list of keyed alerts, one after the other. *)
Definition offers (s : list (dedupe_key * LowAlert)) (st : alert_state) : alert_state :=
  fold_left (fun st ka => add_alert ka.1 ka.2 st) s st.

(** Every keyed alert a record offers comes from one of the three
    rules. *)
Inductive candidate_of (toner_threshold fuser_threshold : Z) (r : PrinterRecord)
  : dedupe_key -> LowAlert -> Prop :=
| toner_rule channel lvl :
    channel ∈ ["k"; "c"; "m"; "y"] ->
    levels r !! ("toner_" +:+ channel) = Some lvl ->
    (lvl <= toner_threshold)%Z ->
    candidate_of toner_threshold fuser_threshold r
      (printer_id r, default "" (COLOR_MAP !! channel) +:+ " Toner", "level")
      (level_alert r (default "" (COLOR_MAP !! channel) +:+ " Toner") lvl
         toner_threshold)
| fuser_rule lvl :
    levels r !! "fuser" = Some lvl ->
    (lvl <= fuser_threshold)%Z ->
    candidate_of toner_threshold fuser_threshold r
      (printer_id r, "Fuser", "level") (level_alert r "Fuser" lvl fuser_threshold)
| keyword_rule word it reason :
    (word, it, reason) ∈ keyword_rules ->
    search_low word (status_blob r) = true ->
    candidate_of toner_threshold fuser_threshold r
      (printer_id r, it, reason) (keyword_alert r it reason).

Definition fuser_reason : string := "status message reports low fuser".

(** What a step of either loop leaves alone in the store. *)
Definition same_but_events (self self' : StateStore) : Prop :=
  state_path self' = state_path self
  /\ open_empty_trays (data self') = open_empty_trays (data self)
  /\ last_scan_at (data self') = last_scan_at (data self)
  /\ other_fields (data self') = other_fields (data self).

(** A codec for closed examples: what a document is written as has no
    part in the properties below. *)
Definition example_codec : JsonCodec :=
  {| json_dumps := fun _ => "{}"; json_loads := fun _ => None |}.

Definition fresh_store : StateStore :=
  {| state_path := Absent; data := empty_document |}.

(** Closed instances. *)
Definition tray2 : entry :=
  {[ "printer_id" := "12345"; "description" := "Library"; "tray" := "Tray 2" ]}.

Definition one_open : StateStore :=
  {| state_path := Absent;
     data := {| open_empty_trays := Some [("12345::Tray 2", tray2)];
                events := Some [];
                last_scan_at := Some "";
                other_fields := ∅ |} |}.

Definition mono_record : PrinterRecord :=
  {| printer_id := "12345";
     description := "Library";
     status_message := "Ready";
     printer_text := "none";
     device_last_update := "";
     row_tail := "";
     levels :=
       list_to_map
         [("toner_k", 5%Z); ("toner_c", 0%Z); ("toner_m", 0%Z); ("toner_y", 0%Z)];
     empty_trays := [] |}.

Definition mono_record_low_fuser : PrinterRecord :=
  {| printer_id := "12345";
     description := "Library";
     status_message := "Ready";
     printer_text := "none";
     device_last_update := "";
     row_tail := "";
     levels :=
       list_to_map
         [("toner_k", 5%Z); ("toner_c", 0%Z); ("toner_m", 0%Z); ("toner_y", 0%Z);
          ("fuser", 3%Z)];
     empty_trays := [] |}.

Definition fuser_record : PrinterRecord :=
  {| printer_id := "12345";
     description := "Library";
     status_message := "Low Fuser life";
     printer_text := "";
     device_last_update := "";
     row_tail := "";
     levels := list_to_map [("fuser", 12%Z)];
     empty_trays := [] |}.

Definition sample_tail : string :=
  "Library 3rd floor 01/02/03 04:05:06 100 99 98 97 96 95 94 93 92 91".


(** ** Vocabulary of the further properties *)

From Stdlib Require Import Sorted.

(** What makes the alert engine raise an alert for a record: a toner
    channel it checks at or below the toner threshold, the fuser at or
    below the fuser threshold, or a keyword rule matching the status
    text. *)
Inductive raised_by (toner_threshold fuser_threshold : Z) (r : PrinterRecord)
  : LowAlert -> Prop :=
| raised_toner channel lvl :
    channel ∈ ["k"; "c"; "m"; "y"] ->
    mono_like r = false \/ channel = "k" ->
    levels r !! ("toner_" +:+ channel) = Some lvl ->
    (lvl <= toner_threshold)%Z ->
    raised_by toner_threshold fuser_threshold r
      (level_alert r (default "" (COLOR_MAP !! channel) +:+ " Toner") lvl
         toner_threshold)
| raised_fuser lvl :
    levels r !! "fuser" = Some lvl ->
    (lvl <= fuser_threshold)%Z ->
    raised_by toner_threshold fuser_threshold r
      (level_alert r "Fuser" lvl fuser_threshold)
| raised_keyword word it reason :
    (word, it, reason) ∈ keyword_rules ->
    search_low word (status_blob r) = true ->
    raised_by toner_threshold fuser_threshold r (keyword_alert r it reason).

(** What tells two alerts of a result apart. *)
Definition alert_triple (a : LowAlert) : string * string * string :=
  (alert_printer_id a, item a, source a).

(** The source of the alerts raised under a deduplication key. *)
Definition source_of_key (toner_threshold fuser_threshold : Z) (k : dedupe_key)
  : string :=
  if decide (k.2 = "level") then
    if decide (k.1.2 = "Fuser") then threshold_source fuser_threshold
    else threshold_source toner_threshold
  else k.2.

Definition key_triple (toner_threshold fuser_threshold : Z) (k : dedupe_key)
  : string * string * string :=
  (k.1.1, k.1.2, source_of_key toner_threshold fuser_threshold k).

Definition rule_key (k : dedupe_key) : Prop :=
  k.2 = "level" \/ exists word it, (word, it, k.2) ∈ keyword_rules.

Definition alert_key_order (a b : LowAlert) : Prop := alert_key_le a b = true.

(** Text of the ASCII range, where the character classes of the
    embedding are those of Python. *)
Definition is_ascii (c : ascii) : bool := (Text.code c <? 128)%N.

Definition ascii_text (s : string) : Prop := Text.all_chars is_ascii s = true.

(** The digits [normalize_tray] hands to [int], if it does. *)
Definition tray_number (value : string) : option string :=
  let token := tray_token value in
  if Text.isdigit token then Some token
  else
    match Text.strip_prefix "TRAY" token with
    | Some rest => if Text.isdigit rest then Some rest else None
    | None => None
    end.

(** The label of a named tray: "Tray " and a name. *)
Definition named_tray (label : string) : Prop :=
  exists name, name <> "" /\ label = "Tray " +:+ name.

(** A text of [n] times the character [c]. *)
Fixpoint repeated (n : nat) (c : ascii) : string :=
  match n with
  | O => EmptyString
  | S n' => String c (repeated n' c)
  end.

(** ** Regular expressions: the fragment of [re] the parser uses *)

(** A pattern.  [Star] is the greedy [*]; the greedy [+], [?] and [{m,n}]
    are written with it and with [Alt], whose left branch is tried
    first. *)
Inductive regex :=
| Eps
| Chr (c : ascii)
| Cls (p : ascii -> bool)
| Bnd
| Bol
| Eol
| Seq (r1 r2 : regex)
| Alt (r1 r2 : regex)
| Star (r : regex)
| Grp (r : regex).

(** [r1 r2 ... rn] *)
Definition Cat (l : list regex) : regex := fold_right Seq Eps l.

(** A literal text. *)
Fixpoint Str (s : string) : regex :=
  match s with
  | EmptyString => Eps
  | String c r => Seq (Chr c) (Str r)
  end.

(** [r+] *)
Definition Plus (r : regex) : regex := Seq r (Star r).

(** [r?] *)
Definition Opt (r : regex) : regex := Alt r Eps.

(** [r{n}] *)
Fixpoint Rep (n : nat) (r : regex) : regex :=
  match n with
  | O => Eps
  | S n' => Seq r (Rep n' r)
  end.

(** [r{1,3}] *)
Definition UpTo3 (r : regex) : regex := Seq r (Opt (Seq r (Opt r))).

(** Where a match stands: the character before the position ([None] at
    the start of the text), the text from the position on, and the
    groups closed so far, in the order of their closing. *)
Record cursor := {
  before : option ascii;
  ahead : string;
  groups : list string
}.

Definition advance (x : ascii) (s : string) (cur : cursor) : cursor :=
  {| before := Some x; ahead := s; groups := groups cur |}.

(** The text between two positions of a match, as a group records it. *)
Definition consumed (from to : cursor) : string :=
  String.substring 0 (String.length (ahead from) - String.length (ahead to)) (ahead from).

Definition capture (from to : cursor) : cursor :=
  {| before := before to; ahead := ahead to;
     groups := groups to ++ [consumed from to] |}.

Definition newline : ascii := ascii_of_N 10.

Section Engine.

(** [flags=re.IGNORECASE] *)
Variable ignorecase : bool.

Definition same_char (c x : ascii) : bool :=
  if ignorecase then Ascii.eqb (Text.lower_char c) (Text.lower_char x)
  else Ascii.eqb c x.

Definition in_class (p : ascii -> bool) (x : ascii) : bool :=
  if ignorecase then p x || p (Text.lower_char x) || p (Text.upper_char x)
  else p x.

(** [\b]: a word character on exactly one side. *)
Definition at_boundary (cur : cursor) : bool :=
  xorb (match before cur with Some c => Text.is_word c | None => false end)
       (match ahead cur with String c _ => Text.is_word c | EmptyString => false end).

(** [$]: the end of the text, or the line feed that ends it. *)
Definition at_end (cur : cursor) : bool :=
  match ahead cur with
  | EmptyString => true
  | String c EmptyString => Ascii.eqb c newline
  | _ => false
  end.

(** The backtracking matcher: [run r cur k] matches [r] at [cur] and
    hands the position reached to [k]; when [k] fails there, the next
    way of matching [r] is tried.  A repetition goes on as long as its
    body consumes text, and tries one more round before it tries to
    stop. *)
Fixpoint run {A} (r : regex) (cur : cursor) (k : cursor -> option A) : option A :=
  match r with
  | Eps => k cur
  | Chr c =>
      match ahead cur with
      | String x s => if same_char c x then k (advance x s cur) else None
      | EmptyString => None
      end
  | Cls p =>
      match ahead cur with
      | String x s => if in_class p x then k (advance x s cur) else None
      | EmptyString => None
      end
  | Bnd => if at_boundary cur then k cur else None
  | Bol => match before cur with None => k cur | Some _ => None end
  | Eol => if at_end cur then k cur else None
  | Seq r1 r2 => run r1 cur (fun mid => run r2 mid k)
  | Alt r1 r2 =>
      match run r1 cur k with
      | Some a => Some a
      | None => run r2 cur k
      end
  | Star r1 =>
      (fix rounds (fuel : nat) (cur : cursor) : option A :=
         match fuel with
         | O => k cur
         | S fuel' =>
             match
               run r1 cur (fun next =>
                 if (String.length (ahead next) <? String.length (ahead cur))%nat
                 then rounds fuel' next else None)
             with
             | Some a => Some a
             | None => k cur
             end
         end) (String.length (ahead cur)) cur
  | Grp r1 => run r1 cur (fun to => k (capture cur to))
  end.

(** One attempt at a position: the groups of the match and the text
    after it. *)
Definition attempt (r : regex) (prev : option ascii) (s : string)
  : option (list string * string) :=
  run r {| before := prev; ahead := s; groups := [] |}
    (fun to => Some (groups to, ahead to)).

(** [pattern.match(s)]: the groups of a match at the start of [s]. *)
Definition re_match (r : regex) (s : string) : option (list string) :=
  fst <$> attempt r None s.

(** [re.search]: the leftmost position where an attempt succeeds, as the
    text before the match and the groups of the match. *)
Fixpoint search_from (r : regex) (prev : option ascii) (s : string)
  : option (string * list string) :=
  match attempt r prev s with
  | Some (gs, _) => Some (EmptyString, gs)
  | None =>
      match s with
      | EmptyString => None
      | String c rest =>
          match search_from r (Some c) rest with
          | Some (skipped, gs) => Some (String c skipped, gs)
          | None => None
          end
      end
  end.

Definition re_search (r : regex) (s : string) : option (list string) :=
  snd <$> search_from r None s.

(** [re.split(r, s, maxsplit=1)[0]] for a pattern that matches no empty
    text: what stands before the first match, all of [s] without one. *)
Definition split_first (r : regex) (s : string) : string :=
  match search_from r None s with
  | Some (skipped, _) => skipped
  | None => s
  end.

(** [re.finditer]: the groups of the successive matches, each search
    starting where the last match ended ([skip] counts the characters of
    that match still to pass).  The patterns it is used with match no
    empty text. *)
Fixpoint finditer_from (r : regex) (skip : nat) (prev : option ascii) (s : string)
  : list (list string) :=
  match s with
  | EmptyString => []
  | String c rest =>
      match skip with
      | S k => finditer_from r k (Some c) rest
      | O =>
          match attempt r prev s with
          | Some (gs, after) =>
              gs :: finditer_from r (String.length s - String.length after - 1)
                      (Some c) rest
          | None => finditer_from r 0 (Some c) rest
          end
      end
  end.

Definition re_finditer (r : regex) (s : string) : list (list string) :=
  finditer_from r 0 None s.

End Engine.

(** [m.group(i)]: every group of the patterns below takes part in every
    match, and the groups close in the order of their numbers. *)
Definition group (i : nat) (gs : list string) : string := nth (i - 1) gs "".

Definition digit : regex := Cls Text.is_digit.
Definition space : regex := Cls Text.is_space.

(** [.] *)
Definition any_char : regex := Cls (fun c => negb (Ascii.eqb c newline)).

(** [[A-Za-z0-9-]] *)
Definition token_char : regex := Cls keeps_in_token.

(** ** More text primitives *)

(** [s.rstrip()], [s.lstrip()] and [s.strip()] *)
Fixpoint rstrip (s : string) : string :=
  match s with
  | EmptyString => EmptyString
  | String c r =>
      let r' := rstrip r in
      if Text.is_space c && String.eqb r' "" then EmptyString else String c r'
  end.

Definition lstrip (s : string) : string := Text.drop_while Text.is_space s.

Definition strip (s : string) : string := rstrip (lstrip s).

(** [s.startswith(p)] *)
Definition startswith (p s : string) : bool :=
  match Text.strip_prefix p s with Some _ => true | None => false end.

(** [s.split(sep, 1)] for a separator of one character. *)
Fixpoint split_once (sep : ascii) (s : string) : list string :=
  match s with
  | EmptyString => [EmptyString]
  | String c r =>
      if Ascii.eqb c sep then [EmptyString; r]
      else
        match split_once sep r with
        | first :: others => String c first :: others
        | [] => []
        end
  end.

(** [sep.join(values)] *)
Fixpoint join (sep : string) (values : list string) : string :=
  match values with
  | [] => EmptyString
  | [v] => v
  | v :: others => v +:+ sep +:+ join sep others
  end.

(** ** Empty trays in a status text: [detect_empty_trays] *)

Definition tray_state_pattern : regex :=
  Cat [ Bnd; Str "tray"; Star space; Grp (Plus token_char); Star space;
        Opt (Seq (Str "is") (Star space));
        Alt (Str "empty") (Alt (Str "out") (Cat [Str "no"; Plus space; Str "paper"]));
        Bnd ].

Definition paper_out_pattern : regex :=
  Cat [ Bnd; Str "paper"; Star space; Str "out"; Star space;
        Opt (Seq (Str "in") (Star space));
        Str "tray"; Star space; Grp (Plus token_char); Bnd ].

Definition state_tray_pattern : regex :=
  Cat [ Bnd; Alt (Str "empty") (Str "out"); Star space; Str "tray"; Star space;
        Grp (Plus token_char); Bnd ].

Definition patterns : list regex :=
  [tray_state_pattern; paper_out_pattern; state_tray_pattern].

Definition unnamed_pattern : regex :=
  Cat [ Bnd; Grp (Alt (Str "paper out") (Str "tray empty")); Bnd ].

(** [sorted] on strings, which Python compares by code points. *)
Fixpoint insert_label (a : string) (l : list string) : list string :=
  match l with
  | [] => [a]
  | b :: r => if String.leb a b then a :: l else b :: insert_label a r
  end.

Definition sorted_labels (l : list string) : list string :=
  fold_right insert_label [] l.

(** [for match in re.finditer(...): trays.add(normalize_tray(...))]: the
    first label that cannot be made ends the loop. *)
Fixpoint add_trays (found : list (list string)) (trays : gset string)
  : parse_error + gset string :=
  match found with
  | [] => inr trays
  | m :: rest =>
      match normalize_tray (group 1 m) with
      | inr label => add_trays rest ({[ label ]} ∪ trays)
      | inl e => inl e
      end
  end.

(** [for pattern in patterns: ...] *)
Fixpoint scan_patterns (ps : list regex) (text : string) (trays : gset string)
  : parse_error + gset string :=
  match ps with
  | [] => inr trays
  | pattern :: rest =>
      match add_trays (re_finditer true pattern text) trays with
      | inr trays => scan_patterns rest text trays
      | inl e => inl e
      end
  end.

Definition found_trays (text : string) : parse_error + gset string :=
  scan_patterns patterns text ∅.

Definition detect_empty_trays (text : string) : parse_error + list string :=
  match found_trays text with
  | inr trays =>
      let trays :=
        if decide (trays = ∅) then
          match re_search true unnamed_pattern text with
          | Some _ => {[ "Unknown Tray" ]} ∪ trays
          | None => trays
          end
        else trays in
      inr (sorted_labels (elements trays))
  | inl e => inl e
  end.

(** ** Records from the lines of a page: [parse_monitor_page] *)

Definition timestamp_pattern : regex :=
  Cat [ Bnd; Rep 2 digit; Chr "/"; Rep 2 digit; Chr "/"; Rep 2 digit; Plus space;
        Rep 2 digit; Chr ":"; Rep 2 digit; Chr ":"; Rep 2 digit; Bnd ].

Definition id_pattern : regex :=
  Cat [ Bol; Grp (Rep 5 digit); Bnd; Grp (Star any_char); Eol ].

Definition fuser_pattern : regex :=
  Cat [ Str "fuser:"; Star space; Grp (UpTo3 digit); Chr "%" ].

Definition belt_pattern : regex :=
  Cat [ Str "belt:"; Star space; Grp (UpTo3 digit); Chr "%" ].

Definition finalize_record (record : PrinterRecord) : parse_error + PrinterRecord :=
  let description :=
    if String.eqb (description record) "" then
      let description_guess := strip (split_first false timestamp_pattern (row_tail record)) in
      if String.eqb description_guess "" then "Printer " +:+ printer_id record
      else description_guess
    else description record in
  let combined_text :=
    join " "
      (filter
         (fun value =>
            value <> "" /\ Text.lower value ∉ ["none"; "n/a"])
         [status_message record; printer_text record; row_tail record]) in
  match detect_empty_trays combined_text with
  | inr trays =>
      inr {| printer_id := printer_id record;
             description := description;
             status_message := status_message record;
             printer_text := printer_text record;
             device_last_update := device_last_update record;
             row_tail := row_tail record;
             levels := levels record;
             empty_trays := trays |}
  | inl e => inl e
  end.

(** [PrinterRecord(printer_id=..., row_tail=..., levels=...,
    device_last_update=...)] *)
Definition new_record (id tail : string) : PrinterRecord :=
  let '(levels, last_update) := parse_tail_metrics tail in
  {| printer_id := id;
     description := "";
     status_message := "";
     printer_text := "";
     device_last_update := last_update;
     row_tail := tail;
     levels := levels;
     empty_trays := [] |}.

Definition with_description (value : string) (record : PrinterRecord) : PrinterRecord :=
  {| printer_id := printer_id record;
     description := value;
     status_message := status_message record;
     printer_text := printer_text record;
     device_last_update := device_last_update record;
     row_tail := row_tail record;
     levels := levels record;
     empty_trays := empty_trays record |}.

Definition with_status_message (value : string) (record : PrinterRecord) : PrinterRecord :=
  {| printer_id := printer_id record;
     description := description record;
     status_message := value;
     printer_text := printer_text record;
     device_last_update := device_last_update record;
     row_tail := row_tail record;
     levels := levels record;
     empty_trays := empty_trays record |}.

Definition with_printer_text (value : string) (record : PrinterRecord) : PrinterRecord :=
  {| printer_id := printer_id record;
     description := description record;
     status_message := status_message record;
     printer_text := value;
     device_last_update := device_last_update record;
     row_tail := row_tail record;
     levels := levels record;
     empty_trays := empty_trays record |}.

(** [record.levels[key] = value] *)
Definition with_level (key : string) (value : Z) (record : PrinterRecord) : PrinterRecord :=
  {| printer_id := printer_id record;
     description := description record;
     status_message := status_message record;
     printer_text := printer_text record;
     device_last_update := device_last_update record;
     row_tail := row_tail record;
     levels := <[key := value]> (levels record);
     empty_trays := empty_trays record |}.

(** [line.split(":", 1)[1].strip()] *)
Definition field_value (line : string) : parse_error + string :=
  match split_once ":" line !! 1 with
  | Some value => inr (strip value)
  | None => inl IndexError
  end.

(** The state of the loop: [records] and [current]. *)
Definition parse_state : Type := list PrinterRecord * option PrinterRecord.

(** [finalize_record(current); records.append(current)], when there is a
    current record. *)
Definition close_current (st : parse_state) : parse_error + list PrinterRecord :=
  match st.2 with
  | Some current =>
      match finalize_record current with
      | inr finished => inr (st.1 ++ [finished])
      | inl e => inl e
      end
  | None => inr st.1
  end.

(** The body of the [elif lowered.startswith("fuser:")] branch; the
    group has at most three digits, which [int] never refuses. *)
Definition read_fuser_line (line : string) (current : PrinterRecord) : PrinterRecord :=
  let current :=
    match re_search true fuser_pattern line with
    | Some m => with_level "fuser" (Z.of_N (Text.int_of (group 1 m))) current
    | None => current
    end in
  match re_search true belt_pattern line with
  | Some m => with_level "belt" (Z.of_N (Text.int_of (group 1 m))) current
  | None => current
  end.

(** The body of [for line in lines]. *)
Definition parse_line (st : parse_state) (line : string) : parse_error + parse_state :=
  match re_match false id_pattern line with
  | Some m =>
      match close_current st with
      | inr records => inr (records, Some (new_record (group 1 m) (strip (group 2 m))))
      | inl e => inl e
      end
  | None =>
      match st.2 with
      | None => inr st
      | Some current =>
          let lowered := Text.lower line in
          if startswith "description:" lowered then
            match field_value line with
            | inr value => inr (st.1, Some (with_description value current))
            | inl e => inl e
            end
          else if startswith "status message:" lowered then
            match field_value line with
            | inr value => inr (st.1, Some (with_status_message value current))
            | inl e => inl e
            end
          else if startswith "printer text:" lowered then
            match field_value line with
            | inr value => inr (st.1, Some (with_printer_text value current))
            | inl e => inl e
            end
          else if startswith "fuser:" lowered then
            inr (st.1, Some (read_fuser_line line current))
          else inr st
      end
  end.

Fixpoint parse_loop (st : parse_state) (lines : list string) : parse_error + parse_state :=
  match lines with
  | [] => inr st
  | line :: rest =>
      match parse_line st line with
      | inr st' => parse_loop st' rest
      | inl e => inl e
      end
  end.

(** [parse_monitor_page] from the lines of the page on. *)
Definition parse_lines (lines : list string) : parse_error + list PrinterRecord :=
  match parse_loop ([], None) lines with
  | inr st =>
      match close_current st with
      | inr records =>
          inr (filter (fun record => Text.isdigit (printer_id record) = true) records)
      | inl e => inl e
      end
  | inl e => inl e
  end.

(** ** Vocabulary of the parsing properties *)

(** What a match of a pattern is: [matches ic r from to] holds when [r]
    can take the position [from] to the position [to]. *)
Inductive matches (ic : bool) : regex -> cursor -> cursor -> Prop :=
| matches_eps cur : matches ic Eps cur cur
| matches_chr c x s cur :
    ahead cur = String x s -> same_char ic c x = true ->
    matches ic (Chr c) cur (advance x s cur)
| matches_cls p x s cur :
    ahead cur = String x s -> in_class ic p x = true ->
    matches ic (Cls p) cur (advance x s cur)
| matches_bnd cur : at_boundary cur = true -> matches ic Bnd cur cur
| matches_bol cur : before cur = None -> matches ic Bol cur cur
| matches_eol cur : at_end cur = true -> matches ic Eol cur cur
| matches_seq r1 r2 from mid to :
    matches ic r1 from mid -> matches ic r2 mid to -> matches ic (Seq r1 r2) from to
| matches_alt_l r1 r2 from to : matches ic r1 from to -> matches ic (Alt r1 r2) from to
| matches_alt_r r1 r2 from to : matches ic r2 from to -> matches ic (Alt r1 r2) from to
| matches_star_stop r cur : matches ic (Star r) cur cur
| matches_star_more r from mid to :
    matches ic r from mid -> matches ic (Star r) mid to -> matches ic (Star r) from to
| matches_grp r from to : matches ic r from to -> matches ic (Grp r) from (capture from to).

(** A pattern without a group. *)
Fixpoint group_free (r : regex) : bool :=
  match r with
  | Seq r1 r2 | Alt r1 r2 => group_free r1 && group_free r2
  | Star r1 => group_free r1
  | Grp _ => false
  | _ => true
  end.

Definition label_order (a b : string) : Prop := String.ltb a b = true.

(** A printer id as the page gives it: five digits. *)
Definition five_digits (id : string) : Prop :=
  String.length id = 5 /\ Text.all_chars Text.is_digit id = true.

(** A line that opens a record. *)
Definition id_line (line : string) : bool :=
  match re_match false id_pattern line with Some _ => true | None => false end.

(** A pattern whose only group is [body], standing after group-free
    parts and before a group-free rest. *)
Inductive captures_one (body : regex) : regex -> Prop :=
| captures_here post :
    group_free post = true -> captures_one body (Seq (Grp body) post)
| captures_later pre rest :
    group_free pre = true -> captures_one body rest ->
    captures_one body (Seq pre rest).

(** The levels a record can hold: the ten keys only, toner and drum
    levels up to 100, belt and fuser up to 999. *)
Definition levels_ok (found : gmap string Z) : Prop :=
  forall key v, found !! key = Some v ->
    key ∈ level_keys /\ (0 <= v <= 999)%Z
    /\ (key <> "fuser" -> key <> "belt" -> (v <= 100)%Z).

(** What holds of the record the loop is filling, and of a record it has
    finished. *)
Definition open_record_ok (record : PrinterRecord) : Prop :=
  five_digits (printer_id record) /\ levels_ok (levels record).

Definition trays_ok (trays : list string) : Prop :=
  Sorted label_order trays
  /\ forall label, label ∈ trays -> label = "Unknown Tray" \/ named_tray label.

Definition record_ok (record : PrinterRecord) : Prop :=
  open_record_ok record /\ description record <> "" /\ trays_ok (empty_trays record).

(** The ids of the records of a state of the loop, the one it fills
    last. *)
Definition state_ids (st : parse_state) : list string :=
  (printer_id <$> st.1) ++ match st.2 with Some current => [printer_id current] | None => [] end.

(** The state of the loop after records that were finished before it. *)
Definition after_records (pre : list PrinterRecord) (st : parse_state) : parse_state :=
  (pre ++ st.1, st.2).

(** The fields [finalize_record] looks for trays in are no longer than
    [bound]. *)
Definition short_fields (bound : nat) (record : PrinterRecord) : Prop :=
  String.length (status_message record) <= bound
  /\ String.length (printer_text record) <= bound
  /\ String.length (row_tail record) <= bound.

(** The loop keeps the record it fills and the records it has finished
    as they should be. *)
Definition state_ok (st : parse_state) : Prop :=
  Forall record_ok st.1 /\ forall current, st.2 = Some current -> open_record_ok current.

(** ** The refresh and the manual resolution of the application *)

(** The entry [build_current_empties] makes for a tray of a record. *)
Definition snapshot_key (record : PrinterRecord) (tray : string) : string :=
  printer_id record +:+ "::" +:+ tray.

Definition snapshot_entry (record : PrinterRecord) (tray : string) : entry :=
  list_to_map
    [ ("key", snapshot_key record tray);
      ("printer_id", printer_id record);
      ("description", description record);
      ("tray", tray);
      ("status_message", status_message record);
      ("printer_text", printer_text record);
      ("device_last_update", device_last_update record) ].

(** What [fetch_html] gives [_refresh_worker]: the page, or an exception
    with its text ([str(exc)]). *)
Inductive response :=
| page (html : string)
| url_error (text : string)
| other_error (text : string).

(** The payload of a refresh. *)
Record payload := {
  payload_scan_time : string;
  payload_records : list PrinterRecord;
  payload_low_alerts : list LowAlert;
  payload_open_empties : odict entry;
  payload_events : list event;
  payload_changes : changes
}.

(** Why a refresh fails: the exception [_refresh_worker] catches, with
    its text where the raiser gives one.  The message [_refresh_error]
    is told is that text, after "Network error: " for a [URLError];
    [no_rows] is the [ValueError] the worker raises itself, saying that no
    printer rows were parsed. *)
Inductive failure :=
| network_error (text : string)
| fetch_error (text : string)
| parse_raised (e : parse_error)
| no_rows
| save_raised (text : string).

(** What the worker schedules: [_apply_refresh(payload)] or
    [_refresh_error(message)]. *)
Inductive refresh_result :=
| refresh_applied (p : payload)
| refresh_failed (cause : failure).

(** What becomes of the write in [save]: it succeeds, or the write or
    the replacement of the state file raises an exception with this
    text. *)
Inductive write_outcome :=
| written
| write_raises (text : string).

(** The fields of [PrinterMonitorApp] that a refresh and a manual
    resolution read and write. *)
Record App := {
  state_store : StateStore;
  app_records : list PrinterRecord;
  app_low_alerts : list LowAlert;
  app_open_empties : odict entry;
  app_events : list event;
  status : string
}.

(** The iid [_refresh_empty_tree] gives the row of an open tray. *)
Definition row_iid (row : entry) : string :=
  default (default "" (row !! "printer_id") +:+ "::" +:+ default "" (row !! "tray"))
    (row !! "key").

Section Application.
Context `{JsonCodec}.

(** [html_to_lines], which [parse_monitor_page] starts with. *)
Variable html_to_lines : string -> list string.

Definition parse_monitor_page (html : string) : parse_error + list PrinterRecord :=
  parse_lines (html_to_lines html).

(** [reconcile] where [save] raises: [self.data] is reconciled, and the
    state file is the one there was. *)
Definition unsaved (reconciled self : StateStore) : StateStore :=
  {| state_path := state_path self; data := data reconciled |}.

(** [_refresh_worker] from the response of [fetch_html] on; [now] is
    what [now_iso()] returns after the page is parsed, [disk] what
    becomes of the write in [reconcile]. *)
Definition _refresh_worker (fetched : response) (toner_threshold fuser_threshold : Z)
    (now : string) (disk : write_outcome) (store : StateStore)
  : refresh_result * StateStore :=
  match fetched with
  | url_error text => (refresh_failed (network_error text), store)
  | other_error text => (refresh_failed (fetch_error text), store)
  | page html =>
      match parse_monitor_page html with
      | inl e => (refresh_failed (parse_raised e), store)
      | inr [] => (refresh_failed no_rows, store)
      | inr records =>
          let low_alerts := build_low_alerts records toner_threshold fuser_threshold in
          let current_empties := build_current_empties records in
          let scan_time := now in
          let '(changes, reconciled) := reconcile current_empties scan_time store in
          match disk with
          | written =>
              (refresh_applied
                 {| payload_scan_time := scan_time;
                    payload_records := records;
                    payload_low_alerts := low_alerts;
                    payload_open_empties := get_open_empties reconciled;
                    payload_events := get_events reconciled;
                    payload_changes := changes |},
               reconciled)
          | write_raises text =>
              (refresh_failed (save_raised text), unsaved reconciled store)
          end
      end
  end.

(** [_apply_refresh], less the widgets it redraws. *)
Definition _apply_refresh (p : payload) (app : App) : App :=
  {| state_store := state_store app;
     app_records := payload_records p;
     app_low_alerts := payload_low_alerts p;
     app_open_empties := payload_open_empties p;
     app_events := payload_events p;
     status :=
       "Refresh complete. New empties: " +:+ Text.str_of_N (N.of_nat (new_empties (payload_changes p)))
       +:+ " | Marked filled: " +:+ Text.str_of_N (N.of_nat (new_filled (payload_changes p))) |}.

(** [_selected_tray]: [selection] is [self.empty_tree.selection()]. *)
Definition _selected_tray (selection : list string) (app : App) : option entry :=
  match selection with
  | [] => None
  | key :: _ => dict_get key (app_open_empties app)
  end.

(** [mark_selected_filled]: [answer] is what the user answers to
    [messagebox.askyesno], [now] what [now_iso()] returns. *)
Definition mark_selected_filled (selection : list string) (answer : bool)
    (now : string) (app : App) : App :=
  match _selected_tray selection app with
  | None => app
  | Some tray =>
      if answer then
        let key := default "" (tray !! "key") in
        let timestamp := now in
        let '(updated, store) := manual_mark_filled key timestamp (state_store app) in
        if updated then
          {| state_store := store;
             app_records := app_records app;
             app_low_alerts := app_low_alerts app;
             app_open_empties := get_open_empties store;
             app_events := get_events store;
             status := "Tray marked filled manually." |}
        else
          {| state_store := store;
             app_records := app_records app;
             app_low_alerts := app_low_alerts app;
             app_open_empties := app_open_empties app;
             app_events := app_events app;
             status := "Tray was already resolved." |}
      else app
  end.

End Application.

(** ** Vocabulary of the application properties *)

(** Every entry carries, in its field "key", the key it is stored
    under. *)
Definition keyed (d : odict entry) : Prop :=
  forall key (e : entry), dict_get key d = Some e -> e !! "key" = Some key.

(** The list of open trays the window shows is the open set of the
    store. *)
Definition in_sync (app : App) : Prop :=
  app_open_empties app = get_open_empties (state_store app)
  /\ dict_wf (app_open_empties app)
  /\ keyed (app_open_empties app).

(** Closed instances. *)
Definition sample_lines : list string :=
  [ "Printer status page";
    "12345 Library 2nd floor";
    "Status Message: Tray 2 is empty";
    "Fuser: 85% Belt: 90%" ].

Definition sample_parsed : PrinterRecord :=
  {| printer_id := "12345";
     description := "Library 2nd floor";
     status_message := "Tray 2 is empty";
     printer_text := "";
     device_last_update := "";
     row_tail := "Library 2nd floor";
     levels := <["belt" := 90%Z]> (<["fuser" := 85%Z]> ∅);
     empty_trays := ["Tray 2"] |}.

(** A page whose record reports a tray numbered with 4301 digits. *)
Definition long_number_lines : list string :=
  [ "12345 Library 2nd floor";
    "Status Message: Tray " +:+ repeated 4301 "7" +:+ " is empty" ].

Definition keyed_tray2 : entry := <["key" := "12345::Tray 2"]> tray2.

Definition sample_app : App :=
  {| state_store :=
       {| state_path := Absent;
          data := {| open_empty_trays := Some [("12345::Tray 2", keyed_tray2)];
                     events := Some [];
                     last_scan_at := Some "";
                     other_fields := ∅ |} |};
     app_records := [];
     app_low_alerts := [];
     app_open_empties := [("12345::Tray 2", keyed_tray2)];
     app_events := [];
     status := "" |}.
(** * Properties *)

(** ** Dictionaries *)

Section Dict.
Context {V : Type}.
Implicit Types (d : odict V) (k key : string) (v : V).

Lemma dict_get_None key d : dict_get key d = None <-> key ∉ dict_keys d.
Proof.
  induction d as [|[k v] d IH]; simpl.
  - split; [intros _; apply not_elem_of_nil | done].
  - case_decide as Hk; subst.
    + split; [done | intros []; apply elem_of_cons; by left].
    + rewrite IH. unfold dict_keys. simpl. rewrite not_elem_of_cons. intuition.
Qed.

Lemma dict_get_Some_elem key v d : dict_get key d = Some v -> (key, v) ∈ d.
Proof.
  induction d as [|[k w] d IH]; simpl; [done|].
  case_decide; subst.
  - intros [= ->]. apply elem_of_cons; by left.
  - intros ?. apply elem_of_cons; right; auto.
Qed.

Lemma dict_get_elem key v d : dict_wf d -> (key, v) ∈ d -> dict_get key d = Some v.
Proof.
  unfold dict_wf, dict_keys.
  induction d as [|[k w] d IH]; simpl; intros Hwf Hin.
  - by apply elem_of_nil in Hin.
  - apply NoDup_cons in Hwf as [Hk Hwf]. apply elem_of_cons in Hin as [Heq|Hin].
    + injection Heq as -> ->. by rewrite decide_True.
    + case_decide; subst.
      * exfalso. apply Hk. apply list_elem_of_fmap. by exists (key, v).
      * auto.
Qed.

Lemma dict_set_fresh key v d :
  dict_get key d = None -> dict_set key v d = d ++ [(key, v)].
Proof.
  induction d as [|[k w] d IH]; simpl; [done|].
  case_decide; [done|]. intros ?. by rewrite IH.
Qed.

Lemma dict_get_app key d1 d2 :
  dict_get key (d1 ++ d2) =
  match dict_get key d1 with Some v => Some v | None => dict_get key d2 end.
Proof.
  induction d1 as [|[k w] d1 IH]; simpl; [done|]. by case_decide.
Qed.

Lemma dict_get_remove_eq key d : dict_wf d -> dict_get key (dict_remove key d) = None.
Proof.
  unfold dict_wf, dict_keys.
  induction d as [|[k w] d IH]; simpl; intros Hwf; [done|].
  apply NoDup_cons in Hwf as [Hk Hwf]. case_decide; subst.
  - by apply dict_get_None.
  - simpl. rewrite decide_False by done. auto.
Qed.

Lemma dict_get_remove_ne key k d : k <> key -> dict_get k (dict_remove key d) = dict_get k d.
Proof.
  intros Hne. induction d as [|[k' w] d IH]; simpl; [done|].
  case_decide; subst.
  - by rewrite decide_False.
  - simpl. by rewrite IH.
Qed.

Lemma dict_keys_remove key d : dict_keys (dict_remove key d) ⊆ dict_keys d.
Proof.
  unfold dict_keys. induction d as [|[k w] d IH]; simpl; [done|].
  case_decide; simpl.
  - intros x ?. apply elem_of_cons. by right.
  - intros x. rewrite !elem_of_cons. intros [?|?]; [by left | right; by apply IH].
Qed.

Lemma dict_wf_remove key d : dict_wf d -> dict_wf (dict_remove key d).
Proof.
  unfold dict_wf, dict_keys.
  induction d as [|[k w] d IH]; simpl; intros Hwf; [done|].
  apply NoDup_cons in Hwf as [Hk Hwf]. case_decide; [done|].
  simpl. apply NoDup_cons. split; [|auto].
  intros Hin. apply Hk. by apply (dict_keys_remove key d).
Qed.

Lemma dict_keys_set key v d :
  dict_keys (dict_set key v d)
  = if decide (key ∈ dict_keys d) then dict_keys d else dict_keys d ++ [key].
Proof.
  unfold dict_keys. induction d as [|[k w] d IH]; [done|].
  cbn [dict_set]. destruct (decide (k = key)) as [->|Hk].
  - cbn [fmap list_fmap fst]. rewrite decide_True; [done|]. apply elem_of_cons. by left.
  - cbn [fmap list_fmap fst] in *. rewrite IH.
    destruct (decide (key ∈ d.*1)) as [Hin|Hnin].
    + rewrite decide_True; [done|]. apply elem_of_cons. by right.
    + rewrite decide_False; [done|]. rewrite elem_of_cons. by intros [?|?].
Qed.

Lemma dict_wf_set key v d : dict_wf d -> dict_wf (dict_set key v d).
Proof.
  unfold dict_wf. rewrite dict_keys_set. intros Hwf.
  destruct (decide (key ∈ dict_keys d)) as [|Hnew]; [done|].
  apply NoDup_app. split; [done|]. split; [|apply NoDup_singleton].
  intros x Hx ->%list_elem_of_singleton. done.
Qed.

End Dict.

Lemma dict_get_fmap_entries {A B} (f : string -> A -> B) key (d : odict A) :
  dict_get key ((fun kv => (kv.1, f kv.1 kv.2)) <$> d) = f key <$> dict_get key d.
Proof.
  induction d as [|[k w] d IH]; simpl; [done|]. case_decide; by subst.
Qed.

Lemma dict_keys_fmap_entries {A B} (f : string -> A -> B) (d : odict A) :
  dict_keys ((fun kv => (kv.1, f kv.1 kv.2)) <$> d) = dict_keys d.
Proof.
  unfold dict_keys. rewrite <- list_fmap_compose. by apply list_fmap_ext.
Qed.

(** The snapshot [reconcile] is called with has distinct keys. *)
Lemma build_current_empties_wf records : dict_wf (build_current_empties records).
Proof.
  unfold build_current_empties.
  assert (Hgen : forall (start : odict entry), dict_wf start ->
            dict_wf (fold_left
              (fun empties record =>
                 fold_left
                   (fun empties tray =>
                      let key := printer_id record +:+ "::" +:+ tray in
                      dict_set key
                        (list_to_map
                           [ ("key", key);
                             ("printer_id", printer_id record);
                             ("description", description record);
                             ("tray", tray);
                             ("status_message", status_message record);
                             ("printer_text", printer_text record);
                             ("device_last_update", device_last_update record) ])
                        empties)
                   (empty_trays record) empties)
              records start)).
  { induction records as [|record records IH]; intros start Hwf; [done|].
    cbn [fold_left]. apply IH. clear IH. revert start Hwf.
    induction (empty_trays record) as [|tray trays IHt]; intros start Hwf; [done|].
    cbn [fold_left]. apply IHt. by apply dict_wf_set. }
  apply Hgen. apply NoDup_nil_2.
Qed.

(** ** The event log *)

Section StoreFacts.
Context `{JsonCodec}.

Lemma newest_short cap (l : list event) : length l <= cap -> newest cap l = l.
Proof. intros Hle. unfold newest. by replace (length l - cap) with 0 by lia. Qed.

Lemma newest_length cap (l : list event) : length (newest cap l) <= cap.
Proof. unfold newest. rewrite length_drop. lia. Qed.

Lemma newest_suffix cap (l : list event) :
  l = take (length l - cap) l ++ newest cap l.
Proof. unfold newest. by rewrite take_drop. Qed.

Lemma newest_last cap (l : list event) ev :
  0 < cap -> last (newest cap (l ++ [ev])) = Some ev.
Proof.
  intros Hcap. unfold newest. rewrite length_app. simpl.
  rewrite drop_app_le by lia. by rewrite last_snoc.
Qed.

Lemma MAX_EVENTS_pos : 0 < MAX_EVENTS.
Proof. unfold MAX_EVENTS. apply Nat.ltb_lt. by vm_compute. Qed.

Lemma make_event_type (timestamp event_type : string) (item : entry) (note : string) :
  make_event timestamp event_type item note !! "event_type" = Some event_type.
Proof. reflexivity. Qed.

Lemma make_event_note (timestamp event_type : string) (item : entry) (note : string) :
  make_event timestamp event_type item note !! "note" = Some note.
Proof. reflexivity. Qed.

Lemma make_event_timestamp (timestamp event_type : string) (item : entry) (note : string) :
  make_event timestamp event_type item note !! "timestamp" = Some timestamp.
Proof. reflexivity. Qed.

Lemma make_event_last_seen (timestamp event_type : string) (item : entry) (note t : string) :
  make_event timestamp event_type (<["last_seen" := t]> item) note !! "last_seen"
  = Some t.
Proof.
  change (Some (default "" (<["last_seen" := t]> item !! "last_seen")) = Some t).
  by rewrite lookup_insert_eq.
Qed.

(** A field of the entry other than [last_seen], as the event records it. *)
Lemma entry_field_last_seen (item : entry) (t field : string) :
  field <> "last_seen" ->
  default "" (<["last_seen" := t]> item !! field) = default "" (item !! field).
Proof. intros Hne. by rewrite lookup_insert_ne. Qed.

(** ** The two loops of [reconcile] *)

Lemma same_but_events_refl self : same_but_events self self.
Proof. by repeat split. Qed.

Lemma same_but_events_trans s1 s2 s3 :
  same_but_events s1 s2 -> same_but_events s2 s3 -> same_but_events s1 s3.
Proof. unfold same_but_events. intuition congruence. Qed.

Lemma append_event_frame timestamp event_type item note self :
  same_but_events self (_append_event timestamp event_type item note self).
Proof. by repeat split. Qed.

Lemma append_event_events timestamp event_type item note self :
  get_events (_append_event timestamp event_type item note self)
  = get_events self ++ [make_event timestamp event_type item note].
Proof. reflexivity. Qed.

Lemma emitted_cons f kv (d : odict entry) :
  emitted f (kv :: d)
  = match f kv.1 kv.2 with Some ev => [(kv.1, ev)] | None => [] end ++ emitted f d.
Proof. reflexivity. Qed.

Lemma reconcile_current_step previous scan_time self open_after added key item :
  reconcile_current previous scan_time (self, open_after, added) (key, item)
  = let open_after := dict_set key (stamped previous scan_time key item) open_after in
    match detected_event previous scan_time key item with
    | Some ev => (set_events (get_events self ++ [ev]) self, open_after, S added)
    | None => (self, open_after, added)
    end.
Proof.
  unfold reconcile_current, detected_event, stamped.
  by destruct (dict_get key previous).
Qed.

Lemma reconcile_previous_step current_empties scan_time self filled key prior :
  reconcile_previous current_empties scan_time (self, filled) (key, prior)
  = match filled_event current_empties scan_time key prior with
    | Some ev => (set_events (get_events self ++ [ev]) self, S filled)
    | None => (self, filled)
    end.
Proof.
  unfold reconcile_previous, filled_event.
  by destruct (dict_get key current_empties).
Qed.

Lemma set_events_frame l self : same_but_events self (set_events l self).
Proof. by repeat split. Qed.

Lemma loop_current previous scan_time (l : odict entry) :
  forall self open_after added,
  let r := fold_left (reconcile_current previous scan_time) l (self, open_after, added) in
  same_but_events self r.1.1
  /\ get_events r.1.1
     = get_events self ++ (emitted (detected_event previous scan_time) l).*2
  /\ r.2 = added + length (emitted (detected_event previous scan_time) l).
Proof.
  induction l as [|[key item] l IH]; intros self open_after added.
  - simpl. split; [apply same_but_events_refl|]. split; [by rewrite app_nil_r | lia].
  - cbn [fold_left]. rewrite reconcile_current_step, emitted_cons. cbn [fst snd].
    destruct (detected_event previous scan_time key item) as [ev|]; cbn zeta.
    + edestruct IH as (Hf & He & Hn). split; [|split].
      * eapply same_but_events_trans; [|exact Hf]. apply set_events_frame.
      * rewrite He. cbn. by rewrite <- app_assoc.
      * rewrite Hn. cbn. lia.
    + apply IH.
Qed.

Lemma loop_current_open previous scan_time (l : odict entry) :
  forall self open_after added,
  NoDup (dict_keys l) ->
  (forall k, k ∈ dict_keys l -> dict_get k open_after = None) ->
  (fold_left (reconcile_current previous scan_time) l (self, open_after, added)).1.2
  = open_after ++ ((fun kv => (kv.1, stamped previous scan_time kv.1 kv.2)) <$> l).
Proof.
  unfold dict_keys.
  induction l as [|[key item] l IH]; intros self open_after added Hnd Hfresh.
  - simpl. by rewrite app_nil_r.
  - cbn [fmap list_fmap fst] in Hnd. apply NoDup_cons in Hnd as [Hkey Hnd].
    assert (Hk : dict_get key open_after = None).
    { apply Hfresh. cbn. apply elem_of_cons. by left. }
    assert (Hstep : forall it k, k ∈ l.*1 ->
              dict_get k (dict_set key it open_after) = None).
    { intros it k Hin. rewrite dict_set_fresh by done. rewrite dict_get_app.
      rewrite Hfresh by (cbn; apply elem_of_cons; by right). simpl.
      rewrite decide_False; [done|]. intros ->. done. }
    cbn [fold_left]. rewrite reconcile_current_step. cbn zeta.
    destruct (detected_event previous scan_time key item) as [ev|];
      rewrite IH by auto; rewrite dict_set_fresh by done;
      by rewrite <- app_assoc.
Qed.

Lemma loop_previous current_empties scan_time (l : odict entry) :
  forall self filled,
  let r := fold_left (reconcile_previous current_empties scan_time) l (self, filled) in
  same_but_events self r.1
  /\ get_events r.1
     = get_events self ++ (emitted (filled_event current_empties scan_time) l).*2
  /\ r.2 = filled + length (emitted (filled_event current_empties scan_time) l).
Proof.
  induction l as [|[key prior] l IH]; intros self filled.
  - simpl. split; [apply same_but_events_refl|]. split; [by rewrite app_nil_r | lia].
  - cbn [fold_left]. rewrite reconcile_previous_step, emitted_cons. cbn [fst snd].
    destruct (filled_event current_empties scan_time key prior) as [ev|].
    + edestruct IH as (Hf & He & Hn). split; [|split].
      * eapply same_but_events_trans; [|exact Hf]. apply set_events_frame.
      * rewrite He. cbn. by rewrite <- app_assoc.
      * rewrite Hn. cbn. lia.
    + apply IH.
Qed.

Lemma trim_events_spec self :
  same_but_events self (_trim_events self)
  /\ events (data (_trim_events self)) = Some (newest MAX_EVENTS (get_events self)).
Proof.
  unfold _trim_events. cbn zeta.
  destruct (Nat.ltb_spec MAX_EVENTS (length (get_events self))) as [Hlt|Hle].
  - split; [apply set_events_frame | done].
  - split; [apply set_events_frame|]. cbn. by rewrite newest_short.
Qed.

(** The store [reconcile] returns, field by field. *)
Lemma reconcile_store current_empties scan_time self :
  let previous := get_open_empties self in
  let log := reconcile_log previous current_empties scan_time in
  let r := reconcile current_empties scan_time self in
  events (data r.2) = Some (newest MAX_EVENTS (get_events self ++ log.*2))
  /\ last_scan_at (data r.2) = Some scan_time
  /\ other_fields (data r.2) = other_fields (data self)
  /\ state_path r.2 = write_text (json_dumps (data r.2))
  /\ new_empties r.1
     = length (emitted (detected_event previous scan_time) current_empties)
  /\ new_filled r.1
     = length (emitted (filled_event current_empties scan_time) previous)
  /\ (dict_wf current_empties ->
      open_empty_trays (data r.2)
      = Some ((fun kv => (kv.1, stamped previous scan_time kv.1 kv.2))
                <$> current_empties)).
Proof.
  intros previous log r. subst r. unfold reconcile. fold previous.
  pose proof (loop_current previous scan_time current_empties self [] 0) as H1.
  pose proof (loop_current_open previous scan_time current_empties self [] 0) as H1o.
  destruct (fold_left (reconcile_current previous scan_time) current_empties
              (self, [], 0)) as [[self1 open_after] added].
  cbn zeta in H1. cbn [fst snd] in H1, H1o. destruct H1 as (Hf1 & He1 & Hn1).
  pose proof (loop_previous current_empties scan_time previous self1 0) as H2.
  destruct (fold_left (reconcile_previous current_empties scan_time) previous
              (self1, 0)) as [self2 filled].
  cbn zeta in H2. cbn [fst snd] in H2. destruct H2 as (Hf2 & He2 & Hn2).
  pose proof (trim_events_spec
                (set_last_scan_at scan_time (set_open_empty_trays open_after self2)))
    as [Hft Het].
  destruct Hft as (_ & Hto & Htl & Hto').
  cbn [fst snd save data state_path].
  repeat split.
  - rewrite Het. unfold log, reconcile_log. rewrite fmap_app, app_assoc, <- He1, <- He2.
    done.
  - by rewrite Htl.
  - rewrite Hto'. cbn. destruct Hf1 as (_ & _ & _ & Ho1). destruct Hf2 as (_ & _ & _ & Ho2).
    congruence.
  - cbn. rewrite Hn1. done.
  - cbn. rewrite Hn2. done.
  - intros Hwf. rewrite Hto. cbn. f_equal. rewrite H1o; [done|done|done].
Qed.

(** ** The log of a reconciliation, key by key *)

Lemma events_of_app key (l1 l2 : list (string * event)) :
  events_of key (l1 ++ l2) = events_of key l1 ++ events_of key l2.
Proof. unfold events_of. by rewrite filter_app, fmap_app. Qed.

Lemma events_of_emitted_silent f key (d : odict entry) :
  (forall v, (key, v) ∈ d -> f key v = None) -> events_of key (emitted f d) = [].
Proof.
  induction d as [|[k v] d IH]; intros Hf; [done|].
  rewrite emitted_cons, events_of_app, IH.
  - cbn [fst snd]. rewrite app_nil_r. destruct (decide (k = key)) as [->|Hne].
    + rewrite Hf; [done|]. apply elem_of_cons; by left.
    + destruct (f k v); [|done]. unfold events_of. by rewrite filter_cons_False.
  - intros w Hin. apply Hf. apply elem_of_cons; by right.
Qed.

Lemma events_of_emitted_absent f key (d : odict entry) :
  dict_get key d = None -> events_of key (emitted f d) = [].
Proof.
  intros Hnone. apply events_of_emitted_silent. intros v Hin.
  apply dict_get_None in Hnone. exfalso. apply Hnone.
  unfold dict_keys. apply list_elem_of_fmap. by exists (key, v).
Qed.

Lemma events_of_emitted_present f key v (d : odict entry) :
  dict_wf d -> dict_get key d = Some v ->
  events_of key (emitted f d) = match f key v with Some ev => [ev] | None => [] end.
Proof.
  unfold dict_wf, dict_keys.
  induction d as [|[k w] d IH]; intros Hwf Hget; [done|].
  cbn [fmap list_fmap fst] in Hwf. apply NoDup_cons in Hwf as [Hk Hwf].
  rewrite emitted_cons, events_of_app. cbn [fst snd]. simpl in Hget.
  destruct (decide (k = key)) as [->|Hne].
  - injection Hget as ->. rewrite events_of_emitted_absent, app_nil_r.
    + destruct (f key v); [|done]. unfold events_of. by rewrite filter_cons_True.
    + by apply dict_get_None.
  - rewrite IH by done. destruct (f k w); [|done].
    unfold events_of at 1. by rewrite filter_cons_False.
Qed.

Lemma emitted_known_type f (d : odict entry) :
  (forall k v ev, f k v = Some ev -> known_type ev) ->
  Forall known_type (emitted f d).*2.
Proof.
  intros Hf. induction d as [|[k v] d IH]; [constructor|].
  rewrite emitted_cons, fmap_app. apply Forall_app. split; [|done].
  cbn [fst snd]. destruct (f k v) eqn:E; [|constructor].
  apply Forall_cons. split; [|constructor]. by eapply Hf.
Qed.

Lemma reconcile_log_known_type previous current_empties scan_time :
  Forall known_type (reconcile_log previous current_empties scan_time).*2.
Proof.
  unfold reconcile_log. rewrite fmap_app. apply Forall_app. split.
  - apply emitted_known_type. intros k v ev. unfold detected_event.
    destruct (dict_get k previous); [done|]. intros [= <-]. by left.
  - apply emitted_known_type. intros k v ev. unfold filled_event.
    destruct (dict_get k current_empties); [done|]. intros [= <-]. by right.
Qed.

Lemma newest_Forall (P : event -> Prop) cap l : Forall P l -> Forall P (newest cap l).
Proof. unfold newest. apply Forall_drop. Qed.

Lemma reconcile_events current_empties scan_time self :
  get_events (reconcile current_empties scan_time self).2
  = newest MAX_EVENTS
      (get_events self
       ++ (reconcile_log (get_open_empties self) current_empties scan_time).*2).
Proof.
  unfold get_events at 1.
  by destruct (reconcile_store current_empties scan_time self) as [-> _].
Qed.

Lemma reconcile_open current_empties scan_time self :
  dict_wf current_empties ->
  get_open_empties (reconcile current_empties scan_time self).2
  = (fun kv => (kv.1, stamped (get_open_empties self) scan_time kv.1 kv.2))
      <$> current_empties.
Proof.
  intros Hwf. unfold get_open_empties at 1.
  destruct (reconcile_store current_empties scan_time self) as (_&_&_&_&_&_& ->); done.
Qed.

Lemma reconcile_open_wf current_empties scan_time self :
  dict_wf current_empties ->
  dict_wf (get_open_empties (reconcile current_empties scan_time self).2).
Proof.
  intros Hwf. rewrite reconcile_open by done. unfold dict_wf.
  by rewrite dict_keys_fmap_entries.
Qed.

(** closed -> open *)
Lemma reconcile_opens current_empties scan_time self key item :
  dict_wf current_empties ->
  dict_get key current_empties = Some item ->
  dict_get key (get_open_empties self) = None ->
  let stamp := <["last_seen" := scan_time]> (<["since" := scan_time]> item) in
  dict_get key (get_open_empties (reconcile current_empties scan_time self).2)
  = Some stamp
  /\ events_of key (reconcile_log (get_open_empties self) current_empties scan_time)
     = [make_event scan_time "empty" stamp "detected by monitor"].
Proof.
  intros Hwf Hcur Hprev stamp. split.
  - rewrite reconcile_open, dict_get_fmap_entries, Hcur by done. cbn.
    unfold stamped. by rewrite Hprev.
  - unfold reconcile_log. rewrite events_of_app.
    rewrite (events_of_emitted_present _ key item) by done.
    rewrite events_of_emitted_absent by done.
    unfold detected_event, stamped. by rewrite Hprev.
Qed.

(** open -> open *)
Lemma reconcile_keeps current_empties scan_time self key item prior :
  dict_wf current_empties ->
  dict_get key current_empties = Some item ->
  dict_get key (get_open_empties self) = Some prior ->
  dict_get key (get_open_empties (reconcile current_empties scan_time self).2)
  = Some (<["last_seen" := scan_time]>
            (<["since" := default scan_time (prior !! "since")]> item))
  /\ events_of key (reconcile_log (get_open_empties self) current_empties scan_time)
     = [].
Proof.
  intros Hwf Hcur Hprev. split.
  - rewrite reconcile_open, dict_get_fmap_entries, Hcur by done. cbn.
    unfold stamped. by rewrite Hprev.
  - unfold reconcile_log. rewrite events_of_app.
    rewrite !events_of_emitted_silent; [done| |].
    + intros v _. unfold filled_event. by rewrite Hcur.
    + intros v _. unfold detected_event. by rewrite Hprev.
Qed.

(** open -> closed *)
Lemma reconcile_closes current_empties scan_time self key prior :
  dict_wf current_empties ->
  dict_wf (get_open_empties self) ->
  dict_get key current_empties = None ->
  dict_get key (get_open_empties self) = Some prior ->
  dict_get key (get_open_empties (reconcile current_empties scan_time self).2) = None
  /\ events_of key (reconcile_log (get_open_empties self) current_empties scan_time)
     = [make_event scan_time "filled" (<["last_seen" := scan_time]> prior)
          "no longer reported empty"].
Proof.
  intros Hwf Hwfp Hcur Hprev. split.
  - rewrite reconcile_open, dict_get_fmap_entries, Hcur by done. done.
  - unfold reconcile_log. rewrite events_of_app.
    rewrite events_of_emitted_absent by done.
    rewrite (events_of_emitted_present _ key prior) by done.
    unfold filled_event. by rewrite Hcur.
Qed.

Lemma newest_keeps_last cap (l : list event) : 0 < cap -> last (newest cap l) = last l.
Proof.
  intros Hcap. unfold newest. rewrite !last_lookup, lookup_drop, length_drop.
  destruct l as [|x l]; [done|]. f_equal. simpl. lia.
Qed.

(** However many scans keep reporting a tray empty, its entry keeps its
    [since], takes the time of the latest scan as [last_seen], and no
    event is appended for it. *)
Lemma tray_stays_open (scans : list (odict entry * string)) :
  forall self key (e : entry) since seen,
  Forall (fun scan => dict_wf scan.1 /\ is_Some (dict_get key scan.1)) scans ->
  dict_get key (get_open_empties self) = Some e ->
  e !! "since" = Some since ->
  e !! "last_seen" = Some seen ->
  (exists e' : entry,
     dict_get key (get_open_empties (reconcile_all scans self)) = Some e'
     /\ e' !! "since" = Some since
     /\ e' !! "last_seen" = Some (default seen (last scans.*2)))
  /\ Forall (fun log => events_of key log = []) (run_logs scans self).
Proof.
  induction scans as [|[cur T] scans IH]; intros self key e since seen Hall He Hs Hl.
  - split; [|constructor]. by exists e.
  - apply Forall_cons in Hall as [[Hwf [item Hitem]] Hall]. cbn [fst] in Hwf, Hitem.
    destruct (reconcile_keeps cur T self key item e Hwf Hitem He) as [Ho Hlog].
    rewrite Hs in Ho. cbn [default] in Ho.
    destruct (IH (reconcile cur T self).2 key _ since T Hall Ho) as [(e' & He' & Hs' & Hl') Hlogs].
    { by rewrite lookup_insert_ne, lookup_insert_eq. }
    { by rewrite lookup_insert_eq. }
    split; [|by apply Forall_cons].
    exists e'. split; [done|]. split; [done|]. rewrite Hl'. f_equal.
    cbn [fmap list_fmap snd]. rewrite last_cons. by destruct (last scans.*2).
Qed.

(** ** Manual resolution *)

(** The store [manual_mark_filled] returns for an open key, field by
    field. *)
Lemma manual_store tray_key timestamp self item :
  dict_get tray_key (get_open_empties self) = Some item ->
  let r := manual_mark_filled tray_key timestamp self in
  let ev := make_event timestamp "filled" (<["last_seen" := timestamp]> item)
              "manually marked filled" in
  r.1 = true
  /\ open_empty_trays (data r.2) = Some (dict_remove tray_key (get_open_empties self))
  /\ events (data r.2) = Some (newest MAX_EVENTS (get_events self ++ [ev]))
  /\ last_scan_at (data r.2) = Some timestamp
  /\ other_fields (data r.2) = other_fields (data self)
  /\ state_path r.2 = write_text (json_dumps (data r.2)).
Proof.
  intros Hopen r ev. subst r. unfold manual_mark_filled. rewrite Hopen. cbn zeta.
  match goal with |- context [_trim_events ?s] =>
    pose proof (trim_events_spec s) as [(_ & Hto & Htl & Hto') Het] end.
  cbn [fst snd save data state_path]. by repeat split.
Qed.

Lemma manual_closed tray_key timestamp self :
  dict_get tray_key (get_open_empties self) = None ->
  manual_mark_filled tray_key timestamp self = (false, self).
Proof. intros Hnone. unfold manual_mark_filled. by rewrite Hnone. Qed.

(** C1 (amended): a key of the snapshot that the prior open set lacks
    makes the reconciliation append exactly one event, of event_type
    "empty" and with the note "detected by monitor"; every event a
    reconciliation or a manual resolution appends has event_type "empty"
    or "filled", and a log that holds only such events still does after
    either operation. *)
Theorem reconcile_detected_event current_empties scan_time self key item :
  dict_wf current_empties ->
  dict_get key current_empties = Some item ->
  dict_get key (get_open_empties self) = None ->
  let log := reconcile_log (get_open_empties self) current_empties scan_time in
  let after := (reconcile current_empties scan_time self).2 in
  get_events after = newest MAX_EVENTS (get_events self ++ log.*2)
  /\ (exists ev : event,
        events_of key log = [ev]
        /\ ev !! "event_type" = Some "empty"
        /\ ev !! "note" = Some "detected by monitor")
  /\ Forall known_type log.*2
  /\ (Forall known_type (get_events self) ->
      Forall known_type (get_events after)
      /\ forall tray_key timestamp,
           Forall known_type
             (get_events (manual_mark_filled tray_key timestamp self).2)).
Proof.
  intros Hwf Hcur Hprev log after.
  split; [apply reconcile_events|]. split; [|split].
  - destruct (reconcile_opens current_empties scan_time self key item)
      as [_ Hlog]; [done..|].
    eexists. split; [exact Hlog|]. split; [apply make_event_type|apply make_event_note].
  - apply reconcile_log_known_type.
  - intros Hold. split.
    + subst after. rewrite reconcile_events. apply newest_Forall, Forall_app.
      split; [done | apply reconcile_log_known_type].
    + intros tray_key timestamp.
      destruct (dict_get tray_key (get_open_empties self)) as [it|] eqn:Hk.
      * destruct (manual_store tray_key timestamp self it Hk) as (_ & _ & He & _).
        unfold get_events at 1. rewrite He. cbn. apply newest_Forall, Forall_app.
        split; [done|]. apply Forall_cons. split; [by right | constructor].
      * by rewrite manual_closed.
Qed.

(** C2: the life of a key over successive reconciliations.  When it first
    appears (at T1) the reconciliation appends exactly one event for it
    and opens it with since = last_seen = T1; while it stays in the
    snapshot (at T2) its since is unchanged, its last_seen becomes T2 and
    no event is appended for it; when it disappears (at T3) exactly one
    "filled" event is appended for it, with the prior entry's fields and
    last_seen = T3, and the key leaves the open set. *)
Theorem tray_lifecycle self0 cur1 cur2 cur3 T1 T2 T3 key item1 item2 :
  dict_wf cur1 -> dict_wf cur2 -> dict_wf cur3 ->
  dict_get key (get_open_empties self0) = None ->
  dict_get key cur1 = Some item1 ->
  dict_get key cur2 = Some item2 ->
  dict_get key cur3 = None ->
  let self1 := (reconcile cur1 T1 self0).2 in
  let self2 := (reconcile cur2 T2 self1).2 in
  let self3 := (reconcile cur3 T3 self2).2 in
  let log1 := reconcile_log (get_open_empties self0) cur1 T1 in
  let log2 := reconcile_log (get_open_empties self1) cur2 T2 in
  let log3 := reconcile_log (get_open_empties self2) cur3 T3 in
  (get_events self1 = newest MAX_EVENTS (get_events self0 ++ log1.*2)
   /\ get_events self2 = newest MAX_EVENTS (get_events self1 ++ log2.*2)
   /\ get_events self3 = newest MAX_EVENTS (get_events self2 ++ log3.*2))
  /\ ((exists ev : event, events_of key log1 = [ev])
      /\ exists e1 : entry,
           dict_get key (get_open_empties self1) = Some e1
           /\ e1 !! "since" = Some T1 /\ e1 !! "last_seen" = Some T1)
  /\ (events_of key log2 = []
      /\ exists e2 : entry,
           dict_get key (get_open_empties self2) = Some e2
           /\ e2 !! "since" = Some T1 /\ e2 !! "last_seen" = Some T2
           /\ (exists ev : event,
                 events_of key log3 = [ev]
                 /\ ev !! "event_type" = Some "filled"
                 /\ ev !! "note" = Some "no longer reported empty"
                 /\ ev !! "timestamp" = Some T3
                 /\ ev !! "last_seen" = Some T3
                 /\ ev !! "empty_since" = Some T1
                 /\ ev !! "printer_id" = Some (default "" (e2 !! "printer_id"))
                 /\ ev !! "description" = Some (default "" (e2 !! "description"))
                 /\ ev !! "tray" = Some (default "" (e2 !! "tray"))
                 /\ ev !! "status_message" = Some (default "" (e2 !! "status_message"))
                 /\ ev !! "printer_text" = Some (default "" (e2 !! "printer_text"))))
  /\ dict_get key (get_open_empties self3) = None.
Proof.
  intros Hwf1 Hwf2 Hwf3 Hclosed Hin1 Hin2 Hout3 self1 self2 self3 log1 log2 log3.
  destruct (reconcile_opens cur1 T1 self0 key item1) as [Ho1 Hl1]; [done..|].
  fold self1 in Ho1. fold log1 in Hl1.
  destruct (reconcile_keeps cur2 T2 self1 key item2 _ Hwf2 Hin2 Ho1) as [Ho2 Hl2].
  fold self2 in Ho2. fold log2 in Hl2.
  rewrite (lookup_insert_ne _ "last_seen" "since"), lookup_insert_eq in Ho2 by done.
  cbn [default] in Ho2.
  assert (Hwfo2 : dict_wf (get_open_empties self2))
    by by apply reconcile_open_wf.
  destruct (reconcile_closes cur3 T3 self2 key _ Hwf3 Hwfo2 Hout3 Ho2) as [Ho3 Hl3].
  fold self3 in Ho3. fold log3 in Hl3.
  split; [repeat split; apply reconcile_events|].
  split; [|split; [|done]].
  - split; [by eexists|]. eexists. split; [exact Ho1|].
    split; [by rewrite lookup_insert_ne, lookup_insert_eq | by rewrite lookup_insert_eq].
  - split; [done|]. eexists. split; [exact Ho2|].
    split; [by rewrite lookup_insert_ne, lookup_insert_eq|].
    split; [by rewrite lookup_insert_eq|].
    eexists. split; [exact Hl3|].
    split; [apply make_event_type|]. split; [apply make_event_note|].
    split; [apply make_event_timestamp|]. split; [apply make_event_last_seen|].
    split.
    { change (Some (default "" (<["last_seen" := T3]>
                (<["last_seen" := T2]> (<["since" := T1]> item2)) !! "since"))
              = Some T1).
      by rewrite !(lookup_insert_ne _ "last_seen" "since"), lookup_insert_eq. }
    repeat split.
    all: match goal with |- _ !! ?f = _ =>
      change (Some (default "" (<["last_seen" := T3]>
                (<["last_seen" := T2]> (<["since" := T1]> item2)) !! f))
              = Some (default "" (<["last_seen" := T2]>
                (<["since" := T1]> item2) !! f))) end.
    all: by rewrite (lookup_insert_ne _ "last_seen") by done.
Qed.

(** C7: manual resolution of an open key removes the key (and no other),
    appends exactly one "filled" event with the note "manually marked
    filled" and last_seen equal to the given timestamp, writes the
    document and returns [True]; manual resolution of a key that is not
    open returns [False] and leaves the store, events and file included,
    as it was. *)
Theorem manual_mark_filled_spec tray_key timestamp self :
  dict_wf (get_open_empties self) ->
  (forall item, dict_get tray_key (get_open_empties self) = Some item ->
     let r := manual_mark_filled tray_key timestamp self in
     r.1 = true
     /\ dict_get tray_key (get_open_empties r.2) = None
     /\ (forall k, k <> tray_key ->
           dict_get k (get_open_empties r.2) = dict_get k (get_open_empties self))
     /\ (exists ev : event,
           get_events r.2 = newest MAX_EVENTS (get_events self ++ [ev])
           /\ last (get_events r.2) = Some ev
           /\ ev !! "event_type" = Some "filled"
           /\ ev !! "note" = Some "manually marked filled"
           /\ ev !! "last_seen" = Some timestamp)
     /\ state_path r.2 = write_text (json_dumps (data r.2)))
  /\ (dict_get tray_key (get_open_empties self) = None ->
      manual_mark_filled tray_key timestamp self = (false, self)).
Proof.
  intros Hwf. split; [|apply manual_closed].
  intros item Hopen r.
  destruct (manual_store tray_key timestamp self item Hopen)
    as (Hret & Ho & He & _ & _ & Hfile).
  fold r in Hret, Ho, He, Hfile.
  assert (Hopen' : get_open_empties r.2 = dict_remove tray_key (get_open_empties self))
    by (unfold get_open_empties at 1; by rewrite Ho).
  assert (Hev : get_events r.2 = newest MAX_EVENTS (get_events self ++
            [make_event timestamp "filled" (<["last_seen" := timestamp]> item)
               "manually marked filled"]))
    by (unfold get_events at 1; by rewrite He).
  split; [done|]. split; [|split; [|split; [|done]]].
  - rewrite Hopen'. by apply dict_get_remove_eq.
  - intros k Hne. rewrite Hopen'. by apply dict_get_remove_ne.
  - eexists. split; [exact Hev|]. split.
    + rewrite Hev. apply newest_last, MAX_EVENTS_pos.
    + split; [apply make_event_type|]. split; [apply make_event_note|].
      apply make_event_last_seen.
Qed.

(** C8: after every reconciliation and every successful manual
    resolution the event list, in memory and as written, holds at most
    MAX_EVENTS = 20000 events: it is the list before the call followed by
    the appended events, less as many of its oldest events as exceed the
    cap; the order is kept and the newest event stays. *)
Theorem event_log_capped :
  MAX_EVENTS = 20000
  /\ (forall current_empties scan_time self,
        let after := (reconcile current_empties scan_time self).2 in
        let untrimmed :=
          get_events self
          ++ (reconcile_log (get_open_empties self) current_empties scan_time).*2 in
        length (get_events after) <= MAX_EVENTS
        /\ get_events after = drop (length untrimmed - MAX_EVENTS) untrimmed
        /\ untrimmed = take (length untrimmed - MAX_EVENTS) untrimmed ++ get_events after
        /\ last (get_events after) = last untrimmed
        /\ events (data after) = Some (get_events after)
        /\ state_path after = write_text (json_dumps (data after)))
  /\ (forall tray_key timestamp self item,
        dict_get tray_key (get_open_empties self) = Some item ->
        let after := (manual_mark_filled tray_key timestamp self).2 in
        let untrimmed :=
          get_events self
          ++ [make_event timestamp "filled" (<["last_seen" := timestamp]> item)
                "manually marked filled"] in
        length (get_events after) <= MAX_EVENTS
        /\ get_events after = drop (length untrimmed - MAX_EVENTS) untrimmed
        /\ untrimmed = take (length untrimmed - MAX_EVENTS) untrimmed ++ get_events after
        /\ last (get_events after) = last untrimmed
        /\ events (data after) = Some (get_events after)
        /\ state_path after = write_text (json_dumps (data after))).
Proof.
  split; [done|]. split.
  - intros current_empties scan_time self after untrimmed.
    destruct (reconcile_store current_empties scan_time self)
      as (He & _ & _ & Hfile & _).
    fold after untrimmed in He, Hfile.
    assert (Hev : get_events after = newest MAX_EVENTS untrimmed)
      by (unfold get_events; by rewrite He).
    rewrite Hev. split; [apply newest_length|]. split; [done|].
    split; [apply newest_suffix|]. split; [apply newest_keeps_last, MAX_EVENTS_pos|].
    done.
  - intros tray_key timestamp self item Hopen after untrimmed.
    destruct (manual_store tray_key timestamp self item Hopen)
      as (_ & _ & He & _ & _ & Hfile).
    fold after untrimmed in He, Hfile.
    assert (Hev : get_events after = newest MAX_EVENTS untrimmed)
      by (unfold get_events; by rewrite He).
    rewrite Hev. split; [apply newest_length|]. split; [done|].
    split; [apply newest_suffix|]. split; [apply newest_keeps_last, MAX_EVENTS_pos|].
    done.
Qed.

(** C10: manual resolution of an open key sets last_scan_at to its
    timestamp, although no scan took place, and writes the document; of
    the document's fields only open_empty_trays, events and last_scan_at
    can differ afterwards. *)
Theorem manual_mark_filled_frame tray_key timestamp self item :
  dict_get tray_key (get_open_empties self) = Some item ->
  let after := (manual_mark_filled tray_key timestamp self).2 in
  last_scan_at (data after) = Some timestamp
  /\ get_last_scan after = timestamp
  /\ other_fields (data after) = other_fields (data self)
  /\ state_path after = write_text (json_dumps (data after)).
Proof.
  intros Hopen after.
  destruct (manual_store tray_key timestamp self item Hopen)
    as (_ & _ & _ & Hl & Hf & Hfile).
  fold after in Hl, Hf, Hfile. unfold get_last_scan. by rewrite Hl.
Qed.

(** ** Loading *)

Lemma init_missing : __init__ Absent = inr fresh_store.
Proof. reflexivity. Qed.

(** A file that cannot be read, or whose text is not JSON, resets the
    store to the empty document. *)
Lemma load_resets self :
  read_document (state_path self) = inl OSError
  \/ read_document (state_path self) = inl JSONDecodeError ->
  state_path self <> Absent ->
  load self = inr (with_data empty_document self).
Proof.
  intros Hread Hpresent. unfold load.
  destruct (state_path self) eqn:Hf; [done| |]; by destruct Hread as [-> | ->].
Qed.

Lemma init_unreadable :
  __init__ Unreadable = inr {| state_path := Unreadable; data := empty_document |}.
Proof. reflexivity. Qed.

Lemma init_not_json bytes text :
  read_text (Content bytes) = inr text ->
  json_loads text = None ->
  __init__ (Content bytes)
  = inr {| state_path := Content bytes; data := empty_document |}.
Proof.
  intros Htext Hjson. unfold __init__, load, read_document. cbn [state_path].
  by rewrite Htext, Hjson.
Qed.

(** Constructing the store raises exactly for a file that is present and
    is not valid UTF-8. *)
Lemma init_raises_iff f :
  (exists e, __init__ f = inl e)
  <-> exists bytes, f = Content bytes /\ utf8_valid (map Byte.to_N bytes) = false.
Proof.
  unfold __init__, load, read_document, read_text. cbn [state_path].
  destruct f as [| |bytes].
  - split; [by intros [e ?] | by intros (bytes & ? & _)].
  - split; [by intros [e ?] | by intros (bytes & ? & _)].
  - destruct (utf8_valid (map Byte.to_N bytes)) eqn:Hvalid.
    + split; [|by intros (bytes' & [= <-] & ?); congruence].
      intros [e He]. by destruct (json_loads (string_of_list_byte bytes)).
    + split; [by exists bytes | by exists UnicodeDecodeError].
Qed.

(** C9 (the failing input): a state file holding the single byte 0xFF is
    not valid UTF-8; reading it raises UnicodeDecodeError, which [load]
    does not catch, so constructing the store raises. *)
Theorem init_invalid_utf8_raises :
  utf8_valid (map Byte.to_N [Byte.xff]) = false
  /\ read_document (Content [Byte.xff]) = inl UnicodeDecodeError
  /\ __init__ (Content [Byte.xff]) = inl UnicodeDecodeError.
Proof. by repeat split. Qed.

End StoreFacts.

(** ** Closed instances *)

Lemma dict_wf_singleton {V} key (v : V) : dict_wf [(key, v)].
Proof. apply NoDup_singleton. Qed.

Lemma dict_wf_nil {V} : dict_wf (@nil (string * V)).
Proof. apply NoDup_nil_2. Qed.

(** Against C1 as the specification words it: the one event a
    reconciliation appends for a newly empty tray has event_type "empty",
    not "detected". *)
Lemma reconcile_event_type_is_empty :
  let cur := [("12345::Tray 2", tray2)] in
  let scan_time := "2024-05-01T10:00:00" in
  let after := (reconcile (H := example_codec) cur scan_time fresh_store).2 in
  let ev :=
    make_event scan_time "empty"
      (<["last_seen" := scan_time]> (<["since" := scan_time]> tray2))
      "detected by monitor" in
  dict_get "12345::Tray 2" cur = Some tray2
  /\ dict_get "12345::Tray 2" (get_open_empties fresh_store) = None
  /\ events_of "12345::Tray 2"
       (reconcile_log (get_open_empties fresh_store) cur scan_time) = [ev]
  /\ get_events after = [ev]
  /\ ev !! "event_type" = Some "empty"
  /\ ev !! "event_type" <> Some "detected".
Proof. repeat split; try reflexivity. by intros [=]. Qed.

Lemma reconcile_detected_event_witness :
  let cur := [("12345::Tray 2", tray2)] in
  let log := reconcile_log (get_open_empties fresh_store) cur "T1" in
  dict_wf cur
  /\ dict_get "12345::Tray 2" cur = Some tray2
  /\ dict_get "12345::Tray 2" (get_open_empties fresh_store) = None
  /\ exists ev : event,
       events_of "12345::Tray 2" log = [ev]
       /\ ev !! "event_type" = Some "empty"
       /\ ev !! "note" = Some "detected by monitor".
Proof.
  intros cur log. split; [apply dict_wf_singleton|]. split; [done|]. split; [done|].
  apply (reconcile_detected_event (H := example_codec) cur "T1" fresh_store
           "12345::Tray 2" tray2); [apply dict_wf_singleton|done|done].
Defined.

Lemma tray_lifecycle_witness :
  let cur := [("12345::Tray 2", tray2)] in
  let self1 := (reconcile (H := example_codec) cur "T1" fresh_store).2 in
  let self2 := (reconcile (H := example_codec) cur "T2" self1).2 in
  let self3 := (reconcile (H := example_codec) [] "T3" self2).2 in
  dict_wf cur
  /\ dict_get "12345::Tray 2" (get_open_empties fresh_store) = None
  /\ dict_get "12345::Tray 2" cur = Some tray2
  /\ dict_get "12345::Tray 2" (@nil (string * entry)) = None
  /\ dict_get "12345::Tray 2" (get_open_empties self3) = None.
Proof.
  intros cur self1 self2 self3.
  split; [apply dict_wf_singleton|]. split; [done|]. split; [done|]. split; [done|].
  apply (tray_lifecycle (H := example_codec) fresh_store cur cur [] "T1" "T2" "T3"
           "12345::Tray 2" tray2 tray2);
    [apply dict_wf_singleton | apply dict_wf_singleton | apply dict_wf_nil | done..].
Defined.

Lemma manual_mark_filled_spec_witness :
  dict_wf (get_open_empties one_open)
  /\ dict_get "12345::Tray 2" (get_open_empties one_open) = Some tray2
  /\ dict_get "12345::Tray 9" (get_open_empties one_open) = None
  /\ (manual_mark_filled (H := example_codec) "12345::Tray 2" "T" one_open).1 = true
  /\ manual_mark_filled (H := example_codec) "12345::Tray 9" "T" one_open
     = (false, one_open).
Proof.
  split; [apply dict_wf_singleton|]. split; [done|]. split; [done|]. split.
  - apply (proj1 (manual_mark_filled_spec (H := example_codec) "12345::Tray 2" "T"
                      one_open (dict_wf_singleton _ _)) tray2). done.
  - apply (proj2 (manual_mark_filled_spec (H := example_codec) "12345::Tray 9" "T"
                      one_open (dict_wf_singleton _ _))). done.
Defined.

Lemma event_log_capped_witness :
  dict_get "12345::Tray 2" (get_open_empties one_open) = Some tray2
  /\ length (get_events
               (manual_mark_filled (H := example_codec) "12345::Tray 2" "T" one_open).2)
     <= MAX_EVENTS.
Proof.
  split; [done|].
  apply (proj2 (proj2 (event_log_capped (H := example_codec)))
           "12345::Tray 2" "T" one_open tray2). done.
Defined.

Lemma manual_mark_filled_frame_witness :
  dict_get "12345::Tray 2" (get_open_empties one_open) = Some tray2
  /\ last_scan_at
       (data (manual_mark_filled (H := example_codec) "12345::Tray 2" "T" one_open).2)
     = Some "T".
Proof.
  split; [done|].
  apply (manual_mark_filled_frame (H := example_codec) "12345::Tray 2" "T" one_open
           tray2). done.
Defined.

(** ** The alert engine *)

Section Alerts.
Implicit Types (st : alert_state) (s : list (dedupe_key * LowAlert)).
Implicit Types (record r : PrinterRecord) (a : LowAlert) (k : dedupe_key).

Lemma offers_app s1 s2 st : offers (s1 ++ s2) st = offers s2 (offers s1 st).
Proof. unfold offers. apply fold_left_app. Qed.

Lemma offers_nil st : offers [] st = st.
Proof. reflexivity. Qed.

Lemma offers_cons k a s st : offers ((k, a) :: s) st = offers s (add_alert k a st).
Proof. reflexivity. Qed.

Lemma fold_left_offers {A} (step : alert_state -> A -> alert_state)
    (f : A -> list (dedupe_key * LowAlert)) (l : list A) st :
  (forall st x, step st x = offers (f x) st) ->
  fold_left step l st = offers (flat_map f l) st.
Proof.
  intros Hstep. revert st. induction l as [|x l IH]; intros st; [done|].
  cbn [fold_left flat_map]. by rewrite offers_app, IH, Hstep.
Qed.

Lemma toner_step_offers record toner_threshold st channel :
  toner_step record toner_threshold st channel
  = offers (toner_candidate record toner_threshold channel) st.
Proof.
  unfold toner_step, toner_candidate.
  destruct (mono_like record && bool_decide (channel ∈ ["c"; "m"; "y"])); [done|].
  destruct (levels record !! ("toner_" +:+ channel)) as [lvl|]; [|done].
  by destruct (lvl <=? toner_threshold)%Z.
Qed.

Lemma fuser_step_offers record fuser_threshold st :
  fuser_step record fuser_threshold st
  = offers (fuser_candidate record fuser_threshold) st.
Proof.
  unfold fuser_step, fuser_candidate.
  destruct (levels record !! "fuser") as [lvl|]; [|done].
  by destruct (lvl <=? fuser_threshold)%Z.
Qed.

Lemma keyword_step_offers record st rule :
  keyword_step record st rule = offers (keyword_candidate record rule) st.
Proof.
  unfold keyword_step, keyword_candidate. destruct rule as [[word it] reason].
  cbn [fst snd]. by destruct (search_low word (status_blob record)).
Qed.

Lemma record_step_offers toner_threshold fuser_threshold st record :
  record_step toner_threshold fuser_threshold st record
  = offers (candidates toner_threshold fuser_threshold record) st.
Proof.
  unfold record_step, candidates. rewrite !offers_app.
  rewrite (fold_left_offers _ (toner_candidate record toner_threshold))
    by (intros; apply toner_step_offers).
  rewrite fuser_step_offers.
  by rewrite (fold_left_offers _ (keyword_candidate record))
    by (intros; apply keyword_step_offers).
Qed.

Lemma collect_offers toner_threshold fuser_threshold records st :
  fold_left (record_step toner_threshold fuser_threshold) records st
  = offers (flat_map (candidates toner_threshold fuser_threshold) records) st.
Proof. apply fold_left_offers. intros. apply record_step_offers. Qed.

Lemma candidates_inv toner_threshold fuser_threshold r k a :
  (k, a) ∈ candidates toner_threshold fuser_threshold r ->
  candidate_of toner_threshold fuser_threshold r k a.
Proof.
  unfold candidates. rewrite !elem_of_app, !list_elem_of_In, !in_flat_map.
  intros [(channel & Hch & Hin) | [Hin | (rule & Hrule & Hin)]].
  - apply list_elem_of_In in Hch, Hin. unfold toner_candidate in Hin.
    destruct (mono_like r && bool_decide (channel ∈ ["c"; "m"; "y"]));
      [by apply elem_of_nil in Hin|].
    destruct (levels r !! ("toner_" +:+ channel)) as [lvl|] eqn:Hl;
      [|by apply elem_of_nil in Hin].
    destruct (Z.leb_spec lvl toner_threshold); [|by apply elem_of_nil in Hin].
    apply list_elem_of_singleton in Hin. injection Hin as -> ->.
    by apply toner_rule.
  - apply list_elem_of_In in Hin. unfold fuser_candidate in Hin.
    destruct (levels r !! "fuser") as [lvl|] eqn:Hl; [|by apply elem_of_nil in Hin].
    destruct (Z.leb_spec lvl fuser_threshold); [|by apply elem_of_nil in Hin].
    apply list_elem_of_singleton in Hin. injection Hin as -> ->.
    by apply fuser_rule.
  - apply list_elem_of_In in Hrule, Hin. unfold keyword_candidate in Hin.
    destruct rule as [[word it] reason]. cbn [fst snd] in Hin.
    destruct (search_low word (status_blob r)) eqn:Hs; [|by apply elem_of_nil in Hin].
    apply list_elem_of_singleton in Hin. injection Hin as -> ->.
    by apply (keyword_rule _ _ _ word).
Qed.

(** Deduplication keeps, for each key, the alert offered first. *)
Lemma offers_key (key : dedupe_key) (Q : LowAlert -> Prop)
    `{!forall a, Decision (Q a)} s :
  (forall k a, (k, a) ∈ s -> k = key <-> Q a) ->
  forall st,
  filter Q (offers s st).1
  = filter Q st.1
    ++ (if decide (key ∈ st.2) then []
        else (take 1 (filter (fun ka => ka.1 = key) s)).*2).
Proof.
  induction s as [|[k a] s IH]; intros Hs st.
  - rewrite offers_nil. simpl. destruct (decide (key ∈ st.2)); by rewrite app_nil_r.
  - rewrite offers_cons, IH by (intros; apply Hs; apply elem_of_cons; by right).
    assert (Hka : k = key <-> Q a) by (apply Hs; apply elem_of_cons; by left).
    unfold add_alert. destruct (decide (k ∈ st.2)) as [Hin|Hnin].
    + destruct (decide (key ∈ st.2)) as [|Hnk]; [done|].
      rewrite filter_cons_False; [done|]. intros Heq. cbn in Heq. subst k. contradiction.
    + cbn [fst snd]. rewrite filter_app. destruct (decide (k = key)) as [Heq|Hne]; [subst k|].
      * rewrite decide_True by (apply elem_of_union_l; by apply elem_of_singleton).
        rewrite (decide_False (P := key ∈ st.2)) by done.
        rewrite (filter_cons_True _ (key, a)) by done.
        rewrite (filter_cons_True _ a) by by apply Hka.
        by rewrite filter_nil, app_nil_r.
      * rewrite (filter_cons_False _ a) by (intros HQ; by apply Hka in HQ).
        rewrite filter_nil, app_nil_r. rewrite (filter_cons_False _ (k, a)) by done.
        destruct (decide (key ∈ st.2)) as [Hk|Hk].
        -- by rewrite decide_True by by apply elem_of_union_r.
        -- rewrite decide_False; [done|].
           rewrite elem_of_union, elem_of_singleton. by intros [?|?].
Qed.

(** Alerts of other devices pass through untouched. *)
Lemma offers_others (P : string) s st :
  (forall k a, (k, a) ∈ s -> alert_printer_id a <> P) ->
  filter (fun a => alert_printer_id a = P) (offers s st).1
  = filter (fun a => alert_printer_id a = P) st.1.
Proof.
  revert st. induction s as [|[k a] s IH]; intros st Hs; [done|].
  rewrite offers_cons, IH by (intros; eapply Hs; apply elem_of_cons; by right).
  unfold add_alert. destruct (decide (k ∈ st.2)); [done|]. cbn [fst].
  rewrite filter_app, filter_cons_False, filter_nil, app_nil_r; [done|].
  eapply Hs. apply elem_of_cons. by left.
Qed.

(** A key is seen only once it was offered. *)
Lemma offers_seen s st k :
  k ∈ (offers s st).2 -> k ∈ st.2 \/ exists a, (k, a) ∈ s.
Proof.
  revert st. induction s as [|[k' a'] s IH]; intros st; [by left|].
  rewrite offers_cons. intros [Hin|[a Hin]]%IH.
  - unfold add_alert in Hin. destruct (decide (k' ∈ st.2)); [by left|].
    cbn [snd] in Hin. apply elem_of_union in Hin as [->%elem_of_singleton|]; [|by left].
    right. exists a'. apply elem_of_cons. by left.
  - right. exists a. apply elem_of_cons. by right.
Qed.

Lemma insert_alert_perm a (l : list LowAlert) : insert_alert a l ≡ₚ a :: l.
Proof.
  induction l as [|b l IH]; [done|]. simpl. destruct (alert_key_le a b); [done|].
  rewrite IH. apply Permutation_swap.
Qed.

Lemma sorted_alerts_perm (l : list LowAlert) : sorted_alerts l ≡ₚ l.
Proof.
  induction l as [|a l IH]; [done|]. cbn. by rewrite insert_alert_perm, IH.
Qed.

Lemma candidates_device toner_threshold fuser_threshold (records : list PrinterRecord)
    P k a :
  Forall (fun r => printer_id r <> P) records ->
  (k, a) ∈ flat_map (candidates toner_threshold fuser_threshold) records ->
  alert_printer_id a <> P /\ k.1.1 <> P.
Proof.
  intros Hall Hin. apply list_elem_of_In, in_flat_map in Hin as (r & Hr & Hin).
  apply list_elem_of_In in Hr, Hin. rewrite Forall_forall in Hall.
  specialize (Hall r Hr). by destruct (candidates_inv _ _ _ _ _ Hin).
Qed.

Lemma filter_key_none (key : dedupe_key) s :
  (forall k a, (k, a) ∈ s -> k <> key) -> filter (fun ka => ka.1 = key) s = [].
Proof.
  induction s as [|[k a] s IH]; intros Hs; [done|].
  rewrite filter_cons_False; [apply IH|].
  - intros k' a' Hin. apply (Hs k' a'). apply elem_of_cons. by right.
  - apply (Hs k a). apply elem_of_cons. by left.
Qed.

Lemma toner_item_not_fuser channel :
  channel ∈ ["k"; "c"; "m"; "y"] ->
  default "" (COLOR_MAP !! channel) +:+ " Toner" <> "Fuser".
Proof.
  rewrite !elem_of_cons. intros [->|[->|[->|[->|Hin]]]]; [done..|].
  by apply elem_of_nil in Hin.
Qed.

Lemma keyword_rules_inv word it reason :
  (word, it, reason) ∈ keyword_rules ->
  (it = "Toner" /\ reason = "status message reports low toner")
  \/ (it = "Ink" /\ reason = "status message reports low ink")
  \/ (word = "fuser" /\ it = "Fuser" /\ reason = fuser_reason).
Proof.
  unfold keyword_rules. rewrite !elem_of_cons.
  intros [[= -> -> ->]|[[= -> -> ->]|[[= -> -> ->]|Hin]]]; [tauto..|].
  by apply elem_of_nil in Hin.
Qed.

Lemma threshold_source_not_reason threshold : threshold_source threshold <> fuser_reason.
Proof. unfold threshold_source, fuser_reason. simpl. discriminate. Qed.

(** The key of a threshold alert for the fuser, and of a keyword alert for
    it, told from the alert itself. *)
Lemma fuser_level_key toner_threshold fuser_threshold r P k a :
  candidate_of toner_threshold fuser_threshold r k a ->
  k = (P, "Fuser", "level")
  <-> (source a <> fuser_reason /\ alert_printer_id a = P /\ item a = "Fuser").
Proof.
  intros [channel lvl Hch _ _ | lvl _ _ | word it reason Hrule _]; cbn.
  - apply toner_item_not_fuser in Hch. split; [intros [= _ ?]|intros (_ & _ & ?)]; done.
  - split.
    + intros [= ->]. split; [apply threshold_source_not_reason | done].
    + by intros (_ & -> & _).
  - apply keyword_rules_inv in Hrule as [[-> ->]|[[-> ->]|(_ & -> & ->)]];
      (split; [intros [= _ ?]|intros (? & _ & ?)]; done).
Qed.

Lemma fuser_keyword_key toner_threshold fuser_threshold r P k a :
  candidate_of toner_threshold fuser_threshold r k a ->
  k = (P, "Fuser", fuser_reason)
  <-> (source a = fuser_reason /\ alert_printer_id a = P /\ item a = "Fuser").
Proof.
  intros [channel lvl Hch _ _ | lvl _ _ | word it reason Hrule _]; cbn.
  - apply toner_item_not_fuser in Hch. split; [intros [= _ ?]|intros (_ & _ & ?)]; done.
  - split; [intros [= _ ?]; done|].
    intros (Hs & _ & _). by apply threshold_source_not_reason in Hs.
  - apply keyword_rules_inv in Hrule as [[-> ->]|[[-> ->]|(_ & -> & ->)]].
    + split; [intros [= _ ?]|intros (? & _ & ?)]; done.
    + split; [intros [= _ ?]|intros (? & _ & ?)]; done.
    + split; [by intros [= ->] | by intros (_ & -> & _)].
Qed.

Lemma mono_like_zero r :
  levels r !! "toner_c" = Some 0%Z ->
  levels r !! "toner_m" = Some 0%Z ->
  levels r !! "toner_y" = Some 0%Z ->
  mono_like r = true.
Proof. intros Hc Hm Hy. unfold mono_like. by rewrite Hc, Hm, Hy. Qed.

Lemma toner_candidate_skipped r toner_threshold channel :
  mono_like r = true -> channel ∈ ["c"; "m"; "y"] ->
  toner_candidate r toner_threshold channel = [].
Proof.
  intros Hmono Hch. unfold toner_candidate. by rewrite Hmono, bool_decide_eq_true_2.
Qed.

Lemma toner_candidate_black r toner_threshold lvl :
  levels r !! "toner_k" = Some lvl -> (lvl <= toner_threshold)%Z ->
  toner_candidate r toner_threshold "k"
  = [((printer_id r, "Black Toner", "level"),
      level_alert r "Black Toner" lvl toner_threshold)].
Proof.
  intros Hk Hle. unfold toner_candidate.
  change (bool_decide ("k" ∈ ["c"; "m"; "y"])) with false. rewrite andb_false_r.
  change ("toner_" +:+ "k") with "toner_k". rewrite Hk.
  by destruct (Z.leb_spec lvl toner_threshold); [|lia].
Qed.

(** What a mono-like record with black toner at 5 offers at the toner
    threshold 15: the Black Toner alert and nothing else. *)
Lemma mono_like_candidates r fuser_threshold :
  levels r !! "toner_c" = Some 0%Z ->
  levels r !! "toner_m" = Some 0%Z ->
  levels r !! "toner_y" = Some 0%Z ->
  levels r !! "toner_k" = Some 5%Z ->
  (forall v, levels r !! "fuser" = Some v -> (fuser_threshold < v)%Z) ->
  (forall rule, rule ∈ keyword_rules -> search_low rule.1.1 (status_blob r) = false) ->
  candidates 15 fuser_threshold r
  = [((printer_id r, "Black Toner", "level"), level_alert r "Black Toner" 5 15)].
Proof.
  intros Hc Hm Hy Hk Hfuser Hkw. unfold candidates.
  assert (Hf : fuser_candidate r fuser_threshold = []).
  { unfold fuser_candidate. destruct (levels r !! "fuser") as [v|] eqn:Hv; [|done].
    specialize (Hfuser v eq_refl). destruct (Z.leb_spec v fuser_threshold); [lia|done]. }
  assert (Hw : flat_map (keyword_candidate r) keyword_rules = []).
  { unfold keyword_rules. cbn [flat_map]. unfold keyword_candidate.
    rewrite !Hkw by (unfold keyword_rules; rewrite !elem_of_cons; tauto). done. }
  rewrite Hf, Hw. cbn [flat_map].
  rewrite (toner_candidate_black r 15 5) by (done || lia).
  rewrite !toner_candidate_skipped
    by (by apply mono_like_zero || (rewrite !elem_of_cons; tauto)).
  done.
Qed.

(** C5 (amended): for a record whose levels hold toner_c = toner_m =
    toner_y = 0 and toner_k = 5, whose fuser level is absent or above the
    fuser threshold, and whose status text matches no keyword rule, the
    engine with toner threshold 15 offers exactly one alert, "Black
    Toner" at "5%", and no cyan, magenta or yellow alert; when no other
    record of the scan has its device id, that alert is the only alert of
    the device in the result. *)
Theorem mono_like_black_toner_only r fuser_threshold :
  levels r !! "toner_c" = Some 0%Z ->
  levels r !! "toner_m" = Some 0%Z ->
  levels r !! "toner_y" = Some 0%Z ->
  levels r !! "toner_k" = Some 5%Z ->
  (forall v, levels r !! "fuser" = Some v -> (fuser_threshold < v)%Z) ->
  (forall rule, rule ∈ keyword_rules -> search_low rule.1.1 (status_blob r) = false) ->
  let black := level_alert r "Black Toner" 5 15 in
  (item black = "Black Toner" /\ level black = "5%"
   /\ source black = "threshold <= 15%")
  /\ (forall st,
        record_step 15 fuser_threshold st r
        = add_alert (printer_id r, "Black Toner", "level") black st)
  /\ (forall before after,
        Forall (fun r' => printer_id r' <> printer_id r) before ->
        Forall (fun r' => printer_id r' <> printer_id r) after ->
        filter (fun a => alert_printer_id a = printer_id r)
          (build_low_alerts (before ++ r :: after) 15 fuser_threshold)
        = [black]).
Proof.
  intros Hc Hm Hy Hk Hfuser Hkw black.
  pose proof (mono_like_candidates r fuser_threshold Hc Hm Hy Hk Hfuser Hkw) as Hcand.
  split; [done|]. split.
  - intros st. by rewrite record_step_offers, Hcand.
  - intros before after Hb Ha. apply Permutation_singleton_r.
    unfold build_low_alerts, collect_alerts. rewrite sorted_alerts_perm.
    rewrite collect_offers, flat_map_app. cbn [flat_map].
    rewrite !offers_app, Hcand.
    rewrite offers_others
      by (intros k a Hin; exact (proj1 (candidates_device _ _ _ _ _ _ Ha Hin))).
    rewrite offers_cons, offers_nil.
    set (stb := offers (flat_map (candidates 15 fuser_threshold) before) ([], ∅)).
    assert (Hfresh : (printer_id r, "Black Toner", "level") ∉ stb.2).
    { intros [Hin|[a Hin]]%offers_seen; [by apply not_elem_of_empty in Hin|].
      by destruct (candidates_device _ _ _ _ _ _ Hb Hin). }
    unfold add_alert. rewrite decide_False by done. cbn [fst].
    rewrite filter_app. unfold stb.
    rewrite offers_others
      by (intros k a Hin; exact (proj1 (candidates_device _ _ _ _ _ _ Hb Hin))).
    cbn [fst]. rewrite filter_nil, filter_cons_True by done. done.
Qed.

Lemma take_one_filter_key (key : dedupe_key) s a :
  (key, a) ∈ s ->
  exists a', (key, a') ∈ s
    /\ take 1 (filter (fun ka => ka.1 = key) s) = [(key, a')].
Proof.
  intros Hin.
  assert (Hf : (key, a) ∈ filter (fun ka : dedupe_key * LowAlert => ka.1 = key) s)
    by by apply list_elem_of_filter.
  destruct (filter (fun ka : dedupe_key * LowAlert => ka.1 = key) s)
    as [|[k' a'] rest] eqn:E; [by apply elem_of_nil in Hf|].
  assert (Hhd : (k', a') ∈ filter (fun ka : dedupe_key * LowAlert => ka.1 = key) s)
    by (rewrite E; apply elem_of_cons; by left).
  apply list_elem_of_filter in Hhd as [Hkey Hs]. cbn in Hkey. subst k'.
  exists a'. by split.
Qed.

Lemma stream_candidates toner_threshold fuser_threshold (records : list PrinterRecord)
    k a :
  (k, a) ∈ flat_map (candidates toner_threshold fuser_threshold) records ->
  exists r, r ∈ records /\ candidate_of toner_threshold fuser_threshold r k a.
Proof.
  intros Hin. apply list_elem_of_In, in_flat_map in Hin as (r & Hr & Hin).
  apply list_elem_of_In in Hr, Hin. exists r. split; [done|]. by apply candidates_inv.
Qed.

Lemma fuser_candidate_low r fuser_threshold lvl :
  levels r !! "fuser" = Some lvl -> (lvl <= fuser_threshold)%Z ->
  fuser_candidate r fuser_threshold
  = [((printer_id r, "Fuser", "level"), level_alert r "Fuser" lvl fuser_threshold)].
Proof.
  intros Hl Hle. unfold fuser_candidate. rewrite Hl.
  by destruct (Z.leb_spec lvl fuser_threshold); [|lia].
Qed.

Lemma toner_candidates_no_fuser r toner_threshold k (cat : string) :
  k = (printer_id r, "Fuser", cat) ->
  filter (fun ka => ka.1 = k)
    (flat_map (toner_candidate r toner_threshold) ["k"; "c"; "m"; "y"]) = [].
Proof.
  intros ->. apply filter_key_none. intros k a Hin Hk.
  apply list_elem_of_In, in_flat_map in Hin as (channel & Hch & Hin).
  apply list_elem_of_In in Hch, Hin. unfold toner_candidate in Hin.
  destruct (mono_like r && bool_decide (channel ∈ ["c"; "m"; "y"]));
    [by apply elem_of_nil in Hin|].
  destruct (levels r !! ("toner_" +:+ channel)) as [lvl|];
    [|by apply elem_of_nil in Hin].
  destruct (lvl <=? toner_threshold)%Z; [|by apply elem_of_nil in Hin].
  apply list_elem_of_singleton in Hin. injection Hin as -> ->.
  injection Hk as Hitem. by apply toner_item_not_fuser in Hch.
Qed.

(** The first alerts a record offers under the two fuser keys. *)
Lemma first_fuser_candidates toner_threshold fuser_threshold r N :
  levels r !! "fuser" = Some N -> (N <= fuser_threshold)%Z ->
  search_low "fuser" (status_blob r) = true ->
  let s := candidates toner_threshold fuser_threshold r in
  take 1 (filter (fun ka => ka.1 = (printer_id r, "Fuser", "level")) s)
  = [((printer_id r, "Fuser", "level"), level_alert r "Fuser" N fuser_threshold)]
  /\ take 1 (filter (fun ka => ka.1 = (printer_id r, "Fuser", fuser_reason)) s)
     = [((printer_id r, "Fuser", fuser_reason), keyword_alert r "Fuser" fuser_reason)].
Proof.
  intros Hl Hle Hkw s. subst s. unfold candidates.
  rewrite !filter_app, !(toner_candidates_no_fuser r toner_threshold _ _ eq_refl).
  rewrite (fuser_candidate_low r fuser_threshold N) by done.
  split.
  - by rewrite filter_cons_True by done.
  - rewrite filter_cons_False by (cbn; intros [= ?]; done).
    rewrite filter_nil. unfold keyword_rules. cbn [flat_map]. unfold keyword_candidate.
    cbn [fst snd]. rewrite Hkw.
    destruct (search_low "toner" (status_blob r));
      [rewrite filter_app, (filter_cons_False _ (_, "Toner", _, _))
         by (cbn; intros [= ?]; done)|];
      (destruct (search_low "ink" (status_blob r));
       [rewrite !filter_app, (filter_cons_False _ (_, "Ink", _, _))
          by (cbn; intros [= ?]; done)|]);
      cbn [app]; rewrite ?filter_nil; cbn [app];
      by rewrite filter_cons_True by done.
Qed.

Lemma candidate_fuser_level toner_threshold fuser_threshold r1 P a :
  candidate_of toner_threshold fuser_threshold r1 (P, "Fuser", "level") a ->
  printer_id r1 = P
  /\ exists lvl, levels r1 !! "fuser" = Some lvl /\ (lvl <= fuser_threshold)%Z
       /\ a = level_alert r1 "Fuser" lvl fuser_threshold.
Proof.
  intros Hc. remember (P, "Fuser", "level") as k eqn:Hk.
  destruct Hc as [channel lvl Hch _ _ | lvl Hlv Hlle | word it reason Hrule _].
  - apply toner_item_not_fuser in Hch. by injection Hk as _ ?.
  - injection Hk as Hp. split; [done|]. by exists lvl.
  - injection Hk as Hp -> ->.
    by apply keyword_rules_inv in Hrule as [[_ ?]|[[_ ?]|(_ & _ & ?)]].
Qed.

Lemma candidate_fuser_keyword toner_threshold fuser_threshold r2 P a :
  candidate_of toner_threshold fuser_threshold r2 (P, "Fuser", fuser_reason) a ->
  printer_id r2 = P /\ a = keyword_alert r2 "Fuser" fuser_reason.
Proof.
  intros Hc. remember (P, "Fuser", fuser_reason) as k eqn:Hk.
  destruct Hc as [channel lvl Hch _ _ | lvl Hlv Hlle | word it reason Hrule _].
  - apply toner_item_not_fuser in Hch. by injection Hk as _ ?.
  - by injection Hk as _ ?.
  - by injection Hk as Hp -> ->.
Qed.

Lemma take_one_elem {A} (x : A) (l : list A) : take 1 l = [x] -> x ∈ l.
Proof. destruct l as [|y l]; [done|]. intros [= ->]. apply elem_of_cons. by left. Qed.

Lemma take_one_filter_app (key : dedupe_key) s1 s2 :
  filter (fun ka => ka.1 = key) s1 = [] ->
  take 1 (filter (fun ka => ka.1 = key) (s1 ++ s2))
  = take 1 (filter (fun ka => ka.1 = key) s2).
Proof. intros Hnone. by rewrite filter_app, Hnone. Qed.

Lemma take_one_filter_app_l (key : dedupe_key) s1 s2 x :
  take 1 (filter (fun ka => ka.1 = key) s1) = [x] ->
  take 1 (filter (fun ka => ka.1 = key) (s1 ++ s2)) = [x].
Proof.
  intros Hx. rewrite filter_app.
  destruct (filter (fun ka : dedupe_key * LowAlert => ka.1 = key) s1); [done|].
  by simpl in *.
Qed.

(** C6: a record whose fuser level is present and at or below the fuser
    threshold and whose lower-cased status text matches "low fuser" makes
    the engine return exactly two alerts with item "Fuser" for its
    device: one threshold alert, with a level of the form "N%", and one
    keyword alert, with the level "reported".  The deduplication keys of
    the two differ in their last component ("level" against the reason),
    so neither hides the other, and each is kept once however many
    records of the device offer it; when no earlier record has the
    device id, both alerts are those of this record. *)
Theorem fuser_level_and_keyword_alerts records toner_threshold fuser_threshold r N :
  r ∈ records ->
  levels r !! "fuser" = Some N ->
  (N <= fuser_threshold)%Z ->
  search_low "fuser" (status_blob r) = true ->
  exists a_level a_keyword : LowAlert,
    filter (fun a => alert_printer_id a = printer_id r /\ item a = "Fuser")
      (build_low_alerts records toner_threshold fuser_threshold)
    ≡ₚ [a_level; a_keyword]
    /\ (exists r1 N1,
          r1 ∈ records /\ printer_id r1 = printer_id r
          /\ levels r1 !! "fuser" = Some N1 /\ (N1 <= fuser_threshold)%Z
          /\ a_level = level_alert r1 "Fuser" N1 fuser_threshold
          /\ level a_level = Text.str_of_Z N1 +:+ "%")
    /\ (exists r2,
          r2 ∈ records /\ printer_id r2 = printer_id r
          /\ a_keyword = keyword_alert r2 "Fuser" fuser_reason
          /\ level a_keyword = "reported")
    /\ (printer_id r, "Fuser", "level") <> (printer_id r, "Fuser", fuser_reason)
    /\ (forall before after,
          records = before ++ r :: after ->
          Forall (fun r' => printer_id r' <> printer_id r) before ->
          a_level = level_alert r "Fuser" N fuser_threshold
          /\ a_keyword = keyword_alert r "Fuser" fuser_reason).
Proof.
  intros Hr Hl Hle Hkw.
  set (P := printer_id r).
  set (stream := flat_map (candidates toner_threshold fuser_threshold) records).
  destruct (first_fuser_candidates toner_threshold fuser_threshold r N Hl Hle Hkw)
    as [HrL HrK]. fold P in HrL, HrK.
  assert (Hsub : forall ka, ka ∈ candidates toner_threshold fuser_threshold r ->
                   ka ∈ stream).
  { intros ka Hin. apply list_elem_of_In, in_flat_map. exists r.
    by split; apply list_elem_of_In. }
  assert (HinL : ((P, "Fuser", "level"), level_alert r "Fuser" N fuser_threshold)
                 ∈ stream).
  { apply Hsub. eapply (list_elem_of_filter (fun ka => ka.1 = (P, "Fuser", "level"))).
    apply take_one_elem, HrL. }
  assert (HinK : ((P, "Fuser", fuser_reason), keyword_alert r "Fuser" fuser_reason)
                 ∈ stream).
  { apply Hsub. eapply (list_elem_of_filter (fun ka => ka.1 = (P, "Fuser", fuser_reason))).
    apply take_one_elem, HrK. }
  destruct (take_one_filter_key _ _ _ HinL) as (aL & HaL & HtL).
  destruct (take_one_filter_key _ _ _ HinK) as (aK & HaK & HtK).
  exists aL, aK. split; [|split; [|split; [|split]]].
  - unfold build_low_alerts, collect_alerts. rewrite sorted_alerts_perm.
    rewrite collect_offers. fold stream.
    rewrite <- (filter_app_complement (fun a => source a = fuser_reason)
                  (filter _ (offers stream ([], ∅)).1)).
    rewrite !list_filter_filter.
    rewrite (offers_key (P, "Fuser", fuser_reason)
               (fun a => source a = fuser_reason
                         /\ alert_printer_id a = P /\ item a = "Fuser")).
    2:{ intros k a (r' & _ & Hc)%stream_candidates.
        by eapply fuser_keyword_key. }
    rewrite (offers_key (P, "Fuser", "level")
               (fun a => source a <> fuser_reason
                         /\ alert_printer_id a = P /\ item a = "Fuser")).
    2:{ intros k a (r' & _ & Hc)%stream_candidates.
        by eapply fuser_level_key. }
    cbn [fst snd]. rewrite !decide_False by apply not_elem_of_empty.
    rewrite HtL, HtK. cbn. apply Permutation_swap.
  - apply stream_candidates in HaL as (r1 & Hr1 & Hc).
    apply candidate_fuser_level in Hc as (Hp & lvl & Hlv & Hlle & ->).
    exists r1, lvl. by repeat split.
  - apply stream_candidates in HaK as (r2 & Hr2 & Hc).
    apply candidate_fuser_keyword in Hc as (Hp & ->).
    exists r2. by repeat split.
  - by intros [= ?].
  - intros before after -> Hb.
    assert (Hnone : forall cat : string,
              filter (fun ka : dedupe_key * LowAlert => ka.1 = (P, "Fuser", cat))
                (flat_map (candidates toner_threshold fuser_threshold) before) = []).
    { intros cat. apply filter_key_none. intros k a Hin ->.
      by destruct (candidates_device _ _ _ _ _ _ Hb Hin). }
    unfold stream in HtL, HtK. rewrite flat_map_app in HtL, HtK.
    cbn [flat_map] in HtL, HtK.
    rewrite take_one_filter_app in HtL, HtK by apply Hnone.
    rewrite (take_one_filter_app_l _ _ _ _ HrL) in HtL.
    rewrite (take_one_filter_app_l _ _ _ _ HrK) in HtK.
    injection HtL as ->. injection HtK as ->. done.
Qed.
End Alerts.

(** ** Tray labels *)

(** C3 (amended): normalization maps "tray07" to "Tray 7" and "TRAY-B" to
    "Tray -B" (the hyphen is a character of the token and stays), and
    every input of which stripping leaves nothing to "Unknown Tray". *)
Theorem normalize_tray_labels :
  normalize_tray "tray07" = inr "Tray 7"
  /\ normalize_tray "TRAY-B" = inr "Tray -B"
  /\ forall value, tray_token value = "" -> normalize_tray value = inr "Unknown Tray".
Proof.
  split; [reflexivity|]. split; [reflexivity|].
  intros value Hempty. unfold normalize_tray. by rewrite Hempty.
Qed.

Lemma normalize_tray_labels_witness :
  tray_token " ?_/ " = "" /\ normalize_tray " ?_/ " = inr "Unknown Tray".
Proof.
  split; [reflexivity|]. by apply (proj2 (proj2 normalize_tray_labels)).
Defined.

(** Against C3 as the specification words it: the label of "TRAY-B"
    keeps the hyphen. *)
Lemma normalize_tray_keeps_hyphen :
  normalize_tray "TRAY-B" = inr "Tray -B" /\ normalize_tray "TRAY-B" <> inr "Tray B".
Proof. split; [reflexivity|]. by intros [=]. Qed.

(** ** The tail metric extractor *)

Lemma digits_then_boundary_token k s m :
  1 <= k <= 3 -> digits_then_boundary k s = Some m -> number_token m.
Proof.
  intros Hk. unfold digits_then_boundary.
  destruct (String.length (substring 0 k s) =? k)%nat eqn:Hlen; [|done].
  destruct (Text.all_chars Text.is_digit (substring 0 k s)) eqn:Hd; [|done].
  destruct (Text.boundary_after_word _); [|done].
  intros [= <-]. apply Nat.eqb_eq in Hlen. split; [lia|done].
Qed.

Lemma match_number_token prev s m : match_number prev s = Some m -> number_token m.
Proof.
  unfold match_number. destruct (Text.boundary_before_word prev); [|done].
  destruct (digits_then_boundary 3 s) eqn:E3.
  { intros [= <-]. eapply (digits_then_boundary_token 3); [lia|done]. }
  destruct (digits_then_boundary 2 s) eqn:E2.
  { intros [= <-]. eapply (digits_then_boundary_token 2); [lia|done]. }
  intros E1. eapply (digits_then_boundary_token 1); [lia|done].
Qed.

Lemma findall_numbers_tokens s : Forall number_token (findall_numbers s).
Proof.
  unfold findall_numbers. generalize 0 (@None ascii).
  induction s as [|c s IH]; intros skip prev; [constructor|].
  cbn [findall_numbers_from]. destruct skip as [|skip]; [|apply IH].
  destruct (match_number prev (String c s)) as [m|] eqn:Hm; [|apply IH].
  apply Forall_cons. split; [by eapply match_number_token | apply IH].
Qed.

Lemma last_ten_length (numbers : list Z) :
  10 <= length numbers -> length (last_ten numbers) = 10.
Proof. intros Hlen. unfold last_ten. rewrite length_drop. lia. Qed.

Lemma forallb_in_range (l : list Z) :
  forallb in_range l = true <-> Forall (fun v => 0 <= v <= 100)%Z l.
Proof.
  rewrite forallb_forall, Forall_forall. unfold in_range.
  split; intros Hl v Hv.
  - apply list_elem_of_In, Hl in Hv. lia.
  - apply list_elem_of_In, Hl in Hv. lia.
Qed.

(** ** The tail levels over any alphabet *)

Section LevelsFacts.
Context `{AnyText.Alphabet char}.

(** A digit is a word character, as [\d] and [\w] are in Python. *)
Hypothesis digit_is_word :
  forall c : char, AnyText.is_digit c = true -> AnyText.is_word c = true.

Lemma first_word_skip_word (s : list char) :
  s = AnyText.first_word s ++ AnyText.skip_word s.
Proof.
  induction s as [|c s IH]; [done|]. cbn [AnyText.first_word AnyText.skip_word].
  destruct (AnyText.is_word c); [|done]. cbn [app]. by f_equal.
Qed.

Lemma skip_word_head (s : list char) :
  AnyText.word_side (head (AnyText.skip_word s)) = false.
Proof.
  induction s as [|c s IH]; [done|]. cbn [AnyText.skip_word].
  destruct (AnyText.is_word c) eqn:Hc; [done|]. cbn. exact Hc.
Qed.

Lemma skip_word_not_word (s : list char) :
  AnyText.word_side (head s) = false -> AnyText.skip_word s = s.
Proof. destruct s as [|c s]; [done|]. cbn. by intros ->. Qed.

Lemma first_word_not_word (s : list char) :
  AnyText.word_side (head s) = false -> AnyText.first_word s = [].
Proof. destruct s as [|c s]; [done|]. cbn. by intros ->. Qed.

Lemma skip_word_idemp (s : list char) :
  AnyText.skip_word (AnyText.skip_word s) = AnyText.skip_word s.
Proof. apply skip_word_not_word, skip_word_head. Qed.

Lemma skip_word_length (s : list char) : length (AnyText.skip_word s) <= length s.
Proof.
  induction s as [|c s IH]; [done|]. cbn [AnyText.skip_word].
  destruct (AnyText.is_word c); cbn [length]; lia.
Qed.

Lemma first_word_all (s : list char) :
  forallb AnyText.is_word (AnyText.first_word s) = true.
Proof.
  induction s as [|c s IH]; [done|]. cbn [AnyText.first_word].
  destruct (AnyText.is_word c) eqn:Hc; [|done]. cbn. by rewrite Hc.
Qed.

(** The words of a text: the word it starts with, then the words of
    what follows that word. *)
Lemma words_from_first (s : list char) : forall current,
  AnyText.words_from current s
  = match current ++ AnyText.first_word s with
    | [] => []
    | w => [w]
    end ++ AnyText.words_from [] (AnyText.skip_word s).
Proof.
  induction s as [|c s IH]; intros current;
    cbn [AnyText.words_from AnyText.first_word AnyText.skip_word].
  - rewrite !app_nil_r. by destruct current.
  - destruct (AnyText.is_word c) eqn:Hc.
    + rewrite IH. by rewrite <- app_assoc.
    + rewrite !app_nil_r. cbn [AnyText.words_from]. rewrite Hc. by destruct current.
Qed.

Lemma words_from_not_word c (s : list char) :
  AnyText.is_word c = false -> AnyText.words_from [] (c :: s) = AnyText.words_from [] s.
Proof. intros Hc. simpl. by rewrite Hc. Qed.

Lemma skip_word_cons c (s : list char) :
  AnyText.skip_word (c :: s) = if AnyText.is_word c then AnyText.skip_word s else c :: s.
Proof. reflexivity. Qed.

Lemma first_word_cons c (s : list char) :
  AnyText.first_word (c :: s) = if AnyText.is_word c then c :: AnyText.first_word s else [].
Proof. reflexivity. Qed.

(** [\d{k}\b] by its first character. *)
Lemma digits_then_boundary_cons k c (s : list char) :
  AnyText.digits_then_boundary (S k) (c :: s)
  = if AnyText.is_digit c then
      match k with
      | O => if AnyText.word_side (head s) then None else Some [c]
      | S _ => (cons c) <$> AnyText.digits_then_boundary k s
      end
    else None.
Proof.
  unfold AnyText.digits_then_boundary. cbn [take drop length forallb].
  destruct (AnyText.is_digit c) eqn:Hd; [|by rewrite andb_false_r].
  destruct k as [|k].
  - rewrite take_0, drop_0. unfold AnyText.boundary. cbn.
    rewrite (digit_is_word c Hd). by destruct (AnyText.word_side (head s)).
  - cbn [Nat.eqb andb]. destruct s as [|c' s]; [done|].
    cbn [take drop length forallb].
    change (last (c :: c' :: take k s)) with (last (c' :: take k s)).
    by destruct (_ && _ && _).
Qed.

(** [\d{k}\b] matches exactly the word the text starts with, when it has
    [k] characters, all digits. *)
Lemma digits_then_boundary_word k : forall (s : list char),
  AnyText.digits_then_boundary (S k) s
  = if (length (AnyText.first_word s) =? S k)%nat
       && forallb AnyText.is_digit (AnyText.first_word s)
    then Some (AnyText.first_word s) else None.
Proof.
  induction k as [|k IH]; intros [|c s].
  - done.
  - rewrite digits_then_boundary_cons. cbn [AnyText.first_word].
    destruct (AnyText.is_digit c) eqn:Hd.
    + rewrite (digit_is_word c Hd). cbn [length forallb]. rewrite Hd.
      destruct s as [|c' s]; [done|]. cbn [head AnyText.word_side AnyText.first_word].
      by destruct (AnyText.is_word c').
    + destruct (AnyText.is_word c); [|done]. cbn [forallb]. by rewrite Hd, andb_false_r.
  - done.
  - rewrite digits_then_boundary_cons, IH. cbn [AnyText.first_word].
    destruct (AnyText.is_digit c) eqn:Hd.
    + rewrite (digit_is_word c Hd). cbn [length forallb]. rewrite Hd.
      cbn [Nat.eqb andb]. by destruct (_ && _).
    + destruct (AnyText.is_word c); [|done]. cbn [forallb]. by rewrite Hd, andb_false_r.
Qed.

Lemma match_number_word prev (s : list char) :
  AnyText.match_number prev s
  = if AnyText.boundary prev s && AnyText.number_word (AnyText.first_word s)
    then Some (AnyText.first_word s) else None.
Proof.
  unfold AnyText.match_number, AnyText.number_word.
  destruct (AnyText.boundary prev s); [|done].
  rewrite !digits_then_boundary_word. cbn [andb].
  destruct (forallb AnyText.is_digit (AnyText.first_word s)); [|by rewrite !andb_false_r].
  rewrite !andb_true_r.
  by destruct (length (AnyText.first_word s)) as [|[|[|[|n]]]].
Qed.

Lemma findall_numbers_skip (u r : list char) : forall prev,
  AnyText.findall_numbers_from (length u) prev (u ++ r)
  = AnyText.findall_numbers_from 0 (from_option Some prev (last u)) r.
Proof.
  induction u as [|a u IH]; intros prev; [done|].
  cbn [length app AnyText.findall_numbers_from]. rewrite IH, last_cons.
  by destruct (last u).
Qed.

Lemma last_first_word c (s : list char) :
  AnyText.is_word c = true ->
  AnyText.word_side (from_option Some (Some c) (last (AnyText.first_word s))) = true.
Proof.
  intros Hc. pose proof (first_word_all s) as Hall.
  destruct (last (AnyText.first_word s)) as [a|] eqn:Hlast; [|done]. cbn.
  apply last_Some in Hlast as [l Hl]. rewrite Hl, forallb_app in Hall.
  apply andb_prop in Hall as [_ Ha]. cbn in Ha. by rewrite andb_true_r in Ha.
Qed.

(** The scan from a position: the number words among the words from
    there on, the rest of a word under way left out. *)
Lemma findall_numbers_from_words n : forall (s : list char) prev,
  length s <= n ->
  AnyText.findall_numbers_from 0 prev s
  = filter (fun w => AnyText.number_word w = true)
      (AnyText.words_from []
         (if AnyText.word_side prev then AnyText.skip_word s else s)).
Proof.
  induction n as [|n IH]; intros [|c s] prev Hlen; cbn [length] in Hlen; try lia.
  - by destruct (AnyText.word_side prev).
  - by destruct (AnyText.word_side prev).
  - cbn [AnyText.findall_numbers_from]. rewrite match_number_word.
    unfold AnyText.boundary. cbn [head].
    change (AnyText.word_side (Some c)) with (AnyText.is_word c).
    rewrite first_word_cons, skip_word_cons.
    destruct (AnyText.word_side prev) eqn:Hprev.
    + destruct (AnyText.is_word c) eqn:Hc; cbn [xorb andb].
      * rewrite IH by lia.
        change (AnyText.word_side (Some c)) with (AnyText.is_word c). by rewrite Hc.
      * change (AnyText.number_word (@nil char)) with false. rewrite IH by lia.
        change (AnyText.word_side (Some c)) with (AnyText.is_word c).
        by rewrite Hc, words_from_not_word.
    + destruct (AnyText.is_word c) eqn:Hc; cbn [xorb andb].
      * rewrite (words_from_first (c :: s)).
        rewrite first_word_cons, skip_word_cons, Hc. cbn [app].
        destruct (AnyText.number_word (c :: AnyText.first_word s)) eqn:Hnumber.
        -- rewrite filter_cons_True by done. f_equal.
           replace (length (c :: AnyText.first_word s) - 1)
             with (length (AnyText.first_word s)) by (cbn [length]; lia).
           pose proof (findall_numbers_skip (AnyText.first_word s) (AnyText.skip_word s)
                         (Some c)) as Hskip.
           rewrite <- first_word_skip_word in Hskip. rewrite Hskip.
           rewrite IH by (pose proof (skip_word_length s); lia).
           by rewrite last_first_word, skip_word_idemp.
        -- rewrite filter_cons_False by by rewrite Hnumber.
           rewrite IH by lia.
           change (AnyText.word_side (Some c)) with (AnyText.is_word c). by rewrite Hc.
      * rewrite IH by lia.
        change (AnyText.word_side (Some c)) with (AnyText.is_word c).
        by rewrite Hc, words_from_not_word.
Qed.

(** The tokens [re.findall] collects are the words of one to three
    digits, each once and in the order of the text. *)
Lemma findall_numbers_words (s : list char) :
  AnyText.findall_numbers s
  = filter (fun w => AnyText.number_word w = true) (AnyText.words s).
Proof.
  unfold AnyText.findall_numbers, AnyText.words.
  by rewrite (findall_numbers_from_words (length s)).
Qed.

End LevelsFacts.

(** ** The extractor on a [string] is the extractor over the ASCII
       alphabet *)

Lemma ascii_digit_is_word (c : ascii) :
  AnyText.is_digit c = true -> AnyText.is_word c = true.
Proof.
  cbn. unfold Text.is_word. intros ->. by rewrite orb_true_r.
Qed.

Lemma chars_length (s : string) : length (chars s) = String.length s.
Proof. unfold chars. induction s as [|c s IH]; [done|]. cbn. by rewrite IH. Qed.

Lemma chars_all p (s : string) : forallb p (chars s) = Text.all_chars p s.
Proof. unfold chars. induction s as [|c s IH]; [done|]. cbn. by rewrite IH. Qed.

Lemma chars_take k : forall s : string, chars (String.substring 0 k s) = take k (chars s).
Proof.
  unfold chars. induction k as [|k IH]; intros [|c s]; try done. cbn. by rewrite IH.
Qed.

Lemma chars_drop k : forall s : string,
  chars (String.substring k (String.length s - k) s) = drop k (chars s).
Proof.
  induction k as [|k IH]; intros s.
  - rewrite Nat.sub_0_r, chars_take, <- chars_length. apply firstn_all.
  - destruct s as [|c s]; [done|].
    cbn [String.length Nat.sub String.substring drop chars list_ascii_of_string].
    apply IH.
Qed.

Lemma chars_inj (a b : string) : chars a = chars b -> a = b.
Proof.
  intros Hab. rewrite <- (string_of_list_ascii_of_string a),
    <- (string_of_list_ascii_of_string b). unfold chars in Hab. by rewrite Hab.
Qed.

Lemma boundary_after_word_chars (s : string) :
  Text.boundary_after_word s = negb (AnyText.word_side (head (chars s))).
Proof. by destruct s. Qed.

Lemma digits_then_boundary_chars k (s : string) :
  chars <$> digits_then_boundary (S k) s = AnyText.digits_then_boundary (S k) (chars s).
Proof.
  unfold digits_then_boundary, AnyText.digits_then_boundary. cbn zeta.
  rewrite <- chars_length, chars_take, <- chars_all, chars_take.
  rewrite boundary_after_word_chars, chars_drop.
  destruct (Nat.eqb_spec (length (take (S k) (chars s))) (S k)) as [Hlen|];
    [|reflexivity].
  change (@AnyText.is_digit ascii ascii_alphabet) with Text.is_digit.
  destruct (forallb Text.is_digit (take (S k) (chars s))) eqn:Hall; [|reflexivity].
  cbn [andb].
  assert (Hlast : AnyText.word_side (last (take (S k) (chars s))) = true).
  { destruct (last (take (S k) (chars s))) as [a|] eqn:Hl.
    - apply last_Some in Hl as [l Hl]. rewrite Hl, forallb_app in Hall.
      apply andb_prop in Hall as [_ Ha]. cbn in Ha. rewrite andb_true_r in Ha.
      by apply ascii_digit_is_word.
    - apply last_None in Hl. by rewrite Hl in Hlen. }
  unfold AnyText.boundary. rewrite Hlast.
  destruct (AnyText.word_side (head (drop (S k) (chars s)))); [reflexivity|].
  cbn [andb negb xorb fmap option_fmap option_map]. by rewrite chars_take.
Qed.

Lemma match_number_chars prev (s : string) :
  chars <$> match_number prev s = AnyText.match_number prev (chars s).
Proof.
  unfold match_number, AnyText.match_number.
  pose proof (digits_then_boundary_chars 2 s) as H3.
  pose proof (digits_then_boundary_chars 1 s) as H2.
  pose proof (digits_then_boundary_chars 0 s) as H1.
  assert (Hnone : AnyText.word_side (head (chars s)) = false ->
            forall k, AnyText.digits_then_boundary (S k) (chars s) = None).
  { intros Hhead k.
    by rewrite (digits_then_boundary_word ascii_digit_is_word),
      (first_word_not_word _ Hhead). }
  unfold AnyText.boundary.
  destruct prev as [p|]; cbn [Text.boundary_before_word AnyText.word_side].
  - change (@AnyText.is_word ascii ascii_alphabet p) with (Text.is_word p).
    destruct (Text.is_word p); cbn [negb xorb].
    + destruct (AnyText.word_side (head (chars s))) eqn:Hhead; [reflexivity|].
      cbn [negb]. by rewrite !Hnone.
    + destruct (AnyText.word_side (head (chars s))) eqn:Hhead.
      * rewrite <- H3, <- H2, <- H1.
        by destruct (digits_then_boundary 3 s), (digits_then_boundary 2 s).
      * rewrite (Hnone eq_refl 2) in H3. rewrite (Hnone eq_refl 1) in H2.
        rewrite (Hnone eq_refl 0) in H1.
        by destruct (digits_then_boundary 3 s), (digits_then_boundary 2 s),
          (digits_then_boundary 1 s).
  - destruct (AnyText.word_side (head (chars s))) eqn:Hhead.
    + rewrite <- H3, <- H2, <- H1.
      by destruct (digits_then_boundary 3 s), (digits_then_boundary 2 s).
    + rewrite (Hnone eq_refl 2) in H3. rewrite (Hnone eq_refl 1) in H2.
      rewrite (Hnone eq_refl 0) in H1.
      by destruct (digits_then_boundary 3 s), (digits_then_boundary 2 s),
        (digits_then_boundary 1 s).
Qed.

Lemma findall_numbers_from_chars (s : string) : forall skip prev,
  chars <$> findall_numbers_from skip prev s
  = AnyText.findall_numbers_from skip prev (chars s).
Proof.
  induction s as [|c s IH]; intros skip prev; [done|].
  cbn [findall_numbers_from chars list_ascii_of_string AnyText.findall_numbers_from].
  destruct skip as [|skip]; [|apply IH].
  pose proof (match_number_chars prev (String c s)) as Hm.
  cbn [chars list_ascii_of_string] in Hm. rewrite <- Hm.
  destruct (match_number prev (String c s)) as [m|]; cbn [fmap option_fmap option_map].
  - rewrite fmap_cons, chars_length. f_equal. apply IH.
  - apply IH.
Qed.

Lemma int_of_chars (value : string) : AnyText.int_of (chars value) = Text.int_of value.
Proof.
  unfold AnyText.int_of, Text.int_of, chars. generalize 0%N.
  induction value as [|c value IH]; intros acc; [done|]. cbn. apply IH.
Qed.

(** The levels [parse_tail_metrics] reads from a [string] are the levels
    read from its characters over the ASCII alphabet. *)
Lemma parse_tail_metrics_chars (row_tail : string) :
  (parse_tail_metrics row_tail).1 = AnyText.tail_levels (chars row_tail).
Proof.
  unfold parse_tail_metrics, AnyText.tail_levels. cbn [fst]. cbn zeta.
  assert (Hnumbers : AnyText.tail_numbers (chars row_tail) = tail_numbers row_tail).
  { unfold AnyText.tail_numbers, tail_numbers, AnyText.findall_numbers, findall_numbers.
    rewrite <- findall_numbers_from_chars, <- list_fmap_compose.
    apply list_fmap_ext. intros i value _. cbn. by rewrite int_of_chars. }
  by rewrite Hnumbers.
Qed.

(** C4: for every tail (a text over any alphabet whose digits are word
    characters, as those of a Python [str] are), the extractor collects
    exactly the words of one to three digits, each once and in the order
    of the text, and reads them as numbers; when there are at least ten
    of them and the last ten all lie in [0,100], it assigns those ten,
    in order, to toner_k, toner_c, toner_m, toner_y, drum_k, drum_c,
    drum_m, drum_y, belt and fuser; when there are fewer than ten, or
    one of the last ten is out of range, the levels are empty.  On a
    [string], the levels [parse_tail_metrics] returns are those of this
    extractor over the ASCII alphabet. *)
Theorem parse_tail_metrics_levels `{AnyText.Alphabet char} (row_tail : list char) :
  (forall c : char, AnyText.is_digit c = true -> AnyText.is_word c = true) ->
  let tokens := AnyText.findall_numbers row_tail in
  let numbers := AnyText.tail_numbers row_tail in
  let levels := AnyText.tail_levels row_tail in
  tokens = filter (fun w => AnyText.number_word w = true) (AnyText.words row_tail)
  /\ numbers = (fun t => Z.of_N (AnyText.int_of t)) <$> tokens
  /\ (10 <= length numbers ->
      Forall (fun v => 0 <= v <= 100)%Z (last_ten numbers) ->
      exists tk tc tm ty dk dc dm dy belt fuser,
        last_ten numbers = [tk; tc; tm; ty; dk; dc; dm; dy; belt; fuser]
        /\ levels
           = list_to_map
               [ ("toner_k", tk); ("toner_c", tc); ("toner_m", tm); ("toner_y", ty);
                 ("drum_k", dk); ("drum_c", dc); ("drum_m", dm); ("drum_y", dy);
                 ("belt", belt); ("fuser", fuser) ])
  /\ (length numbers < 10
      \/ ~ Forall (fun v => 0 <= v <= 100)%Z (last_ten numbers) ->
      levels = ∅)
  /\ (forall tail : string,
        (parse_tail_metrics tail).1
        = @AnyText.tail_levels ascii ascii_alphabet (chars tail)).
Proof.
  intros Hdigit tokens numbers lvls.
  split; [by apply findall_numbers_words|]. split; [done|].
  apply and_assoc. split; [|intros tail; apply parse_tail_metrics_chars].
  subst lvls. unfold AnyText.tail_levels. cbn zeta. fold numbers. split.
  - intros Hlen Hrange. apply Nat.leb_le in Hlen as Hlen'. rewrite Hlen'.
    apply forallb_in_range in Hrange as Hrange'. rewrite Hrange'.
    pose proof (last_ten_length numbers Hlen) as Hten.
    destruct (last_ten numbers) as [|tk [|tc [|tm [|ty [|dk [|dc [|dm [|dy
      [|belt [|fuser [|extra rest]]]]]]]]]]]; try discriminate Hten.
    by exists tk, tc, tm, ty, dk, dc, dm, dy, belt, fuser.
  - intros [Hshort|Hout].
    + destruct (Nat.leb_spec 10 (length numbers)); [lia|done].
    + destruct (10 <=? length numbers)%nat; [|done].
      destruct (forallb in_range (last_ten numbers)) eqn:Hall; [|done].
      by apply forallb_in_range in Hall.
Qed.

(** ** Closed instances of the parsing and alert properties *)

Lemma parse_tail_metrics_levels_witness :
  (forall c : ascii, AnyText.is_digit c = true -> AnyText.is_word c = true)
  /\ 10 <= length (AnyText.tail_numbers (chars sample_tail))
  /\ Forall (fun v => 0 <= v <= 100)%Z
       (last_ten (AnyText.tail_numbers (chars sample_tail)))
  /\ AnyText.tail_levels (chars sample_tail) !! "toner_k" = Some 100%Z
  /\ AnyText.tail_levels (chars sample_tail) !! "fuser" = Some 91%Z
  /\ (parse_tail_metrics sample_tail).1 !! "fuser" = Some 91%Z
  /\ length (AnyText.tail_numbers (chars "HP 4 7")) < 10
  /\ AnyText.tail_levels (chars "HP 4 7") = ∅.
Proof.
  assert (Hlen : 10 <= length (AnyText.tail_numbers (chars sample_tail)))
    by (apply Nat.leb_le; reflexivity).
  assert (Hrange : Forall (fun v => 0 <= v <= 100)%Z
            (last_ten (AnyText.tail_numbers (chars sample_tail))))
    by (apply forallb_in_range; reflexivity).
  assert (Hshort : length (AnyText.tail_numbers (chars "HP 4 7")) < 10)
    by (apply Nat.ltb_lt; reflexivity).
  split; [apply ascii_digit_is_word|]. split; [done|]. split; [done|].
  destruct (proj1 (proj2 (proj2
              (parse_tail_metrics_levels (chars sample_tail) ascii_digit_is_word)))
              Hlen Hrange)
    as (tk & tc & tm & ty & dk & dc & dm & dy & belt & fuser & Hten & Hlevels).
  injection Hten as <- <- <- <- <- <- <- <- <- <-.
  rewrite parse_tail_metrics_chars, Hlevels.
  split; [reflexivity|]. split; [reflexivity|]. split; [reflexivity|]. split; [done|].
  apply (proj1 (proj2 (proj2 (proj2
           (parse_tail_metrics_levels (chars "HP 4 7") ascii_digit_is_word))))).
  by left.
Defined.

(** Against C5 as the specification words it: a record with the stated
    toner levels and no keyword phrase, whose fuser level is at or below
    the fuser threshold, gets two alerts, not one. *)
Lemma mono_like_with_low_fuser_two_alerts :
  levels mono_record_low_fuser !! "toner_c" = Some 0%Z
  /\ levels mono_record_low_fuser !! "toner_m" = Some 0%Z
  /\ levels mono_record_low_fuser !! "toner_y" = Some 0%Z
  /\ levels mono_record_low_fuser !! "toner_k" = Some 5%Z
  /\ search_low "toner" (status_blob mono_record_low_fuser) = false
  /\ search_low "ink" (status_blob mono_record_low_fuser) = false
  /\ search_low "fuser" (status_blob mono_record_low_fuser) = false
  /\ item <$> build_low_alerts [mono_record_low_fuser] 15 20 = ["Black Toner"; "Fuser"]
  /\ level <$> build_low_alerts [mono_record_low_fuser] 15 20 = ["5%"; "3%"].
Proof. repeat split; reflexivity. Qed.

Lemma mono_like_black_toner_only_witness :
  levels mono_record !! "toner_c" = Some 0%Z
  /\ levels mono_record !! "toner_m" = Some 0%Z
  /\ levels mono_record !! "toner_y" = Some 0%Z
  /\ levels mono_record !! "toner_k" = Some 5%Z
  /\ levels mono_record !! "fuser" = None
  /\ search_low "toner" (status_blob mono_record) = false
  /\ search_low "ink" (status_blob mono_record) = false
  /\ search_low "fuser" (status_blob mono_record) = false
  /\ filter (fun a => alert_printer_id a = "12345")
       (build_low_alerts ([] ++ mono_record :: []) 15 20)
     = [level_alert mono_record "Black Toner" 5 15].
Proof.
  repeat (split; [reflexivity|]).
  refine (proj2 (proj2 (mono_like_black_toner_only mono_record 20
            eq_refl eq_refl eq_refl eq_refl _ _)) [] [] _ _).
  - intros v Hv. change (levels mono_record !! "fuser") with (@None Z) in Hv. done.
  - intros rule. unfold keyword_rules. rewrite !elem_of_cons.
    intros [->|[->|[->|Hin]]]; [reflexivity..|]. by apply elem_of_nil in Hin.
  - constructor.
  - constructor.
Defined.

Lemma fuser_level_and_keyword_alerts_witness :
  fuser_record ∈ [fuser_record]
  /\ levels fuser_record !! "fuser" = Some 12%Z
  /\ (12 <= 20)%Z
  /\ search_low "fuser" (status_blob fuser_record) = true
  /\ exists a_level a_keyword : LowAlert,
       filter (fun a => alert_printer_id a = "12345" /\ item a = "Fuser")
         (build_low_alerts [fuser_record] 15 20)
       ≡ₚ [a_level; a_keyword]
       /\ level a_level = "12%" /\ level a_keyword = "reported".
Proof.
  assert (Hin : fuser_record ∈ [fuser_record]) by (apply elem_of_cons; by left).
  assert (Hle : (12 <= 20)%Z) by lia.
  split; [done|]. split; [reflexivity|]. split; [done|]. split; [reflexivity|].
  destruct (fuser_level_and_keyword_alerts [fuser_record] 15 20 fuser_record 12
              Hin eq_refl Hle eq_refl)
    as (aL & aK & Hperm & _ & _ & _ & Hfirst).
  destruct (Hfirst [] [] eq_refl (Forall_nil_2 _)) as [-> ->].
  exists (level_alert fuser_record "Fuser" 12 20),
         (keyword_alert fuser_record "Fuser" fuser_reason).
  by split.
Defined.

(** * Further properties of the store *)

Section StoreMore.
Context `{JsonCodec}.

Lemma events_capped_after_reconcile current_empties scan_time self :
  length (get_events (reconcile current_empties scan_time self).2) <= MAX_EVENTS.
Proof. rewrite reconcile_events. apply newest_length. Qed.

Lemma emitted_nil f (d : odict entry) :
  (forall k v, (k, v) ∈ d -> f k v = None) -> emitted f d = [].
Proof.
  induction d as [|[k v] d IH]; intros Hf; [done|].
  rewrite emitted_cons, IH.
  - cbn [fst snd]. rewrite Hf; [done|]. apply elem_of_cons. by left.
  - intros k' v' Hin. apply Hf. apply elem_of_cons. by right.
Qed.

(** X1: reconciling the same snapshot a second time appends no event,
    reports no change, and keeps the since of every open tray; only
    last_seen and last_scan_at move to the second scan time. *)
Theorem reconcile_twice_idempotent current_empties T1 T2 self :
  dict_wf current_empties ->
  let first := (reconcile current_empties T1 self).2 in
  let second := reconcile current_empties T2 first in
  reconcile_log (get_open_empties first) current_empties T2 = []
  /\ get_events second.2 = get_events first
  /\ second.1 = {| new_empties := 0; new_filled := 0 |}
  /\ dict_keys (get_open_empties second.2) = dict_keys (get_open_empties first)
  /\ (forall key (e1 : entry),
        dict_get key (get_open_empties first) = Some e1 ->
        exists e2 : entry,
          dict_get key (get_open_empties second.2) = Some e2
          /\ e2 !! "since" = e1 !! "since"
          /\ e2 !! "last_seen" = Some T2)
  /\ get_last_scan second.2 = T2.
Proof.
  intros Hwf first second.
  assert (Hopen : get_open_empties first
                  = (fun kv => (kv.1, stamped (get_open_empties self) T1 kv.1 kv.2))
                      <$> current_empties) by by apply reconcile_open.
  assert (Hd : emitted (detected_event (get_open_empties first) T2) current_empties = []).
  { apply emitted_nil. intros k v Hin. unfold detected_event.
    rewrite Hopen, dict_get_fmap_entries, (dict_get_elem k v) by done. done. }
  assert (Hf : emitted (filled_event current_empties T2) (get_open_empties first) = []).
  { apply emitted_nil. intros k v Hin. unfold filled_event.
    destruct (dict_get k current_empties) eqn:Hk; [done|].
    apply dict_get_None in Hk. exfalso. apply Hk.
    rewrite <- (dict_keys_fmap_entries (stamped (get_open_empties self) T1)), <- Hopen.
    unfold dict_keys. apply list_elem_of_fmap. by exists (k, v). }
  assert (Hlog : reconcile_log (get_open_empties first) current_empties T2 = []).
  { unfold reconcile_log. by rewrite Hd, Hf. }
  assert (Hopen2 : get_open_empties second.2
                   = (fun kv => (kv.1, stamped (get_open_empties first) T2 kv.1 kv.2))
                       <$> current_empties) by by apply reconcile_open.
  destruct (reconcile_store current_empties T2 first)
    as (He & Hl & _ & _ & Hne & Hnf & _). fold second in He, Hl, Hne, Hnf.
  split; [done|]. split; [|split; [|split; [|split]]].
  - unfold get_events at 1. rewrite He, Hlog. cbn. rewrite app_nil_r.
    apply newest_short. apply events_capped_after_reconcile.
  - rewrite Hd in Hne. rewrite Hf in Hnf. destruct second.1 as [ne nf].
    cbn in Hne, Hnf. by subst.
  - rewrite Hopen2, dict_keys_fmap_entries. by rewrite Hopen, dict_keys_fmap_entries.
  - intros key e1 He1. rewrite Hopen2, dict_get_fmap_entries.
    pose proof He1 as He1'. rewrite Hopen, dict_get_fmap_entries in He1'.
    destruct (dict_get key current_empties) as [item|] eqn:Hitem; [|done].
    cbn in He1'. eexists. split; [done|]. unfold stamped. rewrite He1.
    cbv beta iota. split; [|by rewrite lookup_insert_eq].
    rewrite (lookup_insert_ne _ "last_seen" "since") by done.
    rewrite lookup_insert_eq.
    destruct (e1 !! "since") eqn:Hs; [done|].
    exfalso. injection He1' as <-. unfold stamped in Hs.
    destruct (dict_get key (get_open_empties self));
      by rewrite lookup_insert_ne, lookup_insert_eq in Hs.
  - unfold get_last_scan. by rewrite Hl.
Qed.




(** X3: a tray resolved by hand cannot be resolved again: whatever the
    first call returned, a second manual resolution of the same key
    returns [False] and changes nothing. *)
Theorem manual_mark_filled_twice tray_key T1 T2 self :
  dict_wf (get_open_empties self) ->
  let once := (manual_mark_filled tray_key T1 self).2 in
  manual_mark_filled tray_key T2 once = (false, once).
Proof.
  intros Hwf once. apply manual_closed. subst once.
  destruct (dict_get tray_key (get_open_empties self)) as [item|] eqn:Hk.
  - destruct (manual_store tray_key T1 self item Hk) as (_ & Ho & _).
    unfold get_open_empties at 1. rewrite Ho. by apply dict_get_remove_eq.
  - by rewrite manual_closed.
Qed.


End StoreMore.

(** * Further properties of the alert engine *)

Section AlertsMore.
Implicit Types (st : alert_state) (s : list (dedupe_key * LowAlert)).
Implicit Types (r : PrinterRecord) (a : LowAlert) (k : dedupe_key).

Lemma toner_candidate_raised toner_threshold fuser_threshold r channel k a :
  channel ∈ ["k"; "c"; "m"; "y"] ->
  (k, a) ∈ toner_candidate r toner_threshold channel ->
  raised_by toner_threshold fuser_threshold r a.
Proof.
  intros Hch Hin. unfold toner_candidate in Hin.
  destruct (mono_like r) eqn:Hmono; cbn [andb] in Hin.
  - destruct (bool_decide (channel ∈ ["c"; "m"; "y"])) eqn:Hcmy;
      [by apply elem_of_nil in Hin|].
    apply bool_decide_eq_false in Hcmy.
    assert (channel = "k") as ->.
    { apply elem_of_cons in Hch as [?|Hch]; [done|]. contradiction. }
    destruct (levels r !! ("toner_" +:+ "k")) as [lvl|] eqn:Hl;
      [|by apply elem_of_nil in Hin].
    destruct (Z.leb_spec lvl toner_threshold); [|by apply elem_of_nil in Hin].
    apply list_elem_of_singleton in Hin. injection Hin as -> ->.
    apply (raised_toner _ _ _ "k"); auto.
  - destruct (levels r !! ("toner_" +:+ channel)) as [lvl|] eqn:Hl;
      [|by apply elem_of_nil in Hin].
    destruct (Z.leb_spec lvl toner_threshold); [|by apply elem_of_nil in Hin].
    apply list_elem_of_singleton in Hin. injection Hin as -> ->.
    apply raised_toner; auto.
Qed.

Lemma candidates_raised toner_threshold fuser_threshold r k a :
  (k, a) ∈ candidates toner_threshold fuser_threshold r ->
  raised_by toner_threshold fuser_threshold r a.
Proof.
  unfold candidates. rewrite !elem_of_app.
  intros [Hin|[Hin|Hin]].
  - apply list_elem_of_In, in_flat_map in Hin as (channel & Hch & Hin).
    apply list_elem_of_In in Hch, Hin. by eapply toner_candidate_raised.
  - unfold fuser_candidate in Hin.
    destruct (levels r !! "fuser") as [v|] eqn:Hv; [|by apply elem_of_nil in Hin].
    destruct (Z.leb_spec v fuser_threshold); [|by apply elem_of_nil in Hin].
    apply list_elem_of_singleton in Hin. injection Hin as -> ->.
    by apply raised_fuser.
  - apply list_elem_of_In, in_flat_map in Hin as ([[word it] reason] & Hrule & Hin).
    apply list_elem_of_In in Hrule, Hin. unfold keyword_candidate in Hin.
    cbn [fst snd] in Hin.
    destruct (search_low word (status_blob r)) eqn:Hs; [|by apply elem_of_nil in Hin].
    apply list_elem_of_singleton in Hin. injection Hin as -> ->.
    by apply (raised_keyword _ _ _ word).
Qed.

Lemma raised_candidate toner_threshold fuser_threshold r a :
  raised_by toner_threshold fuser_threshold r a ->
  exists k, (k, a) ∈ candidates toner_threshold fuser_threshold r.
Proof.
  intros [channel lvl Hch Hmono Hl Hle | lvl Hl Hle | word it reason Hrule Hs];
    eexists; unfold candidates; rewrite !elem_of_app.
  - left. apply list_elem_of_In, in_flat_map. exists channel.
    split; [by apply list_elem_of_In|]. apply list_elem_of_In.
    unfold toner_candidate.
    assert (mono_like r && bool_decide (channel ∈ ["c"; "m"; "y"]) = false) as ->.
    { destruct Hmono as [Hm|Hk]; [by rewrite Hm|]. subst channel. apply andb_false_r. }
    rewrite Hl. destruct (Z.leb_spec lvl toner_threshold); [|lia].
    apply list_elem_of_singleton. reflexivity.
  - right. left. rewrite (fuser_candidate_low r fuser_threshold lvl) by done.
    apply list_elem_of_singleton. reflexivity.
  - right. right. apply list_elem_of_In, in_flat_map. exists (word, it, reason).
    split; [by apply list_elem_of_In|]. apply list_elem_of_In.
    unfold keyword_candidate. cbn [fst snd]. rewrite Hs.
    apply list_elem_of_singleton. reflexivity.
Qed.

Lemma offers_alerts s st a :
  a ∈ (offers s st).1 -> a ∈ st.1 \/ exists k, (k, a) ∈ s.
Proof.
  revert st. induction s as [|[k' a'] s IH]; intros st; [by left|].
  rewrite offers_cons. intros [Hin|[k Hin]]%IH.
  - unfold add_alert in Hin. destruct (decide (k' ∈ st.2)); [by left|].
    cbn [fst] in Hin. apply elem_of_app in Hin as [?|Hin]; [by left|].
    apply list_elem_of_singleton in Hin. subst a.
    right. exists k'. apply elem_of_cons. by left.
  - right. exists k. apply elem_of_cons. by right.
Qed.

(** X6: the engine raises no alert without a cause: every alert of the
    result belongs to a record of the scan (its device id and
    description) and comes from a toner channel that is checked for that
    record and is at or below the toner threshold, from its fuser level
    at or below the fuser threshold, or from a keyword rule that matches
    its status text. *)
Theorem alerts_sound records toner_threshold fuser_threshold a :
  a ∈ build_low_alerts records toner_threshold fuser_threshold ->
  exists r, r ∈ records
    /\ alert_printer_id a = printer_id r
    /\ alert_description a = description r
    /\ raised_by toner_threshold fuser_threshold r a.
Proof.
  unfold build_low_alerts, collect_alerts. rewrite sorted_alerts_perm, collect_offers.
  intros [Hin|[k Hin]]%offers_alerts; [by apply elem_of_nil in Hin|].
  apply list_elem_of_In, in_flat_map in Hin as (r & Hr & Hin).
  apply list_elem_of_In in Hr, Hin. exists r. split; [done|].
  apply candidates_raised in Hin as Hraised.
  split; [|split; [|done]]; by destruct Hraised.
Qed.

Lemma candidate_key_triple toner_threshold fuser_threshold r k a :
  candidate_of toner_threshold fuser_threshold r k a ->
  alert_triple a = key_triple toner_threshold fuser_threshold k /\ rule_key k.
Proof.
  intros [channel lvl Hch _ _ | lvl _ _ | word it reason Hrule _];
    unfold alert_triple, key_triple, source_of_key, rule_key, level_alert,
      keyword_alert; cbn [fst snd alert_printer_id item source].
  - split; [|by left]. rewrite decide_True by done.
    rewrite decide_False; [done|]. by apply toner_item_not_fuser.
  - split; [|by left]. by rewrite !decide_True by done.
  - split; [|right; by exists word, it].
    rewrite decide_False; [done|].
    by apply keyword_rules_inv in Hrule as [[_ ->]|[[_ ->]|(_ & _ & ->)]].
Qed.

Lemma rule_key_source toner_threshold fuser_threshold k :
  rule_key k ->
  (k.2 = "level"
   /\ exists threshold,
        source_of_key toner_threshold fuser_threshold k = threshold_source threshold)
  \/ (k.2 <> "level" /\ source_of_key toner_threshold fuser_threshold k = k.2
      /\ exists word it, (word, it, k.2) ∈ keyword_rules).
Proof.
  unfold source_of_key. intros [Hl|(word & it & Hrule)].
  - left. split; [done|]. rewrite decide_True by done.
    destruct (decide (k.1.2 = "Fuser")); by eexists.
  - right. assert (Hne : k.2 <> "level")
      by by apply keyword_rules_inv in Hrule as [[_ ->]|[[_ ->]|(_ & _ & ->)]].
    split; [done|]. rewrite decide_False by done. split; [done|]. by exists word, it.
Qed.

Lemma key_triple_inj toner_threshold fuser_threshold k k' :
  rule_key k -> rule_key k' ->
  key_triple toner_threshold fuser_threshold k
  = key_triple toner_threshold fuser_threshold k' ->
  k = k'.
Proof.
  intros Hk Hk'. destruct k as [[p i] c], k' as [[p' i'] c']. unfold key_triple.
  cbn [fst snd]. intros [= -> -> Hsrc]. f_equal.
  apply (rule_key_source toner_threshold fuser_threshold) in Hk, Hk'.
  cbn [fst snd] in Hk, Hk'.
  destruct Hk as [[-> [t Ht]]|(Hne & Hs & word & it & Hrule)],
           Hk' as [[-> [t' Ht']]|(Hne' & Hs' & word' & it' & Hrule')]; [done| | |].
  - exfalso. rewrite Hs', Ht in Hsrc. subst c'.
    by apply keyword_rules_inv in Hrule' as [[_ ?]|[[_ ?]|(_ & _ & ?)]].
  - exfalso. rewrite Hs, Ht' in Hsrc. subst c.
    by apply keyword_rules_inv in Hrule as [[_ ?]|[[_ ?]|(_ & _ & ?)]].
  - by rewrite Hs, Hs' in Hsrc.
Qed.

Lemma stream_key_triple toner_threshold fuser_threshold (records : list PrinterRecord)
    k a :
  (k, a) ∈ flat_map (candidates toner_threshold fuser_threshold) records ->
  alert_triple a = key_triple toner_threshold fuser_threshold k /\ rule_key k.
Proof.
  intros (r & _ & Hc)%stream_candidates. by eapply candidate_key_triple.
Qed.

(** X7: the engine drops no cause: whenever a record of the scan gives
    cause for an alert, the result holds an alert with the same device
    id, item and source (raised by that record or by an earlier record
    with the same device id). *)
Theorem alerts_complete records toner_threshold fuser_threshold r a :
  r ∈ records ->
  raised_by toner_threshold fuser_threshold r a ->
  exists a', a' ∈ build_low_alerts records toner_threshold fuser_threshold
    /\ alert_printer_id a' = alert_printer_id a
    /\ item a' = item a
    /\ source a' = source a.
Proof.
  intros Hr [key Hin]%raised_candidate.
  set (stream := flat_map (candidates toner_threshold fuser_threshold) records).
  assert (Hs : (key, a) ∈ stream).
  { apply list_elem_of_In, in_flat_map. exists r. by split; apply list_elem_of_In. }
  destruct (stream_key_triple _ _ _ _ _ Hs) as [Ha Hkey].
  destruct (take_one_filter_key _ _ _ Hs) as (a' & Ha' & Htake).
  destruct (stream_key_triple _ _ _ _ _ Ha') as [Ht' _].
  pose proof (offers_key key
                (fun x => alert_triple x = key_triple toner_threshold fuser_threshold key)
                stream) as Hfirst.
  rewrite Htake in Hfirst. specialize (Hfirst
    ltac:(intros k x [Hx Hk]%stream_key_triple; split;
          [by intros -> | intros Heq; rewrite Hx in Heq; by eapply key_triple_inj])
    ([], ∅)).
  cbn [fst snd] in Hfirst. rewrite decide_False in Hfirst by apply not_elem_of_empty.
  exists a'. split.
  - unfold build_low_alerts, collect_alerts. rewrite sorted_alerts_perm, collect_offers.
    fold stream.
    eapply (list_elem_of_filter
              (fun x => alert_triple x = key_triple toner_threshold fuser_threshold key)).
    rewrite Hfirst. cbn. apply elem_of_cons. by left.
  - rewrite <- Ha in Ht'. by injection Ht' as -> -> ->.
Qed.

(** X8: the result holds no two alerts with the same device id, item and
    source. *)
Theorem alerts_distinct records toner_threshold fuser_threshold :
  NoDup (alert_triple <$> build_low_alerts records toner_threshold fuser_threshold).
Proof.
  unfold build_low_alerts, collect_alerts. rewrite sorted_alerts_perm, collect_offers.
  set (stream := flat_map (candidates toner_threshold fuser_threshold) records).
  assert (Hs : forall k a, (k, a) ∈ stream ->
            alert_triple a = key_triple toner_threshold fuser_threshold k /\ rule_key k)
    by (intros; by eapply stream_key_triple).
  clearbody stream.
  assert (Hgen : forall st,
    (NoDup (alert_triple <$> st.1)
     /\ forall a, a ∈ st.1 ->
          exists k, k ∈ st.2 /\ rule_key k
            /\ alert_triple a = key_triple toner_threshold fuser_threshold k) ->
    NoDup (alert_triple <$> (offers stream st).1)).
  { induction stream as [|[k a] s IH]; intros st [Hnd Hkeys]; [done|].
    rewrite offers_cons. apply IH.
    { intros k' a' Hin. apply Hs. apply elem_of_cons. by right. }
    destruct (Hs k a) as [Ha Hk]; [apply elem_of_cons; by left|].
    unfold add_alert. destruct (decide (k ∈ st.2)) as [|Hnew]; [done|].
    cbn [fst snd]. split.
    - rewrite fmap_app. apply NoDup_app. split; [done|].
      split; [|apply NoDup_singleton].
      intros t Ht Heq%list_elem_of_singleton. subst t.
      apply list_elem_of_fmap in Ht as (a' & Heq & Hin').
      destruct (Hkeys a' Hin') as (k' & Hseen & Hk' & Ha').
      apply Hnew. replace k with k'; [done|].
      eapply key_triple_inj; [done..|]. by rewrite <- Ha', <- Heq.
    - intros a' [Hin'|Hin']%elem_of_app.
      + destruct (Hkeys a' Hin') as (k' & Hseen & Hk' & Ha').
        exists k'. split; [by apply elem_of_union_r|done].
      + apply list_elem_of_singleton in Hin'. subst a'.
        exists k. split; [apply elem_of_union_l; by apply elem_of_singleton|done]. }
  apply Hgen. split; [constructor|]. intros a Hin. by apply elem_of_nil in Hin.
Qed.

Lemma alert_key_le_total a b : alert_key_le a b = false -> alert_key_le b a = true.
Proof.
  unfold alert_key_le. rewrite (String.compare_antisym (alert_printer_id a)).
  destruct (String.compare (alert_printer_id b) (alert_printer_id a));
    cbn [CompOpp]; [|done|discriminate].
  intros Hle. destruct (String.leb_total (item a) (item b)) as [Hab|Hba]; [|done].
  by rewrite Hab in Hle.
Qed.

Lemma insert_alert_hd a b (l : list LowAlert) :
  alert_key_order b a -> HdRel alert_key_order b l ->
  HdRel alert_key_order b (insert_alert a l).
Proof.
  intros Hba Hhd. destruct l as [|c l]; cbn; [by constructor|].
  destruct (alert_key_le a c); constructor; [done|]. by inversion Hhd.
Qed.

Lemma insert_alert_sorted a (l : list LowAlert) :
  Sorted alert_key_order l -> Sorted alert_key_order (insert_alert a l).
Proof.
  induction l as [|b l IH]; intros Hs; cbn; [by repeat constructor|].
  apply Sorted_inv in Hs as [Hs Hhd].
  destruct (alert_key_le a b) eqn:Hab.
  - constructor; [by constructor|]. by constructor.
  - constructor; [auto|]. apply insert_alert_hd; [|done].
    by apply alert_key_le_total.
Qed.

(** X9: the result is in ascending order of (device id, item), compared
    as strings. *)
Theorem alerts_sorted records toner_threshold fuser_threshold :
  Sorted alert_key_order (build_low_alerts records toner_threshold fuser_threshold).
Proof.
  unfold build_low_alerts, sorted_alerts.
  induction (collect_alerts records toner_threshold fuser_threshold).1 as [|a l IH];
    cbn; [constructor|]. by apply insert_alert_sorted.
Qed.
End AlertsMore.

(** * Further properties of the text heuristics *)

Lemma upper_char_class c : keeps_in_token (Text.upper_char c) = keeps_in_token c.
Proof. destruct c as [[] [] [] [] [] [] [] []]; reflexivity. Qed.

Lemma lower_char_class c : keeps_in_token (Text.lower_char c) = keeps_in_token c.
Proof. destruct c as [[] [] [] [] [] [] [] []]; reflexivity. Qed.

Lemma upper_upper_char c : Text.upper_char (Text.upper_char c) = Text.upper_char c.
Proof. destruct c as [[] [] [] [] [] [] [] []]; reflexivity. Qed.

Lemma upper_lower_char c : Text.upper_char (Text.lower_char c) = Text.upper_char c.
Proof. destruct c as [[] [] [] [] [] [] [] []]; reflexivity. Qed.

Lemma tray_token_case (f : ascii -> ascii) value :
  (forall c, keeps_in_token (f c) = keeps_in_token c) ->
  (forall c, Text.upper_char (f c) = Text.upper_char c) ->
  tray_token (Text.map_chars f value) = tray_token value.
Proof.
  intros Hclass Hup. unfold tray_token, Text.upper.
  induction value as [|c value IH]; [done|]. cbn. rewrite Hclass.
  destruct (keeps_in_token c); [|done]. cbn. by rewrite Hup, IH.
Qed.

(** X10: the label of a tray does not depend on the case of the text it
    is read from (ASCII text, where [str.upper] and [str.lower] map
    letters to letters one by one). *)
Theorem normalize_tray_ignores_case value :
  ascii_text value ->
  normalize_tray (Text.upper value) = normalize_tray value
  /\ normalize_tray (Text.lower value) = normalize_tray value.
Proof.
  intros _. unfold normalize_tray, Text.upper, Text.lower.
  rewrite (tray_token_case Text.upper_char)
    by (apply upper_char_class || apply upper_upper_char).
  by rewrite (tray_token_case Text.lower_char)
    by (apply lower_char_class || apply upper_lower_char).
Qed.

Lemma str_of_N_nonempty n : Text.str_of_N n <> "".
Proof.
  unfold Text.str_of_N, NilZero.string_of_uint.
  by destruct (N.to_uint n).
Qed.

Lemma numbered_tray_spec digits :
  numbered_tray digits
  = if (String.length digits <=? Text.max_str_digits)%nat
    then inr ("Tray " +:+ Text.str_of_N (Text.int_of digits))
    else inl ValueError.
Proof. unfold numbered_tray, Text.int. by destruct (_ <=? _)%nat. Qed.

Lemma isdigit_nonempty s : Text.isdigit s = true -> s <> "".
Proof. by destruct s. Qed.

(** What [normalize_tray] does, by the digits it hands to [int]. *)
Lemma normalize_tray_cases value :
  normalize_tray value
  = if String.eqb (tray_token value) "" then inr "Unknown Tray"
    else
      match tray_number value with
      | Some digits => numbered_tray digits
      | None =>
          match Text.strip_prefix "TRAY" (tray_token value) with
          | Some rest => inr ("Tray " +:+ (if String.eqb rest "" then "UNKNOWN" else rest))
          | None => inr ("Tray " +:+ tray_token value)
          end
      end.
Proof.
  unfold normalize_tray, tray_number. cbn zeta.
  destruct (String.eqb (tray_token value) ""); [done|].
  destruct (Text.isdigit (tray_token value)); [done|].
  destruct (Text.strip_prefix "TRAY" (tray_token value)) as [rest|]; [|done].
  destruct (String.eqb_spec rest "") as [->|Hrest]; [done|].
  by destruct (Text.isdigit rest).
Qed.

Lemma tray_number_token value digits :
  tray_number value = Some digits -> tray_token value <> "".
Proof.
  unfold tray_number. cbn zeta. intros Hn Hempty. rewrite Hempty in Hn. done.
Qed.

(** When [normalize_tray] raises. *)
Lemma normalize_tray_raises value e :
  normalize_tray value = inl e <->
  e = ValueError
  /\ exists digits,
       tray_number value = Some digits
       /\ Text.max_str_digits < String.length digits.
Proof.
  rewrite normalize_tray_cases.
  destruct (String.eqb_spec (tray_token value) "") as [Hempty|Hsome].
  { split; [done|]. intros (_ & digits & Hd & _). by apply tray_number_token in Hd. }
  destruct (tray_number value) as [digits|] eqn:Hnumber.
  - rewrite numbered_tray_spec.
    destruct (Nat.leb_spec (String.length digits) Text.max_str_digits) as [Hle|Hgt].
    + split; [done|]. intros (_ & d & [= <-] & Hlong). lia.
    + split.
      * intros [= <-]. split; [done|]. by exists digits.
      * by intros [-> _].
  - destruct (Text.strip_prefix "TRAY" (tray_token value)) as [rest|];
      (split; [done | by intros (_ & d & [=] & _)]).
Qed.

(** The label [normalize_tray] returns. *)
Lemma normalize_tray_label value label :
  normalize_tray value = inr label ->
  (label = "Unknown Tray" <-> tray_token value = "")
  /\ (tray_token value <> "" -> named_tray label).
Proof.
  rewrite normalize_tray_cases.
  destruct (String.eqb_spec (tray_token value) "") as [Hempty|Hsome].
  { intros [= <-]. by split. }
  assert (Hnamed : forall name : string,
            name <> "" -> inr ("Tray " +:+ name) = inr (A := parse_error) label ->
            (label = "Unknown Tray" <-> tray_token value = "")
            /\ (tray_token value <> "" -> named_tray label)).
  { intros name Hname [= <-]. split; [|by exists name]. split; [|done].
    intros Hl. exfalso. by destruct name. }
  destruct (tray_number value) as [digits|] eqn:Hnumber.
  - rewrite numbered_tray_spec.
    destruct (String.length digits <=? Text.max_str_digits)%nat; [|done].
    apply Hnamed, str_of_N_nonempty.
  - destruct (Text.strip_prefix "TRAY" (tray_token value)) as [rest|].
    + apply Hnamed. by destruct (String.eqb_spec rest "").
    + by apply Hnamed.
Qed.

(** X11: [normalize_tray] raises exactly when the token, or what
    follows its prefix TRAY, is a number of more than 4300 digits, which
    [int] refuses, and then it is [ValueError]; a label it returns is
    "Unknown Tray" exactly when stripping leaves nothing of the text,
    and otherwise "Tray " followed by a non-empty name. *)
Theorem normalize_tray_shape value :
  (forall e, normalize_tray value = inl e <->
     e = ValueError
     /\ exists digits,
          tray_number value = Some digits
          /\ Text.max_str_digits < String.length digits)
  /\ (forall label, normalize_tray value = inr label ->
        (label = "Unknown Tray" <-> tray_token value = "")
        /\ (tray_token value <> "" -> named_tray label)).
Proof.
  split; [intros e; apply normalize_tray_raises | intros label; apply normalize_tray_label].
Qed.

(** A tray numbered with 4301 digits: [int] refuses the number. *)
Lemma normalize_tray_long_number :
  normalize_tray ("tray" +:+ repeated 4301 "7") = inl ValueError.
Proof. vm_compute. reflexivity. Qed.

(** * Further properties of the tail metrics and the snapshot *)

(** The levels of a row tail: none, or the ten of them, each between 0
    and 100. *)
Lemma tail_levels_all_or_nothing row_tail :
  let found := (parse_tail_metrics row_tail).1 in
  (found = ∅ \/ forall key, key ∈ level_keys -> exists v, found !! key = Some v)
  /\ (forall key v, found !! key = Some v ->
        key ∈ level_keys /\ (0 <= v <= 100)%Z).
Proof.
  unfold parse_tail_metrics. cbn [fst]. cbn zeta.
  destruct (Nat.leb_spec 10 (length (tail_numbers row_tail))) as [Hlen|Hlen];
    [|split; [by left | by intros key v Hk]].
  destruct (forallb in_range (last_ten (tail_numbers row_tail))) eqn:Hrange;
    [|split; [by left | by intros key v Hk]].
  apply forallb_in_range in Hrange.
  pose proof (last_ten_length _ Hlen) as Hten.
  destruct (last_ten (tail_numbers row_tail))
    as [|tk [|tc [|tm [|ty [|dk [|dc [|dm [|dy [|belt [|fuser [|extra rest]]]]]]]]]]];
    try discriminate Hten.
  split.
  - right. intros key. unfold level_keys. rewrite !elem_of_cons.
    intros [->|[->|[->|[->|[->|[->|[->|[->|[->|[->|Hin]]]]]]]]]];
      [by eexists..|by apply elem_of_nil in Hin].
  - intros key v Hk. unfold levels_of in Hk.
    apply elem_of_list_to_map_2 in Hk. split.
    + apply (elem_of_zip_l _ _ _ _ Hk).
    + apply elem_of_zip_r in Hk. rewrite Forall_forall in Hrange. by apply Hrange.
Qed.

Lemma tail_levels_bounds row_tail key v :
  (parse_tail_metrics row_tail).1 !! key = Some v ->
  key ∈ level_keys /\ (0 <= v <= 100)%Z.
Proof. apply (tail_levels_all_or_nothing row_tail). Qed.

(** X12: the levels read from a row tail are all or nothing: either no
    level at all, or one for each of the ten keys; every level read is
    between 0 and 100, and no other key is ever set. *)
Theorem tail_levels_complete row_tail :
  let found := (parse_tail_metrics row_tail).1 in
  (found = ∅ \/ forall key, key ∈ level_keys -> exists v, found !! key = Some v)
  /\ (forall key v, found !! key = Some v ->
        key ∈ level_keys /\ (0 <= v <= 100)%Z).
Proof. apply tail_levels_all_or_nothing. Qed.

Lemma dict_get_set_eq {V} key (v : V) (d : odict V) :
  dict_get key (dict_set key v d) = Some v.
Proof.
  induction d as [|[k w] d IH]; cbn [dict_set dict_get].
  - by rewrite decide_True.
  - destruct (decide (k = key)) as [->|Hk]; cbn [dict_get].
    + by rewrite decide_True.
    + by rewrite decide_False.
Qed.

Lemma dict_get_set_ne {V} key k (v : V) (d : odict V) :
  k <> key -> dict_get k (dict_set key v d) = dict_get k d.
Proof.
  intros Hne. induction d as [|[k' w] d IH]; cbn [dict_set dict_get].
  - by rewrite decide_False.
  - destruct (decide (k' = key)) as [->|Hk]; cbn [dict_get].
    + by rewrite !(decide_False (P := key = k)).
    + by rewrite IH.
Qed.

Lemma dict_keys_set_elem {V} key k (v : V) (d : odict V) :
  k ∈ dict_keys (dict_set key v d) <-> k = key \/ k ∈ dict_keys d.
Proof.
  rewrite dict_keys_set. destruct (decide (key ∈ dict_keys d)) as [Hin|Hnin].
  - split; [by right|]. by intros [->|?].
  - rewrite elem_of_app, list_elem_of_singleton. tauto.
Qed.

(** The trays of one record, added to a snapshot. *)
Lemma add_trays_keys record (trays : list string) : forall (start : odict entry) k,
  k ∈ dict_keys
        (fold_left
           (fun empties tray =>
              dict_set (snapshot_key record tray) (snapshot_entry record tray) empties)
           trays start)
  <-> k ∈ dict_keys start \/ exists tray, tray ∈ trays /\ k = snapshot_key record tray.
Proof.
  induction trays as [|tray trays IH]; intros start k; cbn [fold_left].
  - split; [by left|]. intros [?|(tray & Hin & _)]; [done|]. by apply elem_of_nil in Hin.
  - rewrite IH, dict_keys_set_elem. split.
    + intros [[->|?]|(t & Ht & ->)].
      * right. exists tray. split; [apply elem_of_cons; by left | done].
      * by left.
      * right. exists t. split; [apply elem_of_cons; by right | done].
    + intros [?|(t & Ht & ->)]; [left; by right|].
      apply elem_of_cons in Ht as [->|Ht]; [left; by left|]. right. by exists t.
Qed.

Lemma add_trays_get record (trays : list string) : forall (start : odict entry) k e,
  dict_get k
    (fold_left
       (fun empties tray =>
          dict_set (snapshot_key record tray) (snapshot_entry record tray) empties)
       trays start) = Some e ->
  dict_get k start = Some e
  \/ exists tray, tray ∈ trays /\ k = snapshot_key record tray
                  /\ e = snapshot_entry record tray.
Proof.
  induction trays as [|tray trays IH]; intros start k e; cbn [fold_left]; [by left|].
  intros Hget. apply IH in Hget as [Hget|(t & Ht & -> & ->)].
  - destruct (decide (k = snapshot_key record tray)) as [->|Hne].
    + rewrite dict_get_set_eq in Hget. injection Hget as <-.
      right. exists tray. split; [apply elem_of_cons; by left | done].
    + rewrite dict_get_set_ne in Hget by done. by left.
  - right. exists t. split; [apply elem_of_cons; by right | done].
Qed.

Lemma build_current_empties_fold records :
  build_current_empties records
  = fold_left
      (fun empties record =>
         fold_left
           (fun empties tray =>
              dict_set (snapshot_key record tray) (snapshot_entry record tray) empties)
           (empty_trays record) empties)
      records [].
Proof. reflexivity. Qed.

Lemma add_records_keys key records : forall (start : odict entry),
  key ∈ dict_keys
          (fold_left
             (fun empties record =>
                fold_left
                  (fun empties tray =>
                     dict_set (snapshot_key record tray) (snapshot_entry record tray)
                       empties)
                  (empty_trays record) empties)
             records start)
  <-> key ∈ dict_keys start
      \/ exists record tray,
           record ∈ records /\ tray ∈ empty_trays record
           /\ key = snapshot_key record tray.
Proof.
  induction records as [|r records IH]; intros start; cbn [fold_left].
  - split; [by left|]. intros [?|(r & t & Hr & _)]; [done|]. by apply elem_of_nil in Hr.
  - rewrite IH, add_trays_keys. split.
    + intros [[?|(t & Ht & ->)]|(r' & t & Hr' & Ht & ->)].
      * by left.
      * right. exists r, t. split; [apply elem_of_cons; by left | done].
      * right. exists r', t. split; [apply elem_of_cons; by right | done].
    + intros [?|(r' & t & Hr' & Ht & ->)]; [left; by left|].
      apply elem_of_cons in Hr' as [->|Hr'].
      * left. right. by exists t.
      * right. by exists r', t.
Qed.

Lemma add_records_get key records : forall (start : odict entry) (e : entry),
  dict_get key
    (fold_left
       (fun empties record =>
          fold_left
            (fun empties tray =>
               dict_set (snapshot_key record tray) (snapshot_entry record tray)
                 empties)
            (empty_trays record) empties)
       records start) = Some e ->
  dict_get key start = Some e
  \/ exists record tray,
       record ∈ records /\ tray ∈ empty_trays record
       /\ key = snapshot_key record tray /\ e = snapshot_entry record tray.
Proof.
  induction records as [|r records IH]; intros start e; cbn [fold_left]; [by left|].
  intros Hk. apply IH in Hk as [Hk|(r' & t & Hr' & Ht & -> & ->)].
  - apply add_trays_get in Hk as [Hk|(t & Ht & -> & ->)]; [by left|].
    right. exists r, t. split; [apply elem_of_cons; by left | done].
  - right. exists r', t. split; [apply elem_of_cons; by right | done].
Qed.

(** The keys and the entries of a snapshot. *)
Lemma snapshot_entries records key :
  (key ∈ dict_keys (build_current_empties records)
   <-> exists record tray,
         record ∈ records /\ tray ∈ empty_trays record
         /\ key = printer_id record +:+ "::" +:+ tray)
  /\ (forall e : entry, dict_get key (build_current_empties records) = Some e ->
        e !! "key" = Some key
        /\ exists record tray,
             record ∈ records /\ tray ∈ empty_trays record
             /\ key = printer_id record +:+ "::" +:+ tray
             /\ e = snapshot_entry record tray).
Proof.
  rewrite build_current_empties_fold. split.
  - rewrite add_records_keys. split; [|by right].
    intros [Hin|?]; [|done]. by apply elem_of_nil in Hin.
  - intros e He. apply add_records_get in He as [He|(r & t & Hr & Ht & -> & ->)]; [done|].
    split; [reflexivity|]. by exists r, t.
Qed.

(** X13: the snapshot has a key for exactly the (record, tray) pairs of
    the scan, the key being the device id, "::" and the tray label; the
    entry under a key is the entry of one of the pairs with that key,
    and its field "key" is the key it is stored under. *)
Theorem build_current_empties_spec records key :
  (key ∈ dict_keys (build_current_empties records)
   <-> exists record tray,
         record ∈ records /\ tray ∈ empty_trays record
         /\ key = printer_id record +:+ "::" +:+ tray)
  /\ (forall e : entry, dict_get key (build_current_empties records) = Some e ->
        e !! "key" = Some key
        /\ exists record tray,
             record ∈ records /\ tray ∈ empty_trays record
             /\ key = printer_id record +:+ "::" +:+ tray
             /\ e = snapshot_entry record tray).
Proof. apply snapshot_entries. Qed.

(** * Properties of the parser *)

(** ** The matcher finds only matches *)

Lemma run_sound {A} ic (r : regex) : forall (cur : cursor) (k : cursor -> option A) a,
  run ic r cur k = Some a ->
  exists to, matches ic r cur to /\ k to = Some a.
Proof.
  induction r as [| c | p | | | | r1 IH1 r2 IH2 | r1 IH1 r2 IH2 | r1 IH1 | r1 IH1];
    intros cur k a Hrun; cbn [run] in Hrun.
  - exists cur. split; [constructor | done].
  - destruct (ahead cur) as [|x s] eqn:Hahead; [done|].
    destruct (same_char ic c x) eqn:Hc; [|done].
    eexists. split; [by eapply matches_chr | done].
  - destruct (ahead cur) as [|x s] eqn:Hahead; [done|].
    destruct (in_class ic p x) eqn:Hc; [|done].
    eexists. split; [by eapply matches_cls | done].
  - destruct (at_boundary cur) eqn:Hb; [|done].
    exists cur. split; [by constructor | done].
  - destruct (before cur) eqn:Hb; [done|].
    exists cur. split; [by constructor | done].
  - destruct (at_end cur) eqn:Hb; [|done].
    exists cur. split; [by constructor | done].
  - apply IH1 in Hrun as (mid & Hm1 & Hrun). apply IH2 in Hrun as (to & Hm2 & Hk).
    exists to. split; [by eapply matches_seq | done].
  - destruct (run ic r1 cur k) as [a'|] eqn:Hleft.
    + injection Hrun as ->. apply IH1 in Hleft as (to & Hm & Hk).
      exists to. split; [by apply matches_alt_l | done].
    + apply IH2 in Hrun as (to & Hm & Hk).
      exists to. split; [by apply matches_alt_r | done].
  - revert Hrun. generalize (String.length (ahead cur)) as fuel. intros fuel.
    revert cur. induction fuel as [|fuel IHf]; intros cur Hrun.
    + exists cur. split; [constructor | done].
    + match type of Hrun with
      | match ?body with _ => _ end = _ => destruct body as [a'|] eqn:Hround
      end.
      * injection Hrun as ->. apply IH1 in Hround as (next & Hm & Hk).
        destruct (String.length (ahead next) <? String.length (ahead cur))%nat; [|done].
        apply IHf in Hk as (to & Hms & Hk).
        exists to. split; [by eapply matches_star_more | done].
      * exists cur. split; [constructor | done].
  - apply IH1 in Hrun as (to & Hm & Hk).
    eexists. split; [by apply matches_grp | done].
Qed.

(** ** Text lemmas *)

Lemma string_app_cons x (a b : string) : String x a +:+ b = String x (a +:+ b).
Proof. reflexivity. Qed.

Lemma string_app_nil_l (b : string) : "" +:+ b = b.
Proof. reflexivity. Qed.

Lemma string_length_app (a b : string) :
  String.length (a +:+ b) = String.length a + String.length b.
Proof.
  induction a as [|c a IH]; [done|].
  rewrite string_app_cons. cbn [String.length]. by rewrite IH.
Qed.

Lemma string_app_assoc (a b c : string) : (a +:+ b) +:+ c = a +:+ (b +:+ c).
Proof. induction a as [|x a IH]; [done|]. rewrite !string_app_cons. by rewrite IH. Qed.

Lemma string_app_nil_r (a : string) : a +:+ "" = a.
Proof. induction a as [|x a IH]; [done|]. rewrite string_app_cons. by rewrite IH. Qed.

Lemma substring_app_prefix (a b : string) :
  String.substring 0 (String.length a) (a +:+ b) = a.
Proof.
  induction a as [|x a IH]; [by destruct b|].
  rewrite string_app_cons. cbn [String.length String.substring]. by rewrite IH.
Qed.

Lemma all_chars_app p (a b : string) :
  Text.all_chars p (a +:+ b) = Text.all_chars p a && Text.all_chars p b.
Proof.
  induction a as [|x a IH]; [done|].
  rewrite string_app_cons. cbn [Text.all_chars]. rewrite IH. by rewrite andb_assoc.
Qed.

(** ** What a match consumes and records *)

Lemma matches_ahead ic r from to :
  matches ic r from to -> exists w, ahead from = w +:+ ahead to.
Proof.
  induction 1 as [cur | c x s cur Ha _ | p x s cur Ha _ | cur _ | cur _ | cur _
                 | r1 r2 from mid to _ [w1 H1] _ [w2 H2]
                 | r1 r2 from to _ IH | r1 r2 from to _ IH
                 | r cur | r from mid to _ [w1 H1] _ [w2 H2]
                 | r from to _ IH];
    try (by exists ""); try done.
  - exists (String x ""). by rewrite Ha.
  - exists (String x ""). by rewrite Ha.
  - exists (w1 +:+ w2). by rewrite H1, H2, string_app_assoc.
  - exists (w1 +:+ w2). by rewrite H1, H2, string_app_assoc.
Qed.

Lemma consumed_app (from to : cursor) w :
  ahead from = w +:+ ahead to -> consumed from to = w.
Proof.
  intros Hw. unfold consumed. rewrite Hw, string_length_app.
  replace (String.length w + String.length (ahead to) - String.length (ahead to))
    with (String.length w) by lia.
  apply substring_app_prefix.
Qed.

Lemma matches_group_free ic r from to :
  matches ic r from to -> group_free r = true -> groups to = groups from.
Proof.
  induction 1 as [cur | c x s cur _ _ | p x s cur _ _ | cur _ | cur _ | cur _
                 | r1 r2 from mid to _ IH1 _ IH2
                 | r1 r2 from to _ IH | r1 r2 from to _ IH
                 | r cur | r from mid to _ IH1 _ IH2
                 | r from to _ IH];
    cbn [group_free]; intros Hfree; try done.
  - apply andb_prop in Hfree as [H1 H2]. by rewrite IH2, IH1.
  - apply andb_prop in Hfree as [H1 H2]. by apply IH.
  - apply andb_prop in Hfree as [H1 H2]. by apply IH.
  - by rewrite IH2, IH1.
Qed.

Lemma group_free_Str text : group_free (Str text) = true.
Proof. induction text as [|c text IH]; [done | exact IH]. Qed.

Lemma matches_seq_inv ic r1 r2 from to :
  matches ic (Seq r1 r2) from to ->
  exists mid, matches ic r1 from mid /\ matches ic r2 mid to.
Proof. inversion 1; subst. by eexists. Qed.

Lemma matches_grp_inv ic r from to :
  matches ic (Grp r) from to ->
  exists stop, matches ic r from stop /\ to = capture from stop.
Proof. inversion 1; subst. by eexists. Qed.

Lemma matches_cls_inv ic p from to :
  matches ic (Cls p) from to ->
  exists x, in_class ic p x = true /\ ahead from = String x (ahead to)
            /\ groups to = groups from.
Proof. inversion 1 as [| | p' x s cur Ha Hp | | | | | | | | |]; subst. by exists x. Qed.

(** A repeated class consumes characters of the class and records no
    group. *)
Lemma matches_star_cls ic p from to :
  matches ic (Star (Cls p)) from to ->
  exists w, ahead from = w +:+ ahead to
            /\ Text.all_chars (in_class ic p) w = true
            /\ groups to = groups from.
Proof.
  intros Hm. remember (Star (Cls p)) as r eqn:Hr.
  induction Hm as [| | | | | | | | | r cur | r from mid to Hone _ Hmore IH |];
    try discriminate Hr.
  - by exists "".
  - injection Hr as ->. destruct (IH eq_refl) as (w & Hw & Hall & Hg).
    apply matches_cls_inv in Hone as (x & Hx & Ha & Hg1).
    exists (String x w). rewrite string_app_cons. cbn [Text.all_chars].
    rewrite Ha, Hw, Hx, Hall. by rewrite Hg, Hg1.
Qed.

Lemma matches_plus_cls ic p from to :
  matches ic (Plus (Cls p)) from to ->
  exists x w, ahead from = String x w +:+ ahead to
              /\ in_class ic p x = true
              /\ Text.all_chars (in_class ic p) w = true
              /\ groups to = groups from.
Proof.
  intros Hm. apply matches_seq_inv in Hm as (mid & Hone & Hmore).
  apply matches_cls_inv in Hone as (x & Hx & Ha & Hg1).
  apply matches_star_cls in Hmore as (w & Hw & Hall & Hg).
  exists x, w. rewrite string_app_cons, Ha, Hw. by rewrite Hg, Hg1.
Qed.

(** A class repeated a fixed number of times. *)
Lemma matches_rep_cls ic p n from to :
  matches ic (Rep n (Cls p)) from to ->
  exists w, ahead from = w +:+ ahead to
            /\ String.length w = n
            /\ Text.all_chars (in_class ic p) w = true
            /\ groups to = groups from.
Proof.
  revert from. induction n as [|n IH]; intros from Hm; cbn [Rep] in Hm.
  - inversion Hm; subst. by exists "".
  - apply matches_seq_inv in Hm as (mid & Hone & Hmore).
    apply matches_cls_inv in Hone as (x & Hx & Ha & Hg1).
    apply IH in Hmore as (w & Hw & Hlen & Hall & Hg).
    exists (String x w). rewrite string_app_cons. cbn [Text.all_chars String.length].
    rewrite Ha, Hw, Hx, Hall, Hlen. by rewrite Hg, Hg1.
Qed.

Lemma attempt_sound ic r prev s gs after :
  attempt ic r prev s = Some (gs, after) ->
  exists to,
    matches ic r {| before := prev; ahead := s; groups := [] |} to
    /\ groups to = gs /\ ahead to = after.
Proof.
  intros Hrun. apply run_sound in Hrun as (to & Hm & Hk).
  injection Hk as <- <-. by exists to.
Qed.

Lemma finditer_from_attempt ic r s : forall skip prev gs,
  gs ∈ finditer_from ic r skip prev s ->
  exists prev' s' after, attempt ic r prev' s' = Some (gs, after).
Proof.
  induction s as [|c s IH]; intros skip prev gs Hin; cbn [finditer_from] in Hin.
  - by apply elem_of_nil in Hin.
  - destruct skip as [|skip]; [|by eapply IH].
    destruct (attempt ic r prev (String c s)) as [[gs' after]|] eqn:Hattempt;
      [|by eapply IH].
    apply elem_of_cons in Hin as [->|Hin]; [by eexists _, _, _ | by eapply IH].
Qed.

Lemma search_from_attempt ic r s : forall prev skipped gs,
  search_from ic r prev s = Some (skipped, gs) ->
  exists prev' s' after, attempt ic r prev' s' = Some (gs, after).
Proof.
  induction s as [|c s IH]; intros prev skipped gs Hs; cbn [search_from] in Hs.
  - destruct (attempt ic r prev "") as [[gs' after]|] eqn:Hattempt; [|done].
    injection Hs as <- <-. by eexists _, _, _.
  - destruct (attempt ic r prev (String c s)) as [[gs' after]|] eqn:Hattempt.
    + injection Hs as <- <-. by eexists _, _, _.
    + destruct (search_from ic r (Some c) s) as [[skipped' gs']|] eqn:Hrest; [|done].
      injection Hs as <- <-. by eapply IH.
Qed.

Lemma matches_captures_one ic body r from to :
  captures_one body r -> matches ic r from to ->
  exists a b,
    matches ic body a b /\ groups a = groups from
    /\ groups to = groups b ++ [consumed a b].
Proof.
  intros Hone. revert from. induction Hone as [post Hpost | pre rest Hpre _ IH];
    intros from Hm; apply matches_seq_inv in Hm as (mid & H1 & H2).
  - apply matches_grp_inv in H1 as (stop & Hbody & ->).
    exists from, stop. split; [done|]. split; [done|].
    by rewrite (matches_group_free _ _ _ _ H2 Hpost).
  - destruct (IH _ H2) as (a & b & Hbody & Ha & Hto).
    exists a, b. split; [done|]. split; [|done].
    by rewrite Ha, (matches_group_free _ _ _ _ H1 Hpre).
Qed.

Lemma in_class_token ic x : in_class ic keeps_in_token x = keeps_in_token x.
Proof.
  unfold in_class. destruct ic; [|done].
  rewrite lower_char_class, upper_char_class. by destruct (keeps_in_token x).
Qed.

Lemma all_chars_ext p q (s : string) :
  (forall c, p c = q c) -> Text.all_chars p s = Text.all_chars q s.
Proof. intros Hpq. induction s as [|c s IH]; cbn; [done | by rewrite Hpq, IH]. Qed.

(** The group of a tray pattern holds at least one character, and only
    letters, digits and hyphens. *)
Lemma token_group ic r prev s gs after :
  captures_one (Plus token_char) r ->
  attempt ic r prev s = Some (gs, after) ->
  exists x w, gs = [String x w] /\ keeps_in_token x = true
              /\ Text.all_chars keeps_in_token w = true.
Proof.
  intros Hone Hattempt.
  apply attempt_sound in Hattempt as (to & Hm & <- & _).
  destruct (matches_captures_one _ _ _ _ _ Hone Hm) as (a & b & Hbody & Ha & Hto).
  apply matches_plus_cls in Hbody as (x & w & Hw & Hx & Hall & Hg).
  exists x, w. rewrite Hto, Hg, Ha, (consumed_app _ _ _ Hw).
  rewrite in_class_token in Hx.
  rewrite (all_chars_ext _ keeps_in_token) in Hall by apply in_class_token.
  done.
Qed.

Lemma patterns_capture_token pattern :
  pattern ∈ patterns -> captures_one (Plus token_char) pattern.
Proof.
  unfold patterns. rewrite !elem_of_cons.
  intros [->|[->|[->|Hin]]]; [| | | by apply elem_of_nil in Hin].
  - unfold tray_state_pattern, Cat. cbn [fold_right].
    do 3 (apply captures_later; [by rewrite ?group_free_Str|]).
    by apply captures_here.
  - unfold paper_out_pattern, Cat. cbn [fold_right].
    do 8 (apply captures_later; [by rewrite ?group_free_Str|]).
    by apply captures_here.
  - unfold state_tray_pattern, Cat. cbn [fold_right].
    do 5 (apply captures_later; [by rewrite ?group_free_Str|]).
    by apply captures_here.
Qed.

Lemma tray_token_cons x w :
  keeps_in_token x = true -> tray_token (String x w) <> "".
Proof. intros Hx. unfold tray_token. cbn. by rewrite Hx. Qed.

Lemma named_tray_not_unknown label : named_tray label -> label <> "Unknown Tray".
Proof. intros (name & _ & ->). done. Qed.

Lemma normalize_tray_no_index_error value : normalize_tray value <> inl IndexError.
Proof.
  intros Hraise. by apply normalize_tray_raises in Hraise as [[=] _].
Qed.

(** ** The labels [detect_empty_trays] collects *)

(** The loop over the matches of one pattern: it ends with the labels
    of all the matches added, or raises what the first match that cannot
    be labelled raises. *)
Lemma add_trays_inr (found : list (list string)) : forall (start trays : gset string),
  add_trays found start = inr trays ->
  (forall m, m ∈ found -> exists label, normalize_tray (group 1 m) = inr label)
  /\ (forall label, label ∈ trays
        <-> label ∈ start
            \/ exists m, m ∈ found /\ normalize_tray (group 1 m) = inr label).
Proof.
  induction found as [|m found IH]; intros start trays; cbn [add_trays].
  - intros [= <-]. split; [by intros m Hm%elem_of_nil|].
    intros label. split; [by left|].
    intros [?|(m & Hm%elem_of_nil & _)]; done.
  - destruct (normalize_tray (group 1 m)) as [e|first] eqn:Hfirst; [done|].
    intros Hrest. destruct (IH _ _ Hrest) as [Hall Helem]. split.
    + intros m' [->|Hm']%elem_of_cons; [by exists first | by apply Hall].
    + intros label. rewrite Helem, elem_of_union, elem_of_singleton. split.
      * intros [[->|?]|(m' & Hm' & Hl)].
        -- right. exists m. split; [apply elem_of_cons; by left | done].
        -- by left.
        -- right. exists m'. split; [apply elem_of_cons; by right | done].
      * intros [?|(m' & Hm' & Hl)]; [left; by right|].
        apply elem_of_cons in Hm' as [->|Hm'].
        -- left. left. rewrite Hfirst in Hl. by injection Hl.
        -- right. by exists m'.
Qed.

Lemma add_trays_inl (found : list (list string)) : forall (start : gset string),
  (exists e, add_trays found start = inl e)
  <-> exists m e, m ∈ found /\ normalize_tray (group 1 m) = inl e.
Proof.
  induction found as [|m found IH]; intros start; cbn [add_trays].
  - split; [by intros [e [=]]|]. by intros (m & e & Hm%elem_of_nil & _).
  - destruct (normalize_tray (group 1 m)) as [e|first] eqn:Hfirst.
    + split; [|by exists e]. intros _. exists m, e.
      split; [apply elem_of_cons; by left | done].
    + rewrite IH. split.
      * intros (m' & e & Hm' & He). exists m', e.
        split; [apply elem_of_cons; by right | done].
      * intros (m' & e & Hm' & He). apply elem_of_cons in Hm' as [->|Hm'].
        -- by rewrite Hfirst in He.
        -- by exists m', e.
Qed.

Lemma add_trays_raised (found : list (list string)) : forall (start : gset string) e,
  add_trays found start = inl e ->
  exists m, m ∈ found /\ normalize_tray (group 1 m) = inl e.
Proof.
  induction found as [|m found IH]; intros start e; cbn [add_trays]; [done|].
  destruct (normalize_tray (group 1 m)) as [e'|first] eqn:Hfirst.
  - intros [= ->]. exists m. split; [apply elem_of_cons; by left | done].
  - intros (m' & Hm' & He)%IH. exists m'. split; [apply elem_of_cons; by right | done].
Qed.

Lemma scan_patterns_raised text (ps : list regex) : forall (start : gset string) e,
  scan_patterns ps text start = inl e ->
  exists pattern m,
    pattern ∈ ps /\ m ∈ re_finditer true pattern text
    /\ normalize_tray (group 1 m) = inl e.
Proof.
  induction ps as [|p ps IH]; intros start e; cbn [scan_patterns]; [done|].
  destruct (add_trays (re_finditer true p text) start) as [e'|mid] eqn:Hmid.
  - intros [= ->]. apply add_trays_raised in Hmid as (m & Hm & He).
    exists p, m. split; [apply elem_of_cons; by left | done].
  - intros (p' & m & Hp' & Hm & He)%IH. exists p', m.
    split; [apply elem_of_cons; by right | done].
Qed.

Lemma scan_patterns_inr text (ps : list regex) : forall (start trays : gset string),
  scan_patterns ps text start = inr trays ->
  (forall pattern m, pattern ∈ ps -> m ∈ re_finditer true pattern text ->
     exists label, normalize_tray (group 1 m) = inr label)
  /\ (forall label, label ∈ trays
        <-> label ∈ start
            \/ exists pattern m,
                 pattern ∈ ps /\ m ∈ re_finditer true pattern text
                 /\ normalize_tray (group 1 m) = inr label).
Proof.
  induction ps as [|p ps IH]; intros start trays; cbn [scan_patterns].
  - intros [= <-]. split; [by intros p m Hp%elem_of_nil|].
    intros label. split; [by left|].
    intros [?|(p & m & Hp%elem_of_nil & _)]; done.
  - destruct (add_trays (re_finditer true p text) start) as [e|mid] eqn:Hmid; [done|].
    intros Hrest. destruct (add_trays_inr _ _ _ Hmid) as [Hall1 Helem1].
    destruct (IH _ _ Hrest) as [Hall2 Helem2]. split.
    + intros p' m [->|Hp']%elem_of_cons Hm; [by apply Hall1 | by eapply Hall2].
    + intros label. rewrite Helem2, Helem1. split.
      * intros [[?|(m & Hm & Hl)]|(p' & m & Hp' & Hm & Hl)].
        -- by left.
        -- right. exists p, m. split; [apply elem_of_cons; by left | done].
        -- right. exists p', m. split; [apply elem_of_cons; by right | done].
      * intros [?|(p' & m & Hp' & Hm & Hl)]; [left; by left|].
        apply elem_of_cons in Hp' as [->|Hp'].
        -- left. right. by exists m.
        -- right. by exists p', m.
Qed.

Lemma scan_patterns_inl text (ps : list regex) : forall (start : gset string),
  (exists e, scan_patterns ps text start = inl e)
  <-> exists pattern m e,
        pattern ∈ ps /\ m ∈ re_finditer true pattern text
        /\ normalize_tray (group 1 m) = inl e.
Proof.
  induction ps as [|p ps IH]; intros start; cbn [scan_patterns].
  - split; [by intros [e [=]]|]. by intros (p & m & e & Hp%elem_of_nil & _).
  - destruct (add_trays (re_finditer true p text) start) as [e|mid] eqn:Hmid.
    + split; [|by exists e]. intros _.
      destruct (proj1 (add_trays_inl _ start) (ex_intro _ e Hmid)) as (m & e' & Hm & He).
      exists p, m, e'. split; [apply elem_of_cons; by left | done].
    + rewrite IH. split.
      * intros (p' & m & e & Hp' & Hm & He). exists p', m, e.
        split; [apply elem_of_cons; by right | done].
      * intros (p' & m & e & Hp' & Hm & He). apply elem_of_cons in Hp' as [->|Hp'].
        -- exfalso. destruct (proj2 (add_trays_inl (re_finditer true p text) start))
             as [e' He']; [by exists m, e|]. by rewrite Hmid in He'.
        -- by exists p', m, e.
Qed.

Lemma found_trays_elem text trays label :
  found_trays text = inr trays ->
  label ∈ trays
  <-> exists pattern m,
        pattern ∈ patterns /\ m ∈ re_finditer true pattern text
        /\ normalize_tray (group 1 m) = inr label.
Proof.
  intros Hfound. apply scan_patterns_inr in Hfound as [_ Helem].
  rewrite Helem. split; [|by right]. intros [Hin|?]; [|done].
  by apply elem_of_empty in Hin.
Qed.

Lemma match_label_named text pattern m label :
  pattern ∈ patterns -> m ∈ re_finditer true pattern text ->
  normalize_tray (group 1 m) = inr label -> named_tray label.
Proof.
  intros Hp Hm Hlabel.
  apply finditer_from_attempt in Hm as (prev & s & after & Hattempt).
  apply (token_group _ _ _ _ _ _ (patterns_capture_token _ Hp)) in Hattempt
    as (x & w & -> & Hx & _).
  cbn [group nth Nat.sub] in Hlabel.
  by apply (normalize_tray_label (String x w) label Hlabel), tray_token_cons.
Qed.

Lemma found_trays_named text trays label :
  found_trays text = inr trays -> label ∈ trays -> named_tray label.
Proof.
  intros Hfound (pattern & m & Hp & Hm & Hl)%(found_trays_elem _ _ _ Hfound).
  by eapply match_label_named.
Qed.

Lemma found_trays_none text trays :
  found_trays text = inr trays ->
  trays = ∅
  <-> forall pattern, pattern ∈ patterns -> re_finditer true pattern text = [].
Proof.
  intros Hfound. pose proof (scan_patterns_inr _ _ _ _ Hfound) as [Hall _]. split.
  - intros -> pattern Hp.
    destruct (re_finditer true pattern text) as [|m ms] eqn:Hms; [done|]. exfalso.
    destruct (Hall pattern m Hp) as [label Hlabel]; [rewrite Hms; apply elem_of_cons; by left|].
    assert (Hin : label ∈ (∅ : gset string)).
    { apply (found_trays_elem _ _ _ Hfound). exists pattern, m. rewrite Hms.
      split; [done|]. split; [apply elem_of_cons; by left | done]. }
    by apply elem_of_empty in Hin.
  - intros Hno. apply set_eq. intros label. split; [|by intros Hin%elem_of_empty].
    intros (pattern & m & Hp & Hm & _)%(found_trays_elem _ _ _ Hfound).
    rewrite (Hno _ Hp) in Hm. by apply elem_of_nil in Hm.
Qed.

(** ** Sorting labels *)

Lemma insert_label_perm a (l : list string) : insert_label a l ≡ₚ a :: l.
Proof.
  induction l as [|b l IH]; [done|]. cbn [insert_label].
  destruct (String.leb a b); [done|]. rewrite IH. apply perm_swap.
Qed.

Lemma sorted_labels_perm (l : list string) : sorted_labels l ≡ₚ l.
Proof.
  induction l as [|a l IH]; [done|]. cbn [sorted_labels fold_right].
  rewrite insert_label_perm. by constructor.
Qed.

Lemma insert_label_hd a b (l : list string) :
  String.leb b a = true ->
  HdRel (fun x y => String.leb x y = true) b l ->
  HdRel (fun x y => String.leb x y = true) b (insert_label a l).
Proof.
  intros Hba Hhd. destruct l as [|c l]; cbn [insert_label]; [by constructor|].
  destruct (String.leb a c); constructor; [done|]. by inversion Hhd.
Qed.

Lemma insert_label_sorted a (l : list string) :
  Sorted (fun x y => String.leb x y = true) l ->
  Sorted (fun x y => String.leb x y = true) (insert_label a l).
Proof.
  induction 1 as [|b l Hs IH Hhd]; cbn [insert_label]; [by repeat constructor|].
  destruct (String.leb a b) eqn:Hab.
  - constructor; [by constructor | by constructor].
  - constructor; [done|]. apply insert_label_hd; [|done].
    by destruct (String.leb_total a b) as [Hle|Hle]; [congruence|].
Qed.

Lemma sorted_labels_sorted (l : list string) :
  Sorted (fun x y => String.leb x y = true) (sorted_labels l).
Proof.
  induction l as [|a l IH]; [constructor|]. by apply insert_label_sorted.
Qed.

Lemma leb_ne_ltb (a b : string) : String.leb a b = true -> a <> b -> String.ltb a b = true.
Proof.
  unfold String.leb, String.ltb. intros Hle Hne.
  destruct (String.compare a b) eqn:Hc; [|done|done].
  by apply String.compare_eq_iff in Hc.
Qed.

Lemma sorted_strict (l : list string) :
  Sorted (fun x y => String.leb x y = true) l -> NoDup l -> Sorted label_order l.
Proof.
  induction 1 as [|a l Hs IH Hhd]; intros Hnd; [constructor|].
  apply NoDup_cons in Hnd as [Ha Hnd]. constructor; [by apply IH|].
  destruct Hhd as [|b l Hab]; constructor.
  apply leb_ne_ltb; [done|]. intros ->. apply Ha. apply elem_of_cons. by left.
Qed.

(** What [detect_empty_trays] returns, by the trays the patterns find. *)
Lemma detect_empty_trays_inr text labels :
  detect_empty_trays text = inr labels ->
  exists trays : gset string,
    found_trays text = inr trays
    /\ labels
       = sorted_labels (elements
           (if decide (trays = ∅) then
              match re_search true unnamed_pattern text with
              | Some _ => {[ "Unknown Tray" ]} ∪ trays
              | None => trays
              end
            else trays)).
Proof.
  unfold detect_empty_trays. destruct (found_trays text) as [e|trays]; [done|].
  intros [= <-]. by exists trays.
Qed.

(** What [detect_empty_trays] raises is what [normalize_tray] raises on
    the tray of a match. *)
Lemma detect_empty_trays_raised text e :
  detect_empty_trays text = inl e ->
  exists pattern m,
    pattern ∈ patterns /\ m ∈ re_finditer true pattern text
    /\ normalize_tray (group 1 m) = inl e.
Proof.
  unfold detect_empty_trays. destruct (found_trays text) as [e'|trays] eqn:Hfound; [|done].
  intros [= ->]. by apply scan_patterns_raised in Hfound.
Qed.

Lemma labels_sorted text labels :
  detect_empty_trays text = inr labels ->
  Sorted label_order labels /\ NoDup labels.
Proof.
  intros (trays & _ & ->)%detect_empty_trays_inr.
  match goal with |- context [elements ?X] => generalize X as shown end.
  intros shown.
  assert (Hnd : NoDup (sorted_labels (elements shown))).
  { rewrite sorted_labels_perm. apply NoDup_elements. }
  split; [|done]. apply sorted_strict; [apply sorted_labels_sorted | done].
Qed.

(** X14: the labels [detect_empty_trays] returns come in strictly
    ascending order of their text: none is listed twice. *)
Theorem detect_empty_trays_sorted text labels :
  detect_empty_trays text = inr labels ->
  Sorted label_order labels /\ NoDup labels.
Proof. apply labels_sorted. Qed.

Lemma sorted_labels_elem (X : gset string) label :
  label ∈ sorted_labels (elements X) <-> label ∈ X.
Proof. by rewrite sorted_labels_perm, elem_of_elements. Qed.

Lemma sorted_labels_only (x : string) :
  sorted_labels (elements ({[ x ]} ∪ ∅ : gset string)) = [x].
Proof.
  assert (Hset : ({[ x ]} ∪ ∅ : gset string) = {[ x ]}) by apply union_empty_r_L.
  rewrite Hset, elements_singleton. reflexivity.
Qed.

Lemma detect_empty_trays_labelled text labels label :
  detect_empty_trays text = inr labels ->
  label ∈ labels -> label = "Unknown Tray" \/ named_tray label.
Proof.
  intros (trays & Hfound & ->)%detect_empty_trays_inr.
  destruct (decide (trays = ∅)) as [->|Hsome].
  - destruct (re_search true unnamed_pattern text) as [m|].
    + rewrite sorted_labels_only. intros Hl. left.
      apply elem_of_cons in Hl as [Hl|Hl]; [exact Hl | by apply elem_of_nil in Hl].
    + rewrite elements_empty. by intros Hin%elem_of_nil.
  - intros Hl%sorted_labels_elem. right. by eapply found_trays_named.
Qed.

(** X15: in ASCII text, when [detect_empty_trays] returns, every match
    of a tray pattern contributes a label "Tray " followed by its name,
    every label returned is such a label or "Unknown Tray", and
    "Unknown Tray" is returned only alone, when none of the three tray
    patterns matches anywhere in the text and the phrase "paper out" or
    "tray empty" occurs in it.  It raises exactly when the tray of some
    match cannot be labelled. *)
Theorem detect_empty_trays_labels text :
  ascii_text text ->
  (forall labels, detect_empty_trays text = inr labels ->
     (forall label, label ∈ labels -> label = "Unknown Tray" \/ named_tray label)
     /\ (forall pattern m,
           pattern ∈ patterns -> m ∈ re_finditer true pattern text ->
           exists label,
             normalize_tray (group 1 m) = inr label
             /\ named_tray label /\ label ∈ labels)
     /\ ("Unknown Tray" ∈ labels ->
         labels = ["Unknown Tray"]
         /\ (forall pattern, pattern ∈ patterns -> re_finditer true pattern text = [])
         /\ re_search true unnamed_pattern text <> None))
  /\ ((exists e, detect_empty_trays text = inl e)
      <-> exists pattern m e,
            pattern ∈ patterns /\ m ∈ re_finditer true pattern text
            /\ normalize_tray (group 1 m) = inl e).
Proof.
  intros _. split.
  - intros labels Hlabels. split; [intros label; by apply (detect_empty_trays_labelled text labels)|].
    destruct (detect_empty_trays_inr _ _ Hlabels) as (trays & Hfound & ->). split.
    + intros pattern m Hp Hm.
      destruct (proj1 (scan_patterns_inr _ _ _ _ Hfound) pattern m Hp Hm)
        as [label Hlabel].
      exists label. split; [done|].
      assert (Hin : label ∈ trays).
      { apply (found_trays_elem _ _ _ Hfound). by exists pattern, m. }
      split; [by eapply match_label_named|].
      destruct (decide (trays = ∅)) as [->|Hsome];
        [by apply elem_of_empty in Hin | by apply sorted_labels_elem].
    + destruct (decide (trays = ∅)) as [->|Hsome].
      * pose proof (proj1 (found_trays_none _ _ Hfound) eq_refl) as Hno.
        destruct (re_search true unnamed_pattern text) as [m|].
        -- rewrite sorted_labels_only. by intros _.
        -- rewrite elements_empty. by intros Hin%elem_of_nil.
      * intros Hl%sorted_labels_elem. apply (found_trays_named _ _ _ Hfound) in Hl.
        by apply named_tray_not_unknown in Hl.
  - rewrite <- (scan_patterns_inl text patterns ∅). fold (found_trays text).
    unfold detect_empty_trays.
    destruct (found_trays text) as [e|trays]; split; intros [e' He']; try done;
      by exists e.
Qed.

(** X16: no tray is reported exactly when none of the three tray
    patterns matches anywhere in the text and neither "paper out" nor
    "tray empty" occurs in it. *)
Theorem detect_empty_trays_none text :
  detect_empty_trays text = inr []
  <-> (forall pattern, pattern ∈ patterns -> re_finditer true pattern text = [])
      /\ re_search true unnamed_pattern text = None.
Proof.
  assert (Hempty : forall X : gset string, sorted_labels (elements X) = [] <-> X = ∅).
  { intros X. split.
    - intros Hs. apply leibniz_equiv, elements_empty_inv. apply Permutation_nil_r.
      by rewrite <- Hs, sorted_labels_perm.
    - intros ->. by rewrite elements_empty. }
  split.
  - intros Hnone. destruct (detect_empty_trays_inr _ _ Hnone) as (trays & Hfound & Hl).
    symmetry in Hl. apply Hempty in Hl.
    destruct (decide (trays = ∅)) as [->|Hsome]; [|done].
    split; [by apply (found_trays_none _ _ Hfound)|].
    destruct (re_search true unnamed_pattern text) as [m|]; [|done].
    exfalso. assert (Hin : "Unknown Tray" ∈ (∅ : gset string)).
    { rewrite <- Hl. apply elem_of_union. left. by apply elem_of_singleton. }
    by apply elem_of_empty in Hin.
  - intros [Hno Hsearch]. unfold detect_empty_trays.
    destruct (found_trays text) as [e|trays] eqn:Hfound.
    + exfalso.
      destruct (proj1 (scan_patterns_inl text patterns ∅) (ex_intro _ e Hfound))
        as (pattern & m & e' & Hp & Hm & _).
      rewrite (Hno _ Hp) in Hm. by apply elem_of_nil in Hm.
    + apply (found_trays_none _ _ Hfound) in Hno as ->.
      rewrite decide_True by done. rewrite Hsearch. by rewrite elements_empty.
Qed.

(** ** The lines of a record *)

Lemma matches_bol_inv ic from to : matches ic Bol from to -> to = from.
Proof. by inversion 1. Qed.

Lemma matches_bnd_inv ic from to : matches ic Bnd from to -> to = from.
Proof. by inversion 1. Qed.

Lemma matches_eol_inv ic from to : matches ic Eol from to -> to = from.
Proof. by inversion 1. Qed.

Lemma matches_eps_inv ic from to : matches ic Eps from to -> to = from.
Proof. by inversion 1. Qed.

(** A match of the id pattern: its first group is the five digits the
    line starts with. *)
Lemma id_match line gs after :
  attempt false id_pattern None line = Some (gs, after) ->
  exists id rest tail,
    gs = [id; rest] /\ five_digits id /\ line = id +:+ tail.
Proof.
  intros Hattempt. apply attempt_sound in Hattempt as (to & Hm & <- & _).
  unfold id_pattern, Cat in Hm. cbn [fold_right] in Hm.
  apply matches_seq_inv in Hm as (c1 & ->%matches_bol_inv & Hm).
  apply matches_seq_inv in Hm as (c2 & Hid & Hm).
  apply matches_seq_inv in Hm as (c3 & ->%matches_bnd_inv & Hm).
  apply matches_seq_inv in Hm as (c4 & Hrest & Hm).
  apply matches_seq_inv in Hm as (c5 & ->%matches_eol_inv & ->%matches_eps_inv).
  apply matches_grp_inv in Hid as (s1 & Hid & ->).
  apply matches_grp_inv in Hrest as (s2 & Hrest & ->).
  apply matches_rep_cls in Hid as (w & Hw & Hlen & Hall & Hg1).
  apply matches_star_cls in Hrest as (w2 & Hw2 & _ & Hg2).
  cbn [ahead groups capture before] in *.
  exists w, (consumed (capture {| before := None; ahead := line; groups := [] |} s1) s2),
    (ahead s1).
  rewrite Hg2, Hg1.
  rewrite (consumed_app {| before := None; ahead := line; groups := [] |} s1 w Hw).
  by repeat split.
Qed.

Lemma re_match_attempt ic r s m :
  re_match ic r s = Some m -> exists after, attempt ic r None s = Some (m, after).
Proof.
  unfold re_match. destruct (attempt ic r None s) as [[gs after]|]; [|done].
  intros [= <-]. by exists after.
Qed.

Lemma id_match_group line m :
  re_match false id_pattern line = Some m ->
  five_digits (group 1 m) /\ group 1 m = String.substring 0 5 line.
Proof.
  intros (after & Hattempt)%re_match_attempt.
  apply id_match in Hattempt as (id & rest & tail & -> & Hid & ->).
  cbn [group nth Nat.sub]. split; [done|].
  destruct Hid as [Hlen _]. by rewrite <- Hlen, substring_app_prefix.
Qed.

(** ** What the parser raises *)

Lemma lower_char_colon c : Text.lower_char c = ":"%char -> c = ":"%char.
Proof.
  destruct c as [[] [] [] [] [] [] [] []]; cbv; intros Hc;
    (reflexivity || discriminate Hc).
Qed.

Lemma split_once_parts sep s : split_once sep s <> [].
Proof.
  induction s as [|x s IH]; cbn [split_once]; [done|].
  destruct (Ascii.eqb x sep); [done|]. by destruct (split_once sep s).
Qed.

Lemma split_once_cons sep c s :
  Ascii.eqb c sep = false ->
  split_once sep (String c s) !! 1 = split_once sep s !! 1.
Proof.
  intros Hc. cbn [split_once]. rewrite Hc.
  pose proof (split_once_parts sep s) as Hne.
  by destruct (split_once sep s).
Qed.

(** A line whose lower-cased text starts with a prefix that holds a
    colon has a second part. *)
Lemma split_once_guarded (a b line : string) :
  startswith (a +:+ String ":" b) (Text.lower line) = true ->
  is_Some (split_once ":" line !! 1).
Proof.
  unfold startswith. revert line. induction a as [|x a IH]; intros line Hstart.
  - destruct line as [|c line]; [done|].
    rewrite string_app_nil_l in Hstart. cbn [Text.lower Text.map_chars Text.strip_prefix] in Hstart.
    destruct (Ascii.eqb_spec ":" (Text.lower_char c)) as [Hc|]; [|done].
    symmetry in Hc. apply lower_char_colon in Hc as ->. by eexists.
  - destruct line as [|c line]; [done|].
    rewrite string_app_cons in Hstart.
    cbn [Text.lower Text.map_chars Text.strip_prefix] in Hstart.
    destruct (Ascii.eqb x (Text.lower_char c)); [|done].
    destruct (Ascii.eqb c ":") eqn:Hc.
    + cbn [split_once]. rewrite Hc. by eexists.
    + rewrite split_once_cons by done. by apply IH.
Qed.

Lemma field_value_guarded (a b line : string) :
  startswith (a +:+ String ":" b) (Text.lower line) = true ->
  exists value, field_value line = inr value.
Proof.
  intros [value Hvalue]%split_once_guarded. unfold field_value. rewrite Hvalue.
  by eexists.
Qed.

Lemma detect_empty_trays_value_error text e :
  detect_empty_trays text = inl e -> e = ValueError.
Proof.
  intros (pattern & m & _ & _ & Hraise)%detect_empty_trays_raised.
  by apply normalize_tray_raises in Hraise as [-> _].
Qed.

Lemma finalize_record_value_error record e :
  finalize_record record = inl e -> e = ValueError.
Proof.
  unfold finalize_record. cbn zeta.
  destruct (detect_empty_trays _) as [e'|trays] eqn:Hdetect; [|done].
  intros [= ->]. by apply detect_empty_trays_value_error in Hdetect.
Qed.

Lemma close_current_value_error st e :
  close_current st = inl e -> e = ValueError.
Proof.
  unfold close_current. destruct st.2 as [current|]; [|done].
  destruct (finalize_record current) as [e'|finished] eqn:Hfinal; [|done].
  intros [= ->]. by apply finalize_record_value_error in Hfinal.
Qed.

Lemma parse_line_value_error st line e :
  parse_line st line = inl e -> e = ValueError.
Proof.
  unfold parse_line. destruct (re_match false id_pattern line).
  { destruct (close_current st) as [e'|records] eqn:Hclose; [|done].
    intros [= ->]. by apply close_current_value_error in Hclose. }
  destruct st.2 as [current|]; [|done]. cbn zeta.
  destruct (startswith "description:" (Text.lower line)) eqn:Hd.
  { by destruct (field_value_guarded "description" "" line Hd) as [v ->]. }
  destruct (startswith "status message:" (Text.lower line)) eqn:Hs.
  { by destruct (field_value_guarded "status message" "" line Hs) as [v ->]. }
  destruct (startswith "printer text:" (Text.lower line)) eqn:Hp.
  { by destruct (field_value_guarded "printer text" "" line Hp) as [v ->]. }
  by destruct (startswith "fuser:" (Text.lower line)).
Qed.

Lemma parse_loop_value_error lines : forall st e,
  parse_loop st lines = inl e -> e = ValueError.
Proof.
  induction lines as [|line lines IH]; intros st e; cbn [parse_loop]; [done|].
  destruct (parse_line st line) as [e'|st'] eqn:Hline; [|apply IH].
  intros [= ->]. by apply parse_line_value_error in Hline.
Qed.

Lemma parse_lines_value_error lines e :
  parse_lines lines = inl e -> e = ValueError.
Proof.
  unfold parse_lines. destruct (parse_loop ([], None) lines) as [e'|st] eqn:Hloop.
  { intros [= ->]. by apply parse_loop_value_error in Hloop. }
  destruct (close_current st) as [e'|records] eqn:Hclose; [|done].
  intros [= ->]. by apply close_current_value_error in Hclose.
Qed.

(** ** Pages the parser returns records for *)

Lemma matches_length ic r from to :
  matches ic r from to -> String.length (ahead to) <= String.length (ahead from).
Proof. intros [w ->]%matches_ahead. rewrite string_length_app. lia. Qed.

Lemma matches_captures_one_within ic body r from to :
  captures_one body r -> matches ic r from to ->
  exists a b,
    matches ic body a b /\ groups a = groups from
    /\ groups to = groups b ++ [consumed a b]
    /\ String.length (ahead a) <= String.length (ahead from).
Proof.
  intros Hone. revert from. induction Hone as [post Hpost | pre rest Hpre _ IH];
    intros from Hm; apply matches_seq_inv in Hm as (mid & H1 & H2).
  - apply matches_grp_inv in H1 as (stop & Hbody & ->).
    exists from, stop. split; [done|]. split; [done|]. split; [|lia].
    by rewrite (matches_group_free _ _ _ _ H2 Hpost).
  - destruct (IH _ H2) as (a & b & Hbody & Ha & Hto & Hlen).
    exists a, b. split; [done|].
    rewrite Ha, (matches_group_free _ _ _ _ H1 Hpre). split; [done|]. split; [done|].
    apply matches_length in H1. lia.
Qed.

Lemma consumed_length from to : String.length (consumed from to) <= String.length (ahead from).
Proof.
  unfold consumed. generalize (String.length (ahead from) - String.length (ahead to)).
  generalize (ahead from). intros s. induction s as [|c s IH]; intros [|n]; cbn; try lia.
  specialize (IH n). lia.
Qed.

Lemma token_group_length ic r prev s gs after :
  captures_one (Plus token_char) r ->
  attempt ic r prev s = Some (gs, after) ->
  String.length (group 1 gs) <= String.length s.
Proof.
  intros Hone Hattempt.
  apply attempt_sound in Hattempt as (to & Hm & <- & _).
  destruct (matches_captures_one_within _ _ _ _ _ Hone Hm)
    as (a & b & Hbody & Ha & -> & Hlen).
  apply matches_plus_cls in Hbody as (x & w & _ & _ & _ & ->). rewrite Ha.
  cbn [groups app group nth Nat.sub ahead] in *.
  pose proof (consumed_length a b). lia.
Qed.

Lemma finditer_from_within ic r s : forall skip prev gs,
  gs ∈ finditer_from ic r skip prev s ->
  exists prev' s' after,
    attempt ic r prev' s' = Some (gs, after) /\ String.length s' <= String.length s.
Proof.
  induction s as [|c s IH]; intros skip prev gs Hin; cbn [finditer_from] in Hin.
  - by apply elem_of_nil in Hin.
  - assert (Hrest : forall skip',
              gs ∈ finditer_from ic r skip' (Some c) s ->
              exists prev' s' after,
                attempt ic r prev' s' = Some (gs, after)
                /\ String.length s' <= String.length (String c s)).
    { intros skip' (prev' & s' & after & Ha & Hlen)%IH.
      exists prev', s', after. split; [done|]. cbn [String.length]. lia. }
    destruct skip as [|skip]; [|by eapply Hrest].
    destruct (attempt ic r prev (String c s)) as [[gs' after]|] eqn:Hattempt;
      [|by eapply Hrest].
    apply elem_of_cons in Hin as [->|Hin]; [by eexists _, _, _ | by eapply Hrest].
Qed.

Lemma map_chars_length f s : String.length (Text.map_chars f s) = String.length s.
Proof. induction s as [|c s IH]; cbn; [done | by rewrite IH]. Qed.

Lemma filter_chars_length p s : String.length (Text.filter_chars p s) <= String.length s.
Proof. induction s as [|c s IH]; cbn; [done|]. destruct (p c); cbn; lia. Qed.

Lemma strip_prefix_length p : forall s rest,
  Text.strip_prefix p s = Some rest -> String.length rest <= String.length s.
Proof.
  induction p as [|a p IH]; intros s rest; cbn [Text.strip_prefix].
  - by intros [= ->].
  - destruct s as [|b s]; [done|]. destruct (Ascii.eqb a b); [|done].
    intros Hrest%IH. cbn [String.length]. lia.
Qed.

Lemma tray_number_length value digits :
  tray_number value = Some digits -> String.length digits <= String.length value.
Proof.
  assert (Htoken : String.length (tray_token value) <= String.length value).
  { unfold tray_token, Text.upper. rewrite map_chars_length. apply filter_chars_length. }
  unfold tray_number. cbn zeta.
  destruct (Text.isdigit (tray_token value)); [by intros [= <-]|].
  destruct (Text.strip_prefix "TRAY" (tray_token value)) as [rest|] eqn:Hrest; [|done].
  apply strip_prefix_length in Hrest.
  destruct (Text.isdigit rest); [|done]. intros [= <-]. lia.
Qed.

(** A text [detect_empty_trays] raises on is longer than the numbers
    [int] takes. *)
Lemma detect_empty_trays_raised_long text e :
  detect_empty_trays text = inl e -> Text.max_str_digits < String.length text.
Proof.
  intros (pattern & m & Hp & Hm & Hraise)%detect_empty_trays_raised.
  apply normalize_tray_raises in Hraise as (_ & digits & Hdigits%tray_number_length & Hlong).
  apply finditer_from_within in Hm as (prev & s & after & Hattempt & Hs).
  apply (token_group_length _ _ _ _ _ _ (patterns_capture_token _ Hp)) in Hattempt.
  lia.
Qed.

Lemma join_filter_length (P : string -> Prop) `{!forall x, Decision (P x)} (a b c : string) :
  String.length (join " " (filter P [a; b; c]))
  <= String.length a + String.length b + String.length c + 2.
Proof.
  rewrite !filter_cons, filter_nil.
  destruct (decide (P a)), (decide (P b)), (decide (P c)); cbn [join];
    rewrite ?string_length_app; cbn [String.length]; lia.
Qed.

Lemma finalize_record_short bound record :
  3 * bound + 2 <= Text.max_str_digits ->
  short_fields bound record ->
  exists finished, finalize_record record = inr finished.
Proof.
  intros Hbound (Hs & Hp & Ht). unfold finalize_record. cbn zeta.
  match goal with |- context [detect_empty_trays ?text] =>
    pose proof (join_filter_length
                  (fun value => value <> "" /\ Text.lower value ∉ ["none"; "n/a"])
                  (status_message record) (printer_text record) (row_tail record))
      as Hlen;
    destruct (detect_empty_trays text) as [e|trays] eqn:Hdetect
  end; [|by eexists].
  apply detect_empty_trays_raised_long in Hdetect. lia.
Qed.

Lemma close_current_short bound st :
  3 * bound + 2 <= Text.max_str_digits ->
  (forall current, st.2 = Some current -> short_fields bound current) ->
  exists records, close_current st = inr records.
Proof.
  intros Hbound Hst. unfold close_current. destruct st.2 as [current|]; [|by eexists].
  destruct (finalize_record_short bound current Hbound (Hst _ eq_refl)) as [finished ->].
  by eexists.
Qed.

Lemma drop_while_length p s : String.length (Text.drop_while p s) <= String.length s.
Proof. induction s as [|c s IH]; cbn; [done|]. destruct (p c); cbn; lia. Qed.

Lemma rstrip_length s : String.length (rstrip s) <= String.length s.
Proof.
  induction s as [|c s IH]; cbn [rstrip]; [done|]. cbn zeta.
  destruct (Text.is_space c && String.eqb (rstrip s) ""); cbn [String.length]; lia.
Qed.

Lemma strip_length s : String.length (strip s) <= String.length s.
Proof.
  unfold strip, lstrip. pose proof (rstrip_length (Text.drop_while Text.is_space s)).
  pose proof (drop_while_length Text.is_space s). lia.
Qed.

Lemma split_once_length sep s : forall value,
  split_once sep s !! 1 = Some value -> String.length value <= String.length s.
Proof.
  induction s as [|c s IH]; intros value; cbn [split_once]; [done|].
  destruct (Ascii.eqb c sep).
  - intros [= ->]. cbn [String.length]. lia.
  - destruct (split_once sep s) as [|first others]; [done|].
    intros Hv. specialize (IH value Hv). cbn [String.length]. lia.
Qed.

Lemma field_value_length line value :
  field_value line = inr value -> String.length value <= String.length line.
Proof.
  unfold field_value. destruct (split_once ":" line !! 1) as [v|] eqn:Hv; [|done].
  intros [= <-]. apply split_once_length in Hv. pose proof (strip_length v). lia.
Qed.

(** The second group of a match of the id pattern is part of the
    line. *)
Lemma id_match_tail line gs after :
  attempt false id_pattern None line = Some (gs, after) ->
  String.length (group 2 gs) <= String.length line.
Proof.
  intros Hattempt. apply attempt_sound in Hattempt as (to & Hm & <- & _).
  unfold id_pattern, Cat in Hm. cbn [fold_right] in Hm.
  apply matches_seq_inv in Hm as (c1 & ->%matches_bol_inv & Hm).
  apply matches_seq_inv in Hm as (c2 & Hid & Hm).
  apply matches_seq_inv in Hm as (c3 & ->%matches_bnd_inv & Hm).
  apply matches_seq_inv in Hm as (c4 & Hrest & Hm).
  apply matches_seq_inv in Hm as (c5 & ->%matches_eol_inv & ->%matches_eps_inv).
  apply matches_grp_inv in Hid as (s1 & Hid & ->).
  apply matches_grp_inv in Hrest as (s2 & Hrest & ->).
  pose proof (matches_length _ _ _ _ Hid) as Hlen.
  apply matches_rep_cls in Hid as (w & Hw & _ & _ & Hg1).
  apply matches_star_cls in Hrest as (w2 & _ & _ & Hg2).
  cbn [ahead groups capture before] in *. rewrite Hg2, Hg1.
  cbn [app group nth Nat.sub].
  match goal with |- String.length (consumed ?a ?b) <= _ =>
    pose proof (consumed_length a b) as Hc end.
  cbn [ahead capture] in Hc. lia.
Qed.

Lemma new_record_short bound id tail :
  String.length tail <= bound -> short_fields bound (new_record id tail).
Proof.
  intros Htail. unfold new_record. destruct (parse_tail_metrics tail) as [found last_update].
  unfold short_fields. cbn. repeat split; (done || lia).
Qed.

Lemma read_fuser_line_short bound line current :
  short_fields bound current -> short_fields bound (read_fuser_line line current).
Proof.
  unfold read_fuser_line.
  destruct (re_search true fuser_pattern line), (re_search true belt_pattern line); done.
Qed.

Lemma parse_line_short bound st line :
  3 * bound + 2 <= Text.max_str_digits ->
  String.length line <= bound ->
  (forall current, st.2 = Some current -> short_fields bound current) ->
  exists st',
    parse_line st line = inr st'
    /\ forall current, st'.2 = Some current -> short_fields bound current.
Proof.
  intros Hbound Hline Hst. unfold parse_line.
  destruct (re_match false id_pattern line) as [m|] eqn:Hid.
  { destruct (close_current_short bound st Hbound Hst) as [records ->].
    eexists. split; [done|]. cbn [snd]. intros current [= <-].
    apply new_record_short.
    apply re_match_attempt in Hid as (after & Hattempt%id_match_tail).
    pose proof (strip_length (group 2 m)). lia. }
  destruct st as [records [current|]]; cbn [fst snd] in *; [|by eexists].
  destruct (Hst _ eq_refl) as (Hs & Hp & Ht).
  destruct (startswith "description:" (Text.lower line)) eqn:Hd.
  { destruct (field_value_guarded "description" "" line Hd) as [v ->].
    eexists. split; [done|]. by intros ? [= <-]. }
  destruct (startswith "status message:" (Text.lower line)) eqn:Hsm.
  { destruct (field_value_guarded "status message" "" line Hsm) as [v Hv]. rewrite Hv.
    apply field_value_length in Hv.
    eexists. split; [done|]. intros ? [= <-]. repeat split; cbn; (done || lia). }
  destruct (startswith "printer text:" (Text.lower line)) eqn:Hpt.
  { destruct (field_value_guarded "printer text" "" line Hpt) as [v Hv]. rewrite Hv.
    apply field_value_length in Hv.
    eexists. split; [done|]. intros ? [= <-]. repeat split; cbn; (done || lia). }
  destruct (startswith "fuser:" (Text.lower line)).
  - eexists. split; [done|]. intros ? [= <-]. by apply read_fuser_line_short.
  - eexists. split; [done|]. by intros ? [= <-].
Qed.

Lemma parse_loop_short bound lines : forall st,
  3 * bound + 2 <= Text.max_str_digits ->
  Forall (fun line => String.length line <= bound) lines ->
  (forall current, st.2 = Some current -> short_fields bound current) ->
  exists st',
    parse_loop st lines = inr st'
    /\ forall current, st'.2 = Some current -> short_fields bound current.
Proof.
  induction lines as [|line lines IH]; intros st Hbound Hlines Hst; cbn [parse_loop].
  { by exists st. }
  apply Forall_cons in Hlines as [Hline Hlines].
  destruct (parse_line_short bound st line Hbound Hline Hst) as (st' & -> & Hst').
  by apply IH.
Qed.

Lemma parse_lines_short bound lines :
  3 * bound + 2 <= Text.max_str_digits ->
  Forall (fun line => String.length line <= bound) lines ->
  exists records, parse_lines lines = inr records.
Proof.
  intros Hbound Hlines. unfold parse_lines.
  destruct (parse_loop_short bound lines ([], None) Hbound Hlines) as (st & -> & Hst);
    [done|].
  destruct (close_current_short bound st Hbound Hst) as [records ->]. by eexists.
Qed.

(** X17: the parser raises no [IndexError], since the split of a field
    line always has the second part the parser indexes: the one
    exception that leaves it is the [ValueError] of [int] on a tray
    number of more than 4300 digits.  It returns records for every page
    whose lines are short enough for the three fields of a record,
    joined by two spaces, to stay within 4300 characters. *)
Theorem parse_lines_raises (bound : nat) lines :
  (forall e, parse_lines lines = inl e -> e = ValueError)
  /\ (3 * bound + 2 <= Text.max_str_digits ->
      Forall (fun line => String.length line <= bound) lines ->
      exists records, parse_lines lines = inr records).
Proof.
  split; [intros e; apply parse_lines_value_error | apply parse_lines_short].
Qed.

(** ** What the records of the parser hold *)

Lemma in_class_digit ic x : in_class ic Text.is_digit x = Text.is_digit x.
Proof.
  unfold in_class. destruct ic; [|done].
  destruct x as [[] [] [] [] [] [] [] []]; reflexivity.
Qed.

Lemma matches_alt_inv ic r1 r2 from to :
  matches ic (Alt r1 r2) from to -> matches ic r1 from to \/ matches ic r2 from to.
Proof. inversion 1; subst; [by left | by right]. Qed.

(** One to three characters of a class. *)
Lemma matches_upto3_cls ic p from to :
  matches ic (UpTo3 (Cls p)) from to ->
  exists w, ahead from = w +:+ ahead to
            /\ 1 <= String.length w <= 3
            /\ Text.all_chars (in_class ic p) w = true
            /\ groups to = groups from.
Proof.
  unfold UpTo3, Opt. intros Hm.
  apply matches_seq_inv in Hm as (c1 & H1 & Hm).
  apply matches_cls_inv in H1 as (x1 & Hx1 & Ha1 & Hg1).
  apply matches_alt_inv in Hm as [Hm | ->%matches_eps_inv].
  - apply matches_seq_inv in Hm as (c2 & H2 & Hm).
    apply matches_cls_inv in H2 as (x2 & Hx2 & Ha2 & Hg2).
    apply matches_alt_inv in Hm as [H3 | ->%matches_eps_inv].
    + apply matches_cls_inv in H3 as (x3 & Hx3 & Ha3 & Hg3).
      exists (String x1 (String x2 (String x3 ""))).
      rewrite Ha1, Ha2, Ha3, Hg3, Hg2, Hg1. cbn [Text.all_chars String.length].
      rewrite Hx1, Hx2, Hx3. repeat split; lia.
    + exists (String x1 (String x2 "")).
      rewrite Ha1, Ha2, Hg2, Hg1. cbn [Text.all_chars String.length].
      rewrite Hx1, Hx2. repeat split; lia.
  - exists (String x1 "").
    rewrite Ha1, Hg1. cbn [Text.all_chars String.length].
    rewrite Hx1. repeat split; lia.
Qed.

Lemma digit_value c : Text.is_digit c = true -> (Text.code c - 48 <= 9)%N.
Proof.
  unfold Text.is_digit, Text.between. intros [_ Hhi%N.leb_le]%andb_prop. lia.
Qed.

Lemma int_of_three w :
  String.length w <= 3 -> Text.all_chars Text.is_digit w = true ->
  (Text.int_of w <= 999)%N.
Proof.
  unfold Text.int_of. intros Hlen Hall.
  destruct w as [|c1 [|c2 [|c3 [|c4 w]]]]; cbn [String.length] in Hlen; try lia;
    cbn [Text.all_chars] in Hall; cbn [Text.int_digits];
    repeat match goal with
           | H : _ && _ = true |- _ => apply andb_prop in H as [? H]
           end;
    repeat match goal with
           | H : Text.is_digit _ = true |- _ => apply digit_value in H
           end; lia.
Qed.

(** The level a "Fuser:" line sets is at most 999. *)
Lemma percent_group pattern line m :
  captures_one (UpTo3 digit) pattern ->
  re_search true pattern line = Some m ->
  (0 <= Z.of_N (Text.int_of (group 1 m)) <= 999)%Z.
Proof.
  intros Hone Hsearch. unfold re_search in Hsearch.
  destruct (search_from true pattern None line) as [[skipped gs]|] eqn:Hs; [|done].
  injection Hsearch as <-.
  apply search_from_attempt in Hs as (prev & s & after & Hattempt).
  apply attempt_sound in Hattempt as (to & Hm & <- & _).
  destruct (matches_captures_one _ _ _ _ _ Hone Hm) as (a & b & Hbody & Ha & ->).
  apply matches_upto3_cls in Hbody as (w & Hw & Hlen & Hall & Hg).
  rewrite Hg, Ha, (consumed_app _ _ _ Hw). cbn [group nth Nat.sub app groups].
  rewrite (all_chars_ext _ Text.is_digit) in Hall by apply in_class_digit.
  pose proof (int_of_three w (proj2 Hlen) Hall). lia.
Qed.

Lemma fuser_pattern_group : captures_one (UpTo3 digit) fuser_pattern.
Proof.
  unfold fuser_pattern, Cat. cbn [fold_right].
  do 2 (apply captures_later; [by rewrite ?group_free_Str|]). by apply captures_here.
Qed.

Lemma belt_pattern_group : captures_one (UpTo3 digit) belt_pattern.
Proof.
  unfold belt_pattern, Cat. cbn [fold_right].
  do 2 (apply captures_later; [by rewrite ?group_free_Str|]). by apply captures_here.
Qed.

Lemma levels_ok_tail tail : levels_ok (parse_tail_metrics tail).1.
Proof.
  intros key v Hk.
  destruct (tail_levels_bounds tail key v Hk) as [Hkey Hv].
  split; [done|]. split; lia.
Qed.

Lemma levels_ok_insert key v (found : gmap string Z) :
  key = "fuser" \/ key = "belt" -> (0 <= v <= 999)%Z ->
  levels_ok found -> levels_ok (<[key := v]> found).
Proof.
  intros Hkey Hv Hok k w Hk. destruct (decide (k = key)) as [->|Hne].
  - rewrite lookup_insert_eq in Hk. injection Hk as <-. split; [|split; [done|]].
    + unfold level_keys. destruct Hkey as [->| ->]; rewrite !elem_of_cons; tauto.
    + intros Hf Hb. by destruct Hkey.
  - rewrite lookup_insert_ne in Hk by done. by apply Hok.
Qed.

Lemma read_fuser_line_ok line current :
  open_record_ok current -> open_record_ok (read_fuser_line line current).
Proof.
  intros [Hid Hlv]. unfold read_fuser_line. cbn zeta.
  assert (Hfirst : open_record_ok
    match re_search true fuser_pattern line with
    | Some m => with_level "fuser" (Z.of_N (Text.int_of (group 1 m))) current
    | None => current
    end).
  { destruct (re_search true fuser_pattern line) as [m|] eqn:Hm; [|done].
    split; [done|]. cbn [levels with_level].
    apply levels_ok_insert; [by left | | done].
    exact (percent_group fuser_pattern line m fuser_pattern_group Hm). }
  destruct Hfirst as [Hid1 Hlv1].
  destruct (re_search true belt_pattern line) as [m|] eqn:Hm; [|done].
  split; [done|]. cbn [levels with_level].
  apply levels_ok_insert; [by right | | done].
  exact (percent_group belt_pattern line m belt_pattern_group Hm).
Qed.

Lemma new_record_ok id tail : five_digits id -> open_record_ok (new_record id tail).
Proof.
  intros Hid. unfold new_record. pose proof (levels_ok_tail tail) as Hlv.
  by destruct (parse_tail_metrics tail) as [found last_update].
Qed.

Lemma finalize_record_description record finished :
  finalize_record record = inr finished ->
  description finished <> ""
  /\ (description record <> "" -> description finished = description record).
Proof.
  unfold finalize_record. cbn zeta.
  destruct (detect_empty_trays _) as [e|trays]; [done|]. intros [= <-].
  cbn [description].
  destruct (String.eqb_spec (description record) "") as [Hd|Hd]; [|done].
  split; [|done].
  by destruct (String.eqb_spec
                 (strip (split_first false timestamp_pattern (row_tail record))) "").
Qed.

Lemma detect_empty_trays_ok text trays :
  detect_empty_trays text = inr trays -> trays_ok trays.
Proof.
  intros Htrays. split; [by apply (labels_sorted text) |].
  intros label. by apply (detect_empty_trays_labelled text).
Qed.

Lemma finalize_record_ok record finished :
  open_record_ok record -> finalize_record record = inr finished -> record_ok finished.
Proof.
  intros Hopen Hfinal. pose proof (finalize_record_description _ _ Hfinal) as [Hd _].
  revert Hd Hfinal. unfold finalize_record. cbn zeta.
  destruct (detect_empty_trays _) as [e|trays] eqn:Htrays; [done|].
  intros Hd [= <-]. split; [done|]. split; [done|].
  by apply detect_empty_trays_ok in Htrays.
Qed.

Lemma close_current_ok st records :
  state_ok st -> close_current st = inr records -> Forall record_ok records.
Proof.
  intros [Hdone Hcur]. unfold close_current.
  destruct st.2 as [current|]; [|by intros [= <-]].
  destruct (finalize_record current) as [e|finished] eqn:Hfinal; [done|].
  intros [= <-]. apply Forall_app. split; [done|]. apply Forall_singleton.
  by apply (finalize_record_ok current finished (Hcur _ eq_refl)).
Qed.

Lemma parse_line_ok st line st' :
  parse_line st line = inr st' -> state_ok st -> state_ok st'.
Proof.
  unfold parse_line. intros Hline Hst.
  destruct (re_match false id_pattern line) as [m|] eqn:Hm.
  { destruct (close_current st) as [e|records] eqn:Hclose; [done|].
    injection Hline as <-. split; [by apply (close_current_ok st)|].
    intros current [= <-]. apply new_record_ok. by apply id_match_group in Hm as [? _]. }
  destruct Hst as [Hdone Hcur].
  destruct st.2 as [current|] eqn:Hc; [|injection Hline as <-; split; [done|]; by rewrite Hc].
  specialize (Hcur current eq_refl). cbn zeta in Hline.
  destruct (startswith "description:" (Text.lower line)).
  { destruct (field_value line); [done|]. injection Hline as <-.
    split; [done|]. by intros ? [= <-]. }
  destruct (startswith "status message:" (Text.lower line)).
  { destruct (field_value line); [done|]. injection Hline as <-.
    split; [done|]. by intros ? [= <-]. }
  destruct (startswith "printer text:" (Text.lower line)).
  { destruct (field_value line); [done|]. injection Hline as <-.
    split; [done|]. by intros ? [= <-]. }
  destruct (startswith "fuser:" (Text.lower line)); injection Hline as <-.
  - split; [done|]. intros ? [= <-]. by apply read_fuser_line_ok.
  - split; [done|]. rewrite Hc. by intros ? [= <-].
Qed.

Lemma parse_loop_ok lines : forall st st',
  parse_loop st lines = inr st' -> state_ok st -> state_ok st'.
Proof.
  induction lines as [|line lines IH]; intros st st'; cbn [parse_loop].
  - by intros [= <-].
  - destruct (parse_line st line) as [e|st1] eqn:Hline; [done|].
    intros Hloop Hst. eapply IH; [done|]. by eapply parse_line_ok.
Qed.

Lemma five_digits_isdigit id : five_digits id -> Text.isdigit id = true.
Proof. intros [Hlen Hall]. by destruct id. Qed.

Lemma filter_all {A} (P : A -> Prop) `{!forall x, Decision (P x)} (l : list A) :
  Forall P l -> filter P l = l.
Proof.
  induction 1 as [|x l Hx _ IH]; [done|]. by rewrite filter_cons_True, IH.
Qed.

Lemma parse_lines_loop lines records :
  parse_lines lines = inr records ->
  exists st, parse_loop ([], None) lines = inr st
             /\ close_current st = inr records /\ Forall record_ok records.
Proof.
  unfold parse_lines.
  destruct (parse_loop ([], None) lines) as [e|st] eqn:Hloop; [done|].
  destruct (close_current st) as [e|closed] eqn:Hclose; [done|].
  intros [= <-]. exists st. split; [done|].
  assert (Hok : Forall record_ok closed).
  { apply (close_current_ok st); [|done]. apply (parse_loop_ok _ _ _ Hloop).
    split; [constructor | done]. }
  rewrite filter_all; [done|].
  eapply Forall_impl; [exact Hok|]. intros r [[Hid _] _]. by apply five_digits_isdigit.
Qed.

(** X18: the id of every record is the five digits its line starts
    with, so the closing filter on [printer_id.isdigit()] removes no
    record: the records returned are those the loop collected. *)
Theorem parsed_ids lines records :
  parse_lines lines = inr records ->
  Forall (fun record => five_digits (printer_id record)) records
  /\ exists st, parse_loop ([], None) lines = inr st /\ close_current st = inr records.
Proof.
  intros (st & Hloop & Hrecords & Hok)%parse_lines_loop. split; [|by exists st].
  eapply Forall_impl; [exact Hok|]. by intros r [[Hid _] _].
Qed.

(** X21: every level of a record is a level of one of the ten keys and
    lies between 0 and 999; toner and drum levels, which only the row
    tail sets, lie between 0 and 100. *)
Theorem parsed_levels lines records record key v :
  parse_lines lines = inr records ->
  record ∈ records ->
  levels record !! key = Some v ->
  key ∈ level_keys /\ (0 <= v <= 999)%Z
  /\ (key <> "fuser" -> key <> "belt" -> (v <= 100)%Z).
Proof.
  intros (st & _ & _ & Hok)%parse_lines_loop Hin Hk.
  rewrite Forall_forall in Hok. destruct (Hok record Hin) as [[_ Hlv] _].
  by apply Hlv.
Qed.

(** X22: every record leaves the parser with a description that is not
    empty and with its empty trays in strictly ascending order, each
    "Unknown Tray" or "Tray " followed by a name. *)
Theorem parsed_records_finalized lines records record :
  parse_lines lines = inr records ->
  record ∈ records ->
  description record <> ""
  /\ Sorted label_order (empty_trays record)
  /\ (forall label, label ∈ empty_trays record ->
        label = "Unknown Tray" \/ named_tray label).
Proof.
  intros (st & _ & _ & Hok)%parse_lines_loop Hin.
  rewrite Forall_forall in Hok. destruct (Hok record Hin) as (_ & Hd & Hs & Hl).
  done.
Qed.
(** ** One record for each id line *)

Lemma printer_id_new_record id tail : printer_id (new_record id tail) = id.
Proof. unfold new_record. by destruct (parse_tail_metrics tail). Qed.

Lemma finalize_record_id record finished :
  finalize_record record = inr finished -> printer_id finished = printer_id record.
Proof.
  unfold finalize_record. cbn zeta.
  destruct (detect_empty_trays _) as [e|trays]; [done|]. by intros [= <-].
Qed.

Lemma close_current_ids st records :
  close_current st = inr records -> printer_id <$> records = state_ids st.
Proof.
  unfold close_current, state_ids. destruct st.2 as [current|].
  - destruct (finalize_record current) as [e|finished] eqn:Hfinal; [done|].
    intros [= <-]. rewrite fmap_app. cbn [fmap list_fmap].
    by rewrite (finalize_record_id _ _ Hfinal).
  - intros [= <-]. by rewrite app_nil_r.
Qed.

Lemma parse_line_ids st line st' :
  parse_line st line = inr st' ->
  state_ids st'
  = state_ids st ++ (if id_line line then [String.substring 0 5 line] else []).
Proof.
  unfold parse_line, id_line.
  destruct (re_match false id_pattern line) as [m|] eqn:Hm.
  { destruct (close_current st) as [e|records] eqn:Hclose; [done|].
    intros [= <-]. unfold state_ids at 1. cbn [fst snd].
    rewrite (close_current_ids _ _ Hclose), printer_id_new_record.
    by apply id_match_group in Hm as [_ ->]. }
  rewrite app_nil_r. destruct st as [done_ [c|]]; cbn [fst snd]; [|by intros [= <-]].
  destruct (startswith "description:" (Text.lower line)).
  { destruct (field_value line); [done|]. by intros [= <-]. }
  destruct (startswith "status message:" (Text.lower line)).
  { destruct (field_value line); [done|]. by intros [= <-]. }
  destruct (startswith "printer text:" (Text.lower line)).
  { destruct (field_value line); [done|]. by intros [= <-]. }
  destruct (startswith "fuser:" (Text.lower line)); intros [= <-]; [|done].
  unfold state_ids, read_fuser_line. cbn [fst snd].
  by destruct (re_search true fuser_pattern line), (re_search true belt_pattern line).
Qed.

Lemma parse_loop_ids lines : forall st st',
  parse_loop st lines = inr st' ->
  state_ids st'
  = state_ids st
    ++ (String.substring 0 5 <$> filter (fun line => id_line line = true) lines).
Proof.
  induction lines as [|line lines IH]; intros st st'; cbn [parse_loop].
  - intros [= <-]. by rewrite app_nil_r.
  - destruct (parse_line st line) as [e|st1] eqn:Hline; [done|].
    intros Hloop. rewrite (IH _ _ Hloop), (parse_line_ids _ _ _ Hline), <- app_assoc.
    f_equal. destruct (id_line line) eqn:Hid.
    + by rewrite filter_cons_True.
    + rewrite filter_cons_False; [done|]. by rewrite Hid.
Qed.

Lemma record_ids lines records :
  parse_lines lines = inr records ->
  printer_id <$> records
  = String.substring 0 5 <$> filter (fun line => id_line line = true) lines.
Proof.
  intros (st & Hloop & Hclose & _)%parse_lines_loop.
  by rewrite (close_current_ids _ _ Hclose), (parse_loop_ids _ _ _ Hloop).
Qed.

(** X19: the parser returns one record for each line that starts with
    five digits followed by a word boundary, in the order of the lines;
    the id of the record is these five digits.  A page without such a
    line gives no record. *)
Theorem parsed_one_per_id_line lines records :
  parse_lines lines = inr records ->
  printer_id <$> records
  = String.substring 0 5 <$> filter (fun line => id_line line = true) lines.
Proof. apply record_ids. Qed.

(** A page without a line that starts a record gives no record, and
    raises nothing. *)
Lemma parse_loop_no_id lines : forall records,
  Forall (fun line => id_line line = false) lines ->
  parse_loop (records, None) lines = inr (records, None).
Proof.
  induction lines as [|line lines IH]; intros records Hlines; cbn [parse_loop]; [done|].
  apply Forall_cons in Hlines as [Hline Hlines].
  unfold parse_line. unfold id_line in Hline.
  destruct (re_match false id_pattern line); [done|]. cbn [snd]. by apply IH.
Qed.

Lemma parse_lines_no_id lines :
  Forall (fun line => id_line line = false) lines -> parse_lines lines = inr [].
Proof.
  intros Hlines. unfold parse_lines. by rewrite parse_loop_no_id.
Qed.

(** ** A record depends on its own lines only *)

Lemma close_current_prefix (pre : list PrinterRecord) st :
  close_current (after_records pre st)
  = match close_current st with
    | inr records => inr (pre ++ records)
    | inl e => inl e
    end.
Proof.
  unfold close_current, after_records. cbn [fst snd]. destruct st.2 as [current|]; [|done].
  destruct (finalize_record current); [done|]. by rewrite app_assoc.
Qed.

Lemma parse_line_prefix (pre : list PrinterRecord) st line :
  parse_line (after_records pre st) line
  = match parse_line st line with
    | inr st' => inr (after_records pre st')
    | inl e => inl e
    end.
Proof.
  unfold parse_line. rewrite close_current_prefix.
  destruct (re_match false id_pattern line) as [m|].
  { by destruct (close_current st). }
  destruct st as [done_ [c|]]; cbn [fst snd after_records]; [|done].
  destruct (startswith "description:" (Text.lower line)).
  { by destruct (field_value line). }
  destruct (startswith "status message:" (Text.lower line)).
  { by destruct (field_value line). }
  destruct (startswith "printer text:" (Text.lower line)).
  { by destruct (field_value line). }
  by destruct (startswith "fuser:" (Text.lower line)).
Qed.

Lemma parse_loop_prefix (pre : list PrinterRecord) lines : forall st,
  parse_loop (after_records pre st) lines
  = match parse_loop st lines with
    | inr st' => inr (after_records pre st')
    | inl e => inl e
    end.
Proof.
  induction lines as [|line lines IH]; intros st; cbn [parse_loop]; [done|].
  rewrite parse_line_prefix. destruct (parse_line st line) as [e|st1]; [done|].
  apply IH.
Qed.

Lemma parse_loop_app l1 l2 : forall st,
  parse_loop st (l1 ++ l2)
  = match parse_loop st l1 with
    | inr st1 => parse_loop st1 l2
    | inl e => inl e
    end.
Proof.
  induction l1 as [|line l1 IH]; intros st; cbn [parse_loop app]; [done|].
  destruct (parse_line st line); [done|]. apply IH.
Qed.

(** X20: the parser does with a page what it does with the lines before
    an id line and then with the lines from that id line on: where both
    parts give records, the page gives the records of the first
    followed by those of the second, and where a part raises, the page
    raises the same, the first part first.  No line before an id line
    has a part in the records that follow, and none after it in the
    records before. *)
Theorem parse_lines_blocks before line after :
  id_line line = true ->
  parse_lines (before ++ line :: after)
  = match parse_lines before with
    | inr first =>
        match parse_lines (line :: after) with
        | inr rest => inr (first ++ rest)
        | inl e => inl e
        end
    | inl e => inl e
    end.
Proof.
  intros Hid. unfold id_line in Hid.
  destruct (re_match false id_pattern line) as [m|] eqn:Hm; [clear Hid | done].
  set (fresh := new_record (group 1 m) (strip (group 2 m))).
  assert (Hline : forall st,
            parse_line st line
            = match close_current st with
              | inr records => inr (records, Some fresh)
              | inl e => inl e
              end).
  { intros st. unfold parse_line. by rewrite Hm. }
  unfold parse_lines. rewrite parse_loop_app.
  destruct (parse_loop ([], None) before) as [e|st1]; [done|].
  cbn [parse_loop]. rewrite !Hline.
  destruct (close_current st1) as [e|records1]; [done|].
  change (close_current ([], None)) with (inr (A := parse_error) (@nil PrinterRecord)).
  replace (records1, Some fresh) with (after_records records1 ([], Some fresh))
    by (unfold after_records; cbn [fst snd]; by rewrite app_nil_r).
  rewrite parse_loop_prefix.
  destruct (parse_loop ([], Some fresh) after) as [e|st2]; [done|].
  rewrite close_current_prefix.
  destruct (close_current st2) as [e|records2]; [done|].
  by rewrite filter_app.
Qed.

(** * Properties of a refresh and of a manual resolution *)

Lemma snapshot_key_inj r t r' t' :
  five_digits (printer_id r) -> five_digits (printer_id r') ->
  snapshot_key r t = snapshot_key r' t' ->
  printer_id r = printer_id r' /\ t = t'.
Proof.
  unfold snapshot_key. intros [Hlen _] [Hlen' _].
  destruct (printer_id r) as [|a1 [|a2 [|a3 [|a4 [|a5 [|a6 rest]]]]]];
    try discriminate Hlen.
  destruct (printer_id r') as [|b1 [|b2 [|b3 [|b4 [|b5 [|b6 rest']]]]]];
    try discriminate Hlen'.
  rewrite !string_app_cons, !string_app_nil_l. by intros [= -> -> -> -> -> ->].
Qed.

(** X23: every empty tray of every parsed record is in the snapshot
    under the key of its own device id and label, and the entry there
    names that device and that tray: the keys of two different (device,
    tray) pairs never coincide. *)
Theorem parsed_trays_in_snapshot lines records record tray :
  parse_lines lines = inr records ->
  record ∈ records ->
  tray ∈ empty_trays record ->
  exists e : entry,
    dict_get (printer_id record +:+ "::" +:+ tray) (build_current_empties records)
    = Some e
    /\ e !! "key" = Some (printer_id record +:+ "::" +:+ tray)
    /\ e !! "printer_id" = Some (printer_id record)
    /\ e !! "tray" = Some tray.
Proof.
  intros (st & _ & _ & Hok)%parse_lines_loop Hrecord Htray.
  assert (Hids : forall r, r ∈ records -> five_digits (printer_id r)).
  { rewrite Forall_forall in Hok. intros r Hr. by destruct (Hok r Hr) as [[Hid _] _]. }
  destruct (snapshot_entries records (printer_id record +:+ "::" +:+ tray))
    as [Hkeys Hget].
  destruct (dict_get (printer_id record +:+ "::" +:+ tray)
              (build_current_empties records)) as [e|] eqn:He.
  - exists e. split; [done|].
    destruct (Hget e eq_refl) as (Hkey & r' & t' & Hr' & Ht' & Heq & ->).
    split; [done|].
    destruct (snapshot_key_inj record tray r' t' (Hids _ Hrecord) (Hids _ Hr') Heq)
      as [-> ->].
    by split.
  - exfalso. apply dict_get_None in He. apply He, Hkeys. by exists record, tray.
Qed.

Lemma keyed_snapshot records : keyed (build_current_empties records).
Proof.
  intros key e He. by apply (snapshot_entries records key) in He as [? _].
Qed.

Lemma keyed_remove key (d : odict entry) :
  dict_wf d -> keyed d -> keyed (dict_remove key d).
Proof.
  intros Hwf Hd k e Hk. destruct (decide (k = key)) as [->|Hne].
  - by rewrite dict_get_remove_eq in Hk.
  - rewrite dict_get_remove_ne in Hk by done. by apply Hd.
Qed.

Section ApplicationFacts.
Context `{JsonCodec}.
Variable html_to_lines : string -> list string.

Lemma keyed_reconcile current_empties scan_time self :
  dict_wf current_empties -> keyed current_empties ->
  keyed (get_open_empties (reconcile current_empties scan_time self).2)
  /\ forall key (e : entry),
       dict_get key (get_open_empties (reconcile current_empties scan_time self).2)
       = Some e ->
       e !! "last_seen" = Some scan_time.
Proof.
  intros Hwf Hkeyed. rewrite reconcile_open by done.
  assert (Hstamped : forall key (e item : entry),
            e = stamped (get_open_empties self) scan_time key item ->
            e !! "key" = item !! "key" /\ e !! "last_seen" = Some scan_time).
  { intros key e item ->. unfold stamped.
    destruct (dict_get key (get_open_empties self));
      by rewrite lookup_insert_eq, !lookup_insert_ne. }
  split.
  - intros key e He. rewrite dict_get_fmap_entries in He.
    destruct (dict_get key current_empties) as [item|] eqn:Hitem; [|done].
    injection He as He. symmetry in He. apply Hstamped in He as [-> _].
    by apply Hkeyed.
  - intros key e He. rewrite dict_get_fmap_entries in He.
    destruct (dict_get key current_empties) as [item|] eqn:Hitem; [|done].
    injection He as He. symmetry in He. by apply Hstamped in He as [_ ->].
Qed.

Lemma reconcile_keys current_empties scan_time self :
  dict_wf current_empties ->
  dict_keys (get_open_empties (reconcile current_empties scan_time self).2)
  = dict_keys current_empties.
Proof. intros Hwf. by rewrite reconcile_open, dict_keys_fmap_entries. Qed.

Lemma parsed_some lines records line :
  parse_lines lines = inr records ->
  line ∈ lines -> id_line line = true -> records <> [].
Proof.
  intros Hrecords%record_ids Hline Hid ->.
  assert (Hin : line ∈ filter (fun line => id_line line = true) lines)
    by by apply list_elem_of_filter.
  destruct (filter _ lines); [by apply elem_of_nil in Hin | done].
Qed.

(** X24: a refresh fails on an error of the download, on an exception
    of the parser, on a page that gives no record, as a page none of
    whose lines starts a record does, and when the write of the state
    file raises.  In the first three cases the store is as it was: no
    tray closed, no event appended, the scan time not moved.  In the
    last the state file is as it was, but the document in memory is the
    reconciled one. *)
Theorem refresh_failure_store fetched toner_threshold fuser_threshold now disk store :
  (forall cause store',
     _refresh_worker html_to_lines fetched toner_threshold fuser_threshold now disk store
     = (refresh_failed cause, store') ->
     state_path store' = state_path store
     /\ match cause with
        | network_error text => fetched = url_error text /\ store' = store
        | fetch_error text => fetched = other_error text /\ store' = store
        | parse_raised e =>
            store' = store
            /\ exists html,
                 fetched = page html /\ parse_monitor_page html_to_lines html = inl e
        | no_rows =>
            store' = store
            /\ exists html,
                 fetched = page html /\ parse_monitor_page html_to_lines html = inr []
        | save_raised text =>
            disk = write_raises text
            /\ exists html records,
                 fetched = page html
                 /\ parse_monitor_page html_to_lines html = inr records
                 /\ records <> []
                 /\ data store'
                    = data (reconcile (build_current_empties records) now store).2
        end)
  /\ (forall html,
        fetched = page html ->
        Forall (fun line => id_line line = false) (html_to_lines html) ->
        _refresh_worker html_to_lines fetched toner_threshold fuser_threshold now disk store
        = (refresh_failed no_rows, store))
  /\ (forall html records text,
        fetched = page html ->
        parse_monitor_page html_to_lines html = inr records ->
        records <> [] ->
        disk = write_raises text ->
        _refresh_worker html_to_lines fetched toner_threshold fuser_threshold now disk store
        = (refresh_failed (save_raised text),
           unsaved (reconcile (build_current_empties records) now store).2 store)).
Proof.
  split; [|split].
  - intros cause store'. unfold _refresh_worker.
    destruct fetched as [html|text|text]; [|by intros [= <- <-]..].
    destruct (parse_monitor_page html_to_lines html) as [e|[|r records]] eqn:Hparse.
    { intros [= <- <-]. split; [done|]. split; [done|]. by exists html. }
    { intros [= <- <-]. split; [done|]. split; [done|]. by exists html. }
    cbn zeta.
    destruct (reconcile (build_current_empties (r :: records)) now store)
      as [changes reconciled] eqn:Hreconcile.
    destruct disk as [|text]; [done|]. intros [= <- <-]. split; [done|].
    split; [done|]. exists html, (r :: records). by rewrite Hreconcile.
  - intros html -> Hnone. unfold _refresh_worker, parse_monitor_page.
    by rewrite parse_lines_no_id.
  - intros html records text -> Hparse Hsome ->. unfold _refresh_worker.
    rewrite Hparse. destruct records as [|r records]; [done|]. cbn zeta.
    by destruct (reconcile (build_current_empties (r :: records)) now store).
Qed.

(** X25: a page the parser returns records for, with a line that starts
    a record, is applied when the state file can be written: the
    payload holds the parsed records and their alerts, the store is the
    one [reconcile] returns for the snapshot of the records, the open
    trays shown are the open set of that store, their keys are the keys
    of the snapshot, and each carries its own key and the scan time as
    last_seen; once the payload is applied, the window shows the open
    set of the store. *)
Theorem refresh_applies html toner_threshold fuser_threshold now store line records :
  parse_monitor_page html_to_lines html = inr records ->
  line ∈ html_to_lines html ->
  id_line line = true ->
  exists p,
    records <> []
    /\ _refresh_worker html_to_lines (page html) toner_threshold fuser_threshold now
         written store
       = (refresh_applied p, (reconcile (build_current_empties records) now store).2)
    /\ payload_records p = records
    /\ payload_low_alerts p = build_low_alerts records toner_threshold fuser_threshold
    /\ payload_changes p = (reconcile (build_current_empties records) now store).1
    /\ payload_open_empties p
       = get_open_empties (reconcile (build_current_empties records) now store).2
    /\ dict_keys (payload_open_empties p) = dict_keys (build_current_empties records)
    /\ dict_wf (payload_open_empties p)
    /\ keyed (payload_open_empties p)
    /\ (forall key (e : entry),
          dict_get key (payload_open_empties p) = Some e ->
          e !! "last_seen" = Some now)
    /\ (forall app,
          state_store app = (reconcile (build_current_empties records) now store).2 ->
          in_sync (_apply_refresh p app)).
Proof.
  intros Hrecords Hline Hid. unfold _refresh_worker. rewrite Hrecords.
  pose proof (parsed_some _ _ _ Hrecords Hline Hid) as Hsome.
  destruct records as [|r records]; [done|]. cbn zeta.
  pose proof (build_current_empties_wf (r :: records)) as Hwf.
  pose proof (keyed_reconcile (build_current_empties (r :: records)) now store Hwf
                (keyed_snapshot _)) as [Hkeyed Hseen].
  pose proof (reconcile_open_wf (build_current_empties (r :: records)) now store Hwf)
    as Hwf'.
  pose proof (reconcile_keys (build_current_empties (r :: records)) now store Hwf)
    as Hkeys.
  destruct (reconcile (build_current_empties (r :: records)) now store)
    as [changes store'] eqn:Hreconcile.
  cbn [fst snd] in *. eexists. split; [done|]. split; [done|].
  cbn [payload_records payload_low_alerts payload_changes payload_open_empties].
  do 8 (split; [done|]). intros app Happ. unfold in_sync, _apply_refresh.
  cbn [app_open_empties state_store payload_open_empties]. by rewrite Happ.
Qed.

(** X26: when the window shows the open set of the store and every
    entry carries its key, each row of the list can be resolved by hand:
    its iid is its key, and selecting it and confirming removes that
    tray from the open set of the store, leaves the other trays as they
    were, and the window again shows the open set of the store.  A
    declined confirmation and an empty selection change nothing. *)
Theorem mark_listed_tray key (row : entry) now app :
  in_sync app ->
  dict_get key (app_open_empties app) = Some row ->
  let app' := mark_selected_filled [row_iid row] true now app in
  row_iid row = key
  /\ status app' = "Tray marked filled manually."
  /\ app_open_empties app' = dict_remove key (app_open_empties app)
  /\ dict_get key (app_open_empties app') = None
  /\ in_sync app'
  /\ app_events app' = get_events (state_store app')
  /\ mark_selected_filled [row_iid row] false now app = app
  /\ mark_selected_filled [] true now app = app.
Proof.
  intros (Hsync & Hwf & Hkeyed) Hrow app'.
  assert (Hiid : row_iid row = key).
  { unfold row_iid. by rewrite (Hkeyed key row Hrow). }
  assert (Hstore : dict_get key (get_open_empties (state_store app)) = Some row)
    by by rewrite <- Hsync.
  pose proof (manual_store key now (state_store app) row Hstore) as Hmanual.
  cbv zeta in Hmanual. subst app'.
  unfold mark_selected_filled, _selected_tray.
  rewrite Hiid, Hrow, (Hkeyed key row Hrow).
  change (default "" (Some key)) with key. revert Hmanual.
  destruct (manual_mark_filled key now (state_store app)) as [updated store'].
  cbn [fst snd]. intros (-> & Hopen & _).
  cbn [status app_open_empties app_events state_store].
  assert (Hopen' : get_open_empties store' = dict_remove key (app_open_empties app)).
  { unfold get_open_empties at 1. by rewrite Hopen, Hsync. }
  rewrite Hopen'.
  split; [done|]. split; [done|]. split; [done|].
  split; [by apply dict_get_remove_eq|]. split; [|done].
  split; [|split]; cbn [app_open_empties state_store].
  - by rewrite Hopen'.
  - by apply dict_wf_remove.
  - by apply keyed_remove.
Qed.

End ApplicationFacts.

(** ** Closed instances of the further properties *)

Lemma reconcile_twice_idempotent_witness :
  let cur := [("12345::Tray 2", tray2)] in
  let first := (reconcile (H := example_codec) cur "T1" fresh_store).2 in
  let second := reconcile (H := example_codec) cur "T2" first in
  dict_wf cur
  /\ get_events second.2 = get_events first
  /\ second.1 = {| new_empties := 0; new_filled := 0 |}
  /\ get_last_scan second.2 = "T2".
Proof.
  intros cur first second.
  pose proof (reconcile_twice_idempotent (H := example_codec) cur "T1" "T2" fresh_store
                (dict_wf_singleton _ _)) as Htwice.
  cbv zeta in Htwice. destruct Htwice as (_ & He & Hc & _ & _ & Hl).
  split; [apply dict_wf_singleton|]. by split; [|split].
Defined.


Lemma manual_mark_filled_twice_witness :
  let once := (manual_mark_filled (H := example_codec) "12345::Tray 2" "T1" one_open).2 in
  dict_wf (get_open_empties one_open)
  /\ manual_mark_filled (H := example_codec) "12345::Tray 2" "T2" once = (false, once).
Proof.
  intros once. split; [apply dict_wf_singleton|].
  apply (manual_mark_filled_twice (H := example_codec) "12345::Tray 2" "T1" "T2" one_open).
  apply dict_wf_singleton.
Defined.


Lemma alerts_sound_witness :
  level_alert fuser_record "Fuser" 12 20 ∈ build_low_alerts [fuser_record] 15 20
  /\ exists r,
       r ∈ [fuser_record]
       /\ raised_by 15 20 r (level_alert fuser_record "Fuser" 12 20).
Proof.
  assert (Hin : level_alert fuser_record "Fuser" 12 20
                ∈ build_low_alerts [fuser_record] 15 20).
  { change (build_low_alerts [fuser_record] 15 20)
      with [level_alert fuser_record "Fuser" 12 20;
            keyword_alert fuser_record "Fuser" fuser_reason].
    apply elem_of_cons. by left. }
  split; [done|].
  destruct (alerts_sound [fuser_record] 15 20 _ Hin) as (r & Hr & _ & _ & Hraised).
  by exists r.
Defined.

Lemma alerts_complete_witness :
  fuser_record ∈ [fuser_record]
  /\ raised_by 15 20 fuser_record (level_alert fuser_record "Fuser" 12 20)
  /\ exists a',
       a' ∈ build_low_alerts [fuser_record] 15 20
       /\ item a' = "Fuser"
       /\ source a' = threshold_source 20.
Proof.
  assert (Hin : fuser_record ∈ [fuser_record]) by (apply elem_of_cons; by left).
  assert (Hraised : raised_by 15 20 fuser_record (level_alert fuser_record "Fuser" 12 20))
    by (by apply raised_fuser).
  split; [done|]. split; [done|].
  destruct (alerts_complete [fuser_record] 15 20 fuser_record _ Hin Hraised)
    as (a' & Ha' & _ & Hitem & Hsource).
  by exists a'.
Defined.

Lemma normalize_tray_ignores_case_witness :
  ascii_text "tray b"
  /\ normalize_tray (Text.upper "tray b") = normalize_tray "tray b".
Proof.
  split; [reflexivity|].
  apply (proj1 (normalize_tray_ignores_case "tray b" eq_refl)).
Defined.

Lemma sample_lines_parsed : parse_lines sample_lines = inr [sample_parsed].
Proof. reflexivity. Qed.

Lemma long_number_lines_raise : parse_lines long_number_lines = inl ValueError.
Proof. vm_compute. reflexivity. Qed.

Lemma detect_empty_trays_sorted_witness :
  detect_empty_trays "Tray 2 is empty" = inr ["Tray 2"]
  /\ Sorted label_order ["Tray 2"] /\ NoDup ["Tray 2"].
Proof.
  split; [reflexivity|].
  apply (detect_empty_trays_sorted "Tray 2 is empty" ["Tray 2"] eq_refl).
Defined.

Lemma detect_empty_trays_labels_witness :
  ascii_text "Tray 2 is empty"
  /\ detect_empty_trays "Tray 2 is empty" = inr ["Tray 2"]
  /\ forall label, label ∈ ["Tray 2"] -> label = "Unknown Tray" \/ named_tray label.
Proof.
  split; [reflexivity|]. split; [reflexivity|].
  apply (proj1 (proj1 (detect_empty_trays_labels "Tray 2 is empty" eq_refl)
                  ["Tray 2"] eq_refl)).
Defined.

Lemma parsed_ids_witness :
  parse_lines sample_lines = inr [sample_parsed]
  /\ Forall (fun record => five_digits (printer_id record)) [sample_parsed].
Proof.
  split; [reflexivity|].
  apply (proj1 (parsed_ids sample_lines [sample_parsed] eq_refl)).
Defined.

Lemma parsed_one_per_id_line_witness :
  parse_lines sample_lines = inr [sample_parsed]
  /\ printer_id <$> [sample_parsed]
     = String.substring 0 5 <$> filter (fun line => id_line line = true) sample_lines.
Proof.
  split; [reflexivity|].
  apply (parsed_one_per_id_line sample_lines [sample_parsed] eq_refl).
Defined.

Lemma parse_lines_blocks_witness :
  id_line "12345 Library 2nd floor" = true
  /\ parse_lines
       (["Printer status page"]
        ++ "12345 Library 2nd floor" :: ["Status Message: Tray 2 is empty"])
     = match parse_lines ["Printer status page"] with
       | inr first =>
           match parse_lines
                   ["12345 Library 2nd floor"; "Status Message: Tray 2 is empty"] with
           | inr rest => inr (first ++ rest)
           | inl e => inl e
           end
       | inl e => inl e
       end.
Proof.
  split; [reflexivity|].
  apply (parse_lines_blocks ["Printer status page"] "12345 Library 2nd floor"
           ["Status Message: Tray 2 is empty"] eq_refl).
Defined.

Lemma parsed_levels_witness :
  parse_lines sample_lines = inr [sample_parsed]
  /\ sample_parsed ∈ [sample_parsed]
  /\ levels sample_parsed !! "fuser" = Some 85%Z
  /\ "fuser" ∈ level_keys /\ (0 <= 85 <= 999)%Z.
Proof.
  assert (Hin : sample_parsed ∈ [sample_parsed]) by (apply elem_of_cons; by left).
  split; [reflexivity|]. split; [done|]. split; [reflexivity|].
  destruct (parsed_levels sample_lines [sample_parsed] sample_parsed "fuser" 85
              eq_refl Hin eq_refl) as (Hkey & Hrange & _).
  by split.
Defined.

Lemma parsed_records_finalized_witness :
  parse_lines sample_lines = inr [sample_parsed]
  /\ sample_parsed ∈ [sample_parsed]
  /\ description sample_parsed <> ""
  /\ Sorted label_order (empty_trays sample_parsed).
Proof.
  assert (Hin : sample_parsed ∈ [sample_parsed]) by (apply elem_of_cons; by left).
  split; [reflexivity|]. split; [done|].
  destruct (parsed_records_finalized sample_lines [sample_parsed] sample_parsed
              eq_refl Hin) as (Hd & Hs & _).
  by split.
Defined.

Lemma parsed_trays_in_snapshot_witness :
  parse_lines sample_lines = inr [sample_parsed]
  /\ sample_parsed ∈ [sample_parsed]
  /\ "Tray 2" ∈ empty_trays sample_parsed
  /\ exists e : entry,
       dict_get "12345::Tray 2" (build_current_empties [sample_parsed]) = Some e
       /\ e !! "tray" = Some "Tray 2".
Proof.
  assert (Hin : sample_parsed ∈ [sample_parsed]) by (apply elem_of_cons; by left).
  assert (Htray : "Tray 2" ∈ empty_trays sample_parsed) by (apply elem_of_cons; by left).
  split; [reflexivity|]. split; [done|]. split; [done|].
  destruct (parsed_trays_in_snapshot sample_lines [sample_parsed] sample_parsed "Tray 2"
              eq_refl Hin Htray) as (e & He & _ & _ & Ht).
  by exists e.
Defined.

Lemma refresh_applies_witness :
  parse_monitor_page (fun _ => sample_lines) "" = inr [sample_parsed]
  /\ "12345 Library 2nd floor" ∈ sample_lines
  /\ id_line "12345 Library 2nd floor" = true
  /\ exists p,
       (_refresh_worker (H := example_codec) (fun _ => sample_lines) (page "") 15 20
          "T" written fresh_store).1 = refresh_applied p
       /\ payload_records p = [sample_parsed]
       /\ dict_keys (payload_open_empties p)
          = dict_keys (build_current_empties [sample_parsed]).
Proof.
  assert (Hin : "12345 Library 2nd floor" ∈ sample_lines).
  { apply elem_of_cons. right. apply elem_of_cons. by left. }
  split; [reflexivity|]. split; [done|]. split; [reflexivity|].
  destruct (refresh_applies (H := example_codec) (fun _ => sample_lines) "" 15 20 "T"
              fresh_store "12345 Library 2nd floor" [sample_parsed] eq_refl Hin eq_refl)
    as (p & _ & Hworker & Hrecords & _ & _ & _ & Hkeys & _).
  exists p. rewrite Hworker. by repeat split.
Defined.

Lemma sample_app_in_sync : in_sync sample_app.
Proof.
  split; [reflexivity|]. split; [apply dict_wf_singleton|].
  intros key e He. cbn [sample_app app_open_empties dict_get] in He.
  destruct (decide ("12345::Tray 2" = key)) as [<-|]; [|done].
  injection He as <-. reflexivity.
Qed.

Lemma mark_listed_tray_witness :
  let app' :=
    mark_selected_filled (H := example_codec) [row_iid keyed_tray2] true "T" sample_app in
  in_sync sample_app
  /\ dict_get "12345::Tray 2" (app_open_empties sample_app) = Some keyed_tray2
  /\ status app' = "Tray marked filled manually."
  /\ dict_get "12345::Tray 2" (app_open_empties app') = None.
Proof.
  intros app'. split; [apply sample_app_in_sync|]. split; [reflexivity|].
  pose proof (mark_listed_tray (H := example_codec) "12345::Tray 2" keyed_tray2 "T"
                sample_app sample_app_in_sync eq_refl) as Hmark.
  cbv zeta in Hmark. destruct Hmark as (_ & Hstatus & _ & Hgone & _).
  by split.
Defined.
